(** * The skills engine of nanoclaw: replay, resolution cache, uninstall

    A shallow embedding of [skills-engine/resolution-cache.ts],
    [skills-engine/replay.ts] and [skills-engine/uninstall.ts], and the
    properties of the engine that the specification states about them.

    The file system is a finite map from paths to file contents together
    with the set of directories; a path is the list of its segments, so that
    [path.join] of a directory and of a relative path given by its segments
    is list concatenation; where the engine joins a directory with a string
    it has read from a file, [pathJoin] resolves the segments of the string.
    The helpers the three files import
    from modules that are not at hand (manifest parsing, the merge tool, the
    backup and lock helpers, ...) are gathered in the record [Extern] and
    every definition is parametric in it. *)

From stdpp Require Import gmap strings list fin_maps sorting.
From Stdlib Require Import Ascii.

(** ** Paths and the file system *)

Abbreviation path := (list string).

(** [fs.existsSync] is used by the engine on two sorts of paths.  On a path
    that is then read, copied or unlinked as a regular file, it is rendered by
    the lookup in [files]; on a path that names a directory it is rendered by
    membership in [dirs].  A directory sitting where the engine expects a
    file (Node would raise EISDIR) is modelled where the resolution cache
    reads the resolution of a pair and the preimage of an rr-cache entry; in
    the other places it is outside the model, as are the failures of
    [mkdirSync] and of the writes. *)
Record FS := mkFS {
  files : gmap path string;
  dirs : gset path
}.

Definition emptyFS : FS := mkFS ∅ ∅.

Definition fileExists (p : path) (fs : FS) : bool :=
  match files fs !! p with Some _ => true | None => false end.

(** [dir] lies strictly above [p]. *)
Definition isBelow (dir p : path) : bool :=
  bool_decide (take (length dir) p = dir) && (length dir <? length p).

(** A directory exists when it was created or when it holds a file. *)
Definition dirExists (p : path) (fs : FS) : bool :=
  bool_decide (p ∈ dirs fs) ||
  existsb (isBelow p) (fst <$> map_to_list (files fs)).

(** [fs.existsSync(p)] on a path that may be either. *)
Definition existsSync (p : path) (fs : FS) : bool :=
  fileExists p fs || dirExists p fs.

(** The order of a directory walk.  [fs.readdirSync] lists the entries of a
    directory sorted by the bytes of their names (Node leaves the listing to
    libuv's [scandir], which sorts with [strcmp]); [String.le] is that order.
    A walk that descends into a sub-directory as soon as it meets it comes to
    the files in the order of their paths compared segment by segment. *)
Fixpoint pathCompare (p q : path) : comparison :=
  match p, q with
  | [], [] => Eq
  | [], _ :: _ => Lt
  | _ :: _, [] => Gt
  | a :: p', b :: q' =>
    match String.compare a b with
    | Eq => pathCompare p' q'
    | c => c
    end
  end.

Definition pathLe (p q : path) : Prop := pathCompare p q ≠ Gt.

#[global] Instance pathLe_dec : RelDecision pathLe.
Proof. intros p q. unfold pathLe. apply _. Defined.

(** The files, in the order in which a walk from the root meets them. *)
Definition filesInOrder (fs : FS) : list path :=
  merge_sort pathLe (fst <$> map_to_list (files fs)).

Definition writeFileSync (p : path) (content : string) (fs : FS) : FS :=
  mkFS (<[p := content]> (files fs)) (dirs fs).

Definition unlinkSync (p : path) (fs : FS) : FS :=
  mkFS (delete p (files fs)) (dirs fs).

(** [path.dirname] *)
Definition dirname (p : path) : path := removelast p.

(** The directory itself and every directory above it. *)
Definition ancestors (d : path) : list path :=
  (λ n, take n d) <$> seq 0 (S (length d)).

(** [fs.mkdirSync(d, { recursive: true })] *)
Definition mkdirSync (d : path) (fs : FS) : FS :=
  mkFS (files fs) (dirs fs ∪ list_to_set (ancestors d)).

(** [fs.copyFileSync(src, dst)]; every call of the engine follows a
    successful existence test of [src]. *)
Definition copyFileSync (src dst : path) (fs : FS) : FS :=
  match files fs !! src with
  | Some content => writeFileSync dst content fs
  | None => fs
  end.

(** ** String helpers ([endsWith], [replace(/suffix$/, ...)], [trim]) *)

Definition endsWith (s suffix : string) : bool :=
  let n := String.length s in
  let k := String.length suffix in
  (k <=? n) && String.eqb (String.substring (n - k) k s) suffix.

(** [s.replace(/suffix$/, '')] when [s] ends with [suffix]. *)
Definition dropSuffix (suffix s : string) : string :=
  if endsWith s suffix
  then String.substring 0 (String.length s - String.length suffix) s
  else s.

(** A string of the model is the sequence of the bytes of a text in UTF-8,
    [fs.readFileSync(p, 'utf-8')] being taken on well-formed files. *)
Definition bytes (codes : list nat) : string :=
  String.string_of_list_ascii (ascii_of_nat <$> codes).

(** The characters that [String.prototype.trim] removes, WhiteSpace and
    LineTerminator of ECMAScript, in UTF-8: tab, line feed, vertical tab, form
    feed, carriage return, space, U+00A0, U+1680, U+2000 to U+200A, U+2028,
    U+2029, U+202F, U+205F, U+3000 and U+FEFF. *)
Definition whiteSpace : list string :=
  (bytes <$> [[9]; [10]; [11]; [12]; [13]; [32]; [194; 160]; [225; 154; 128]])
  ++ ((λ last, bytes [226; 128; last]) <$> seq 128 11)
  ++ (bytes <$> [[226; 128; 168]; [226; 128; 169]; [226; 128; 175]; [226; 129; 159];
                 [227; 128; 128]; [239; 187; 191]]).

(** [s] without the first of [spaces] it starts with, if any. *)
Definition dropPrefixOf (spaces : list string) (s : string) : option string :=
  (λ space, String.substring (String.length space)
              (String.length s - String.length space) s)
    <$> List.find (λ space, String.prefix space s) spaces.

Fixpoint dropPrefixes (fuel : nat) (spaces : list string) (s : string) : string :=
  match fuel with
  | 0 => s
  | S fuel' =>
    match dropPrefixOf spaces s with
    | Some rest => dropPrefixes fuel' spaces rest
    | None => s
    end
  end.

(** Every removal shortens the string, so that its length is fuel enough. *)
Definition trimStart (s : string) : string :=
  dropPrefixes (String.length s) whiteSpace s.

Definition trimEnd (s : string) : string :=
  String.rev (dropPrefixes (String.length s) (String.rev <$> whiteSpace) (String.rev s)).

Definition trim (s : string) : string := trimEnd (trimStart s).

(** [haystack.includes(needle)] *)
Fixpoint includes (needle haystack : string) : bool :=
  String.prefix needle haystack ||
  match haystack with
  | String _ rest => includes needle rest
  | EmptyString => false
  end.

(** Apply [f] to the last segment of a path (the file name). *)
Definition mapLast (f : string → string) (p : path) : path :=
  match reverse p with
  | name :: rest => reverse (f name :: rest)
  | [] => []
  end.

Definition basename (p : path) : string := List.last p "".

(** A path printed with [/] between its segments. *)
Definition showPath (p : path) : string := String.concat "/" p.

(** [s.split(sep)] for a separator of one character. *)
Fixpoint splitOn (sep : ascii) (s : string) : list string :=
  match s with
  | EmptyString => [EmptyString]
  | String c rest =>
    if Ascii.eqb c sep then EmptyString :: splitOn sep rest
    else match splitOn sep rest with
         | seg :: segs => String c seg :: segs
         | [] => [String c EmptyString]
         end
  end.

(** [path.join(dir, s)] for a string [s] that is not known to be a single
    name, on POSIX: [s] is cut at its slashes and the result is normalized.
    An empty segment and [.] are dropped and [..] removes the segment before
    it; the paths of the model are absolute, so that [..] at the root stays
    at the root. *)
Definition joinSegment (dir : path) (seg : string) : path :=
  if String.eqb seg "" || String.eqb seg "." then dir
  else if String.eqb seg ".." then removelast dir
  else dir ++ [seg].

Definition pathJoin (dir : path) (s : string) : path :=
  foldl joinSegment dir (splitOn "/" s).

Fixpoint hasChar (c : ascii) (s : string) : bool :=
  match s with
  | EmptyString => false
  | String c' rest => Ascii.eqb c' c || hasChar c rest
  end.

(** A string that names one entry of a directory: it is not empty, it is
    neither [.] nor [..] and it holds no slash. *)
Definition plainName (s : string) : bool :=
  negb (String.eqb s "") && negb (String.eqb s ".") && negb (String.eqb s "..")
  && negb (hasChar "/" s).

(** ** [constants.ts] *)

Definition NANOCLAW_DIR : path := [".nanoclaw"].
Definition BASE_DIR : path := [".nanoclaw"; "base"].
Definition RESOLUTIONS_DIR : path := [".nanoclaw"; "resolutions"].
Definition SHIPPED_RESOLUTIONS_DIR : path := [".gemini"; "resolutions"].

(** ** [resolution-cache.ts]: the key and the directory of a skill set *)

(** [Array.prototype.sort] without a comparator orders strings by their
    UTF-16 code units.  On the UTF-8 bytes of the same texts this is the
    order of the bytes, except that the characters from U+E000 to U+FFFF
    (lead bytes 238 and 239) come after the characters beyond U+FFFF (lead
    bytes 240 to 244), which UTF-16 writes with surrogates.  [codeUnitRank]
    exchanges the bytes 238 and 239 with 254 and 255, which no UTF-8 text
    holds. *)
Definition codeUnitRank (c : ascii) : ascii :=
  match c with
  | "238"%char => "254"%char
  | "239"%char => "255"%char
  | "254"%char => "238"%char
  | "255"%char => "239"%char
  | _ => c
  end.

Fixpoint rankString (s : string) : string :=
  match s with
  | EmptyString => EmptyString
  | String c rest => String (codeUnitRank c) (rankString rest)
  end.

Definition codeUnitLe (a b : string) : Prop := String.le (rankString a) (rankString b).

#[global] Instance codeUnitLe_dec : RelDecision codeUnitLe.
Proof. intros a b. unfold codeUnitLe. apply _. Defined.

Definition sortStrings (l : list string) : list string :=
  merge_sort codeUnitLe l.

Definition resolutionKey (skillNames : list string) : string :=
  String.concat "+" (sortStrings skillNames).

(** [path.join] drops an empty segment. *)
Definition segment (s : string) : path :=
  if String.eqb s "" then [] else [s].

(** The [for ... of] loop of [findResolutionDir] over the search roots. *)
Fixpoint firstExisting (candidates : list path) (fs : FS) : option path :=
  match candidates with
  | [] => None
  | dir :: rest => if existsSync dir fs then Some dir else firstExisting rest fs
  end.

Definition findResolutionDir
    (skillNames : list string) (root : path) (fs : FS) : option path :=
  let key := resolutionKey skillNames in
  firstExisting
    ((λ baseDir, root ++ baseDir ++ segment key)
       <$> [SHIPPED_RESOLUTIONS_DIR; RESOLUTIONS_DIR])
    fs.

(** ** Results of calls that may raise *)

(** A JavaScript call either returns a value or throws; the message of the
    exception is kept because the engine copies it into its results. *)
Inductive Res (A : Type) : Type :=
  | Ok (a : A)
  | Thrown (msg : string).
Arguments Ok {A} a.
Arguments Thrown {A} msg.

(** JavaScript truthiness of an optional string field. *)
Definition truthy (o : option string) : bool :=
  match o with
  | Some s => negb (String.eqb s "")
  | None => false
  end.

(** ** Plain objects used as maps *)

(** The members that every plain object inherits from [Object.prototype]:
    [obj[key]] yields one of them when [key] is its name and [obj] has no
    property of its own under that name. *)
Definition objectPrototypeMembers : list string :=
  [ "constructor"; "__proto__"; "hasOwnProperty"; "isPrototypeOf";
    "propertyIsEnumerable"; "toLocaleString"; "toString"; "valueOf";
    "__defineGetter__"; "__defineSetter__"; "__lookupGetter__"; "__lookupSetter__" ].

Definition inheritedMember (key : string) : bool :=
  bool_decide (key ∈ objectPrototypeMembers).

(** What [obj[key]] yields. *)
Inductive Member (A : Type) :=
  | Own (value : A)
  | Inherited
  | Absent.
Arguments Own {A} value.
Arguments Inherited {A}.
Arguments Absent {A}.

Definition member {A} (obj : gmap string A) (key : string) : Member A :=
  match obj !! key with
  | Some value => Own value
  | None => if inheritedMember key then Inherited else Absent
  end.

(** ** Data model ([types.ts], as the three files use it) *)

(** One entry of [meta.file_hashes]: the hashes of the three merge inputs. *)
Record FileInputHashes := mkFileInputHashes {
  fh_base : option string;
  fh_current : option string;
  fh_skill : option string
}.

(** The fields of [meta.yaml] that [loadResolutions] reads.  A relative
    path, the key of [file_hashes], is given by the segments between its
    slashes, the empty string by no segment. *)
Record ResolutionMeta := mkResolutionMeta {
  meta_input_hashes : option (gmap string string);
  meta_file_hashes : option (gmap path FileInputHashes)
}.

(** What [parse] of the yaml library returns for the text of [meta.yaml]:
    [null] for an empty document, and otherwise a value of which the fields
    above are read (a document that is not a mapping has none of them). *)
Inductive MetaDocument :=
  | NullDocument
  | Document (meta : ResolutionMeta).

Record PreimagePair := mkPreimagePair {
  relPath : path;
  preimage : path;
  resolution : path
}.

#[global] Instance PreimagePair_eq_dec : EqDecision PreimagePair.
Proof. solve_decision. Defined.

Record Structured := mkStructured {
  npm_dependencies : option (gmap string string);
  env_additions : option (list string);
  docker_compose_services : option (gmap string string)
}.

(** A skill manifest.  The entries of [file_ops] are kept as text: they are
    only handed to [executeFileOps]. *)
Record Manifest := mkManifest {
  skill : string;
  adds : list path;
  modifies : list path;
  file_ops : list string;
  structured : option Structured
}.

(** A value of [perSkill]. *)
Record SkillOutcome := mkSkillOutcome {
  skill_success : bool;
  skill_error : option string
}.

#[global] Instance SkillOutcome_eq_dec : EqDecision SkillOutcome.
Proof. solve_decision. Defined.

Record ReplayOptions := mkReplayOptions {
  skills : list string;
  skillDirs : gmap string path;
  projectRoot : path
}.

Record ReplayResult := mkReplayResult {
  success : bool;
  perSkill : gmap string SkillOutcome;
  mergeConflicts : option (list path);
  error : option string
}.

Record AppliedSkill := mkAppliedSkill {
  name : string;
  version : string;
  file_hashes : list (path * string);
  structured_outcomes_test : option string;
  custom_patch : option string;
  custom_patch_description : option string
}.

Record CustomModification := mkCustomModification {
  patch_file : path;
  files_modified : list path
}.

(** The state document. *)
Record SystemState := mkSystemState {
  core_version : string;
  applied_skills : list AppliedSkill;
  rebased_at : option string;
  custom_modifications : option (list CustomModification)
}.

Record UninstallResult := mkUninstallResult {
  un_success : bool;
  un_skill : string;
  customPatchWarning : option string;
  replayResults : option (list (string * bool));
  un_error : option string
}.

(** ** The helpers that live outside the three files *)

(** Each field stands for a function that the three files import from a
    module that is not at hand, or for an external program they run.  A field
    that returns a [Res] may throw; one that also returns the files may have
    changed them before it threw. *)
Record Extern := mkExtern {
  (* crypto / state.ts: the SHA-256 of a file's content, in hexadecimal *)
  sha256 : string → string;
  (* yaml: [parse] applied to the text of meta.yaml; [None] when it throws *)
  parseMeta : string → option MetaDocument;
  (* [git rev-parse --git-dir] run in a directory, made absolute; [None]
     when the command fails (the directory is not inside a repository) *)
  gitDir : path → FS → option path;
  (* manifest.ts *)
  readManifest : path → FS → Res Manifest;
  (* path-remap.ts: [resolvePathRemap(p, loadPathRemap())] *)
  resolvePathRemap : path → path;
  (* file-ops.ts: the success flag, the errors, and the files afterwards *)
  executeFileOps : list string → path → FS → (bool * list string) * FS;
  (* merge.ts: [git merge-file] on the contents of (current, base, skill):
     the content left in the current file and whether the merge was clean *)
  mergeFile : string → string → string → Res (string * bool);
  isGitRepo : FS → bool;
  setupRerereAdapter : path → string → string → string → FS → Res unit * FS;
  runRerere : path → FS → Res bool * FS;
  (* [git add <path>] followed by [git rerere] *)
  gitAddAndRerere : path → FS → Res unit * FS;
  cleanupMergeState : path → FS → Res unit * FS;
  (* structured.ts *)
  mergeNpmDependencies : path → gmap string string → FS → Res unit * FS;
  mergeEnvAdditions : path → list string → FS → Res unit * FS;
  mergeDockerComposeServices : path → gmap string string → FS → Res unit * FS;
  runNpmInstall : FS → Res unit * FS;
  (* backup.ts: the backup is kept among the files; each of the three calls
     may throw *)
  createBackup : list path → FS → Res unit * FS;
  restoreBackup : FS → Res unit * FS;
  clearBackup : FS → Res unit * FS;
  (* [git apply --3way <patch>] *)
  gitApply3way : path → FS → Res unit * FS;
  (* [execSync] of a skill's test command *)
  execTest : string → FS → Res unit * FS
}.

(** ** The world the engine runs in *)

(** The calls whose order the specification speaks about. *)
Inductive Event :=
  | EvAcquireLock
  | EvReleaseLock
  | EvCreateBackup (backedUp : list path)
  | EvRestoreBackup
  | EvClearBackup
  | EvWriteState
  | EvMergeNpmDependencies
  | EvMergeEnvAdditions
  | EvMergeDockerComposeServices
  | EvNpmInstall (ok : bool).

#[global] Instance Event_eq_dec : EqDecision Event.
Proof. solve_decision. Defined.

(** The files, the persisted state document (read by [readState], replaced
    by [writeState]), the lock, and the log of the calls made so far. *)
Record World := mkWorld {
  fs : FS;
  doc : SystemState;
  lockHeld : bool;
  log : list Event
}.

Definition setFS (f : FS) (w : World) : World :=
  mkWorld f (doc w) (lockHeld w) (log w).

Definition emit (e : Event) (w : World) : World :=
  mkWorld (fs w) (doc w) (lockHeld w) (log w ++ [e]).

(** A computation on the world that may throw; the world reached when it
    throws is kept, since JavaScript undoes nothing. *)
Definition M (A : Type) : Type := World → Res A * World.

Definition ret {A} (a : A) : M A := λ w, (Ok a, w).
Definition throw {A} (msg : string) : M A := λ w, (Thrown msg, w).

Definition bind {A B} (k : A → M B) (m : M A) : M B :=
  λ w, match m w with
       | (Ok a, w') => k a w'
       | (Thrown msg, w') => (Thrown msg, w')
       end.

(** stdpp's monad notations: [x ← m; k] and [m;; k]. *)
#[global] Instance M_ret : MRet M := @ret.
#[global] Instance M_bind : MBind M := @bind.

(** [try { m } catch (err) { handler(err.message) }] *)
Definition tryCatch {A} (m : M A) (handler : string → M A) : M A :=
  λ w, match m w with
       | (Ok a, w') => (Ok a, w')
       | (Thrown msg, w') => handler msg w'
       end.

(** A total step on the files. *)
Definition onFS (f : FS → FS) : M unit :=
  λ w, (Ok tt, setFS (f (fs w)) w).

(** A step on the files that may throw. *)
Definition onFSRes {A} (f : FS → Res A * FS) : M A :=
  λ w, let '(r, f') := f (fs w) in (r, setFS f' w).

(** [try { body } finally { finalizer }]: the finalizer runs however the
    body ends, and what the body returned or threw stands unless the
    finalizer throws. *)
Definition tryFinally {A} (body : M A) (finalizer : M unit) : M A :=
  λ w, let '(r, w') := body w in
       match finalizer w' with
       | (Ok _, w'') => (r, w'')
       | (Thrown msg, w'') => (Thrown msg, w'')
       end.

Definition getFS : M FS := λ w, (Ok (fs w), w).
Definition logEvent (e : Event) : M unit := λ w, (Ok tt, emit e w).

(** ** [resolution-cache.ts]: loading cached resolutions *)

Definition isPreimageName (entryName : string) : bool :=
  endsWith entryName ".preimage" && negb (endsWith entryName ".preimage.hash").

(** The relative path that a list of segments stands for: for a file named
    [.preimage] directly in the base directory, the name without its
    extension is the empty string, which has no segment. *)
Definition relativeName (segments : path) : path :=
  if bool_decide (segments = [""]) then [] else segments.

(** What [findPreimagePairs] makes of one file met during its walk; the
    resolution beside it may be a file or a directory (line 265 tests
    [existsSync]). *)
Definition pairOfEntry (baseDir fullPath : path) (fs : FS) : option PreimagePair :=
  if isPreimageName (basename fullPath) then
    let resolutionPath :=
      mapLast (λ n, dropSuffix ".preimage" n +:+ ".resolution") fullPath in
    if existsSync resolutionPath fs then
      Some (mkPreimagePair
              (relativeName
                 (mapLast (dropSuffix ".preimage") (drop (length baseDir) fullPath)))
              fullPath resolutionPath)
    else None
  else None.

(** The recursive walk of [findPreimagePairs] visits the files below [dir]
    in the order of [filesInOrder]: every directory is listed by
    [readdirSync] and a sub-directory is walked when it is met. *)
Definition findPreimagePairs (dir baseDir : path) (fs : FS) : list PreimagePair :=
  omap (λ fullPath, if isBelow dir fullPath then pairOfEntry baseDir fullPath fs else None)
       (filesInOrder fs).

(** What the body of the loop of [loadResolutions] decides for one pair. *)
Inductive PairVerdict :=
  | Skip
  | Seed (hash preimageContent resolutionContent : string).

(** Lines 150-153: [cacheDir] is [path.join(rrCacheDir, hash)], where [hash]
    is whatever text the sidecar holds; [fs.mkdirSync(cacheDir)] and the two
    [writeFileSync] create the entry there. *)
Definition seedCache (rrCacheDir : path) (hash pre post : string) (fs : FS) : FS :=
  let cacheDir := pathJoin rrCacheDir hash in
  writeFileSync (cacheDir ++ ["postimage"]) post
    (writeFileSync (cacheDir ++ ["preimage"]) pre (mkdirSync cacheDir fs)).

Section ResolutionCache.
Context (E : Extern).

(** [computeFileHash(p) !== expected] for a file whose content is [content]. *)
Definition hashDiffers (content : string) (expected : option string) : bool :=
  negb (bool_decide (expected = Some (sha256 E content))).

(** [meta.file_hashes?.[relPath]], line 90.  [file_hashes] is a plain
    object: for a relative path that is the name of a member of
    [Object.prototype] and not a key of its own, the lookup yields that
    member, which is truthy and has none of the three hashes. *)
Definition expectedHashes (meta : ResolutionMeta) (rel : path) : option FileInputHashes :=
  hashesOf ← meta_file_hashes meta;
  match hashesOf !! rel with
  | Some expected => Some expected
  | None =>
    match rel with
    | [key] => if inheritedMember key then Some (mkFileInputHashes None None None) else None
    | _ => None
    end
  end.

(** The body of the [for] loop, lines 88-147, up to the decision.  The three
    existence tests are the lookups of the contents that are hashed next.
    The preimage of a pair is a file of the listing; its resolution may be a
    directory, which [readFileSync] refuses. *)
Definition checkPair (meta : ResolutionMeta) (root : path) (skillDir : option path)
    (pr : PreimagePair) (fs : FS) : Res PairVerdict :=
  match expectedHashes meta (relPath pr) with
  | None => Ok Skip
  | Some expected =>
    let basePath := root ++ NANOCLAW_DIR ++ ["base"] ++ relPath pr in
    let currentPath := root ++ relPath pr in
    match skillDir with
    | None => Thrown "The path argument must be of type string. Received undefined"
    | Some dir =>
      let skillModifyPath := dir ++ ["modify"] ++ relPath pr in
      match files fs !! basePath, files fs !! currentPath,
            files fs !! skillModifyPath with
      | Some baseContent, Some currentContent, Some skillContent =>
        if hashDiffers baseContent (fh_base expected) then Ok Skip
        else if hashDiffers currentContent (fh_current expected) then Ok Skip
        else if hashDiffers skillContent (fh_skill expected) then Ok Skip
        else
          match files fs !! preimage pr with
          | None => Thrown "ENOENT: no such file or directory, open"
          | Some preimageContent =>
            match files fs !! resolution pr with
            | None => Thrown "EISDIR: illegal operation on a directory, read"
            | Some resolutionContent =>
              let hashSidecar := mapLast (λ n, n +:+ ".hash") (preimage pr) in
              match files fs !! hashSidecar with
              | None => Ok Skip
              | Some token =>
                let hash := trim token in
                if String.eqb hash "" then Ok Skip
                else Ok (Seed hash preimageContent resolutionContent)
              end
            end
          end
      | _, _, _ => Ok Skip
      end
    end
  end.

(** The [for] loop of [loadResolutions], with its variable [loadedAny]. *)
Fixpoint loadPairs (meta : ResolutionMeta) (root : path) (skillDir : option path)
    (rrCacheDir : path) (pairs : list PreimagePair) (loadedAny : bool) (fs : FS)
    : Res bool * FS :=
  match pairs with
  | [] => (Ok loadedAny, fs)
  | pr :: rest =>
    match checkPair meta root skillDir pr fs with
    | Thrown msg => (Thrown msg, fs)
    | Ok Skip => loadPairs meta root skillDir rrCacheDir rest loadedAny fs
    | Ok (Seed hash pre post) =>
      loadPairs meta root skillDir rrCacheDir rest true
        (seedCache rrCacheDir hash pre post fs)
    end
  end.

Definition loadResolutions (skillNames : list string) (root : path)
    (skillDir : option path) (fs : FS) : Res bool * FS :=
  match findResolutionDir skillNames root fs with
  | None => (Ok false, fs)
  | Some resDir =>
    match files fs !! (resDir ++ ["meta.yaml"]) with
    | None => (Ok false, fs)
    | Some text =>
      match parseMeta E text with
      | None => (Ok false, fs)
      | Some NullDocument =>
        (* line 65, outside the [try]: [meta.input_hashes] of [null] *)
        (Thrown "Cannot read properties of null (reading 'input_hashes')", fs)
      | Some (Document meta) =>
        match meta_input_hashes meta with
        | None => (Ok false, fs)
        | Some _ =>
          match findPreimagePairs resDir resDir fs with
          | [] => (Ok false, fs)
          | pairs =>
            match gitDir E root fs with
            | None => (Ok false, fs)
            | Some gitDirectory =>
              loadPairs meta root skillDir (gitDirectory ++ ["rr-cache"]) pairs false fs
            end
          end
        end
      end
    end
  end.

End ResolutionCache.

(** ** [replay.ts] *)

(** What the collection step (lines 81-100) ends with. *)
Inductive Collected :=
  | MissingDir (skillName : string)
  | Touched (touched : list path).

(** [allTouchedFiles.add(f)]: a [Set] keeps the order of first insertion. *)
Definition addTouched (acc : list path) (f : path) : list path :=
  if decide (f ∈ acc) then acc else acc ++ [f].

(** What applying one skill (the body of the [try], up to the merges) ends
    with, when it does not throw. *)
Inductive Applied :=
  | FileOpsFailed (errors : list string)
  | Merged (manifest : Manifest) (skillConflicts : list path).

(** The variables of [replaySkills] that the loop over the skills updates. *)
Record ReplayAcc := mkReplayAcc {
  acc_perSkill : gmap string SkillOutcome;
  allMergeConflicts : list path;
  allNpmDeps : gmap string string;
  allEnvAdditions : list string;
  allDockerServices : gmap string string;
  hasNpmDeps : bool
}.

Definition emptyAcc : ReplayAcc := mkReplayAcc ∅ [] ∅ [] ∅ false.

(** How one turn of the loop over the skills ends. *)
Inductive StepExit :=
  | StepNext (acc : ReplayAcc)
  | StepBreak (acc : ReplayAcc)
  | StepReturn (r : ReplayResult).

Definition succeeded : SkillOutcome := mkSkillOutcome true None.
Definition failed (msg : string) : SkillOutcome := mkSkillOutcome false (Some msg).

(** [Object.assign(target, source)] *)
Definition objectAssign (target source : gmap string string) : gmap string string :=
  source ∪ target.

(** Lines 248-261: the structured operations of a manifest join the batch. *)
Definition collectStructured (manifest : Manifest) (acc : ReplayAcc) : ReplayAcc :=
  let npm := structured manifest ≫= npm_dependencies in
  let env := structured manifest ≫= env_additions in
  let docker := structured manifest ≫= docker_compose_services in
  mkReplayAcc (acc_perSkill acc) (allMergeConflicts acc)
    (match npm with Some deps => objectAssign (allNpmDeps acc) deps | None => allNpmDeps acc end)
    (match env with Some l => allEnvAdditions acc ++ l | None => allEnvAdditions acc end)
    (match docker with
     | Some services => objectAssign (allDockerServices acc) services
     | None => allDockerServices acc
     end)
    (match npm with Some _ => true | None => hasNpmDeps acc end).

Definition setPerSkill (skillName : string) (o : SkillOutcome) (acc : ReplayAcc)
    : ReplayAcc :=
  mkReplayAcc (<[skillName := o]> (acc_perSkill acc)) (allMergeConflicts acc)
    (allNpmDeps acc) (allEnvAdditions acc) (allDockerServices acc) (hasNpmDeps acc).

Definition pushConflicts (conflicts : list path) (acc : ReplayAcc) : ReplayAcc :=
  mkReplayAcc (acc_perSkill acc) (allMergeConflicts acc ++ conflicts)
    (allNpmDeps acc) (allEnvAdditions acc) (allDockerServices acc) (hasNpmDeps acc).

Definition liftRes {A} (r : Res A) : M A := λ w, (r, w).

Section Replay.
Context (E : Extern).

(** Modelled from the spec: [readManifest(dir)] reads the file
    [manifest.yaml] of the directory [dir].  Given a member of
    [Object.prototype] where a directory is expected, it throws: [path.join]
    refuses an argument that is not a string. *)
Definition readManifestOfMember : Res Manifest :=
  Thrown "The path argument must be of type string. Received function".

(** Step 1, lines 81-100.  [options.skillDirs[skillName]] is truthy for a
    directory of the map (a path, which is not the empty string) and for an
    inherited member; the manifest is read outside any [try]. *)
Fixpoint collectTouched (dirsOf : gmap string path) (names : list string)
    (acc : list path) (fs : FS) : Res Collected :=
  match names with
  | [] => Ok (Touched acc)
  | skillName :: rest =>
    match member dirsOf skillName with
    | Absent => Ok (MissingDir skillName)
    | Inherited =>
      match readManifestOfMember with
      | Thrown msg => Thrown msg
      | Ok manifest =>
        collectTouched dirsOf rest
          (foldl addTouched (foldl addTouched acc (adds manifest)) (modifies manifest)) fs
      end
    | Own skillDir =>
      match readManifest E skillDir fs with
      | Thrown msg => Thrown msg
      | Ok manifest =>
        collectTouched dirsOf rest
          (foldl addTouched (foldl addTouched acc (adds manifest)) (modifies manifest)) fs
      end
    end
  end.

(** Step 2, the body of the loop of lines 103-116. *)
Definition resetPath (root rel : path) (fs : FS) : FS :=
  let resolvedPath := resolvePathRemap E rel in
  let currentPath := root ++ resolvedPath in
  let basePath := root ++ BASE_DIR ++ resolvedPath in
  match files fs !! basePath with
  | Some _ => copyFileSync basePath currentPath (mkdirSync (dirname currentPath) fs)
  | None => if fileExists currentPath fs then unlinkSync currentPath fs else fs
  end.

Definition resetTouched (root : path) (touched : list path) (fs : FS) : FS :=
  foldl (λ f rel, resetPath root rel f) fs touched.

(** Step 3, lines 118-124: the result of [loadResolutions] is dropped.  The
    collection step has read a manifest for every skill of the list, so that
    [options.skillDirs[...]] is here a directory of the map itself, and
    [undefined] when the list is empty. *)
Definition preloadResolutions (options : ReplayOptions) : M unit :=
  λ w,
    let lastSkillDir := last (skills options) ≫= (λ n, skillDirs options !! n) in
    match loadResolutions E (skills options) (projectRoot options) lastSkillDir (fs w) with
    | (Ok _, f) => (Ok tt, setFS f w)
    | (Thrown msg, f) => (Thrown msg, setFS f w)
    end.

(** Lines 155-167. *)
Definition copyAdds (root skillDir : path) (manifest : Manifest) (fs : FS) : FS :=
  let addDir := skillDir ++ ["add"] in
  if existsSync addDir fs then
    foldl (λ f rel,
             let destPath := root ++ resolvePathRemap E rel in
             let srcPath := addDir ++ rel in
             if fileExists srcPath f
             then copyFileSync srcPath destPath (mkdirSync (dirname destPath) f)
             else f)
          fs (adds manifest)
  else fs.

(** Lines 210-230: the conflict is handed to [git rerere]; [true] when it
    resolved the file. *)
Definition tryRerere (resolvedPath currentPath basePath skillPath : path)
    (oursContent : string) : M bool :=
  f ← getFS;
  match files f !! basePath, files f !! skillPath with
  | Some baseContent, Some theirsContent =>
    onFSRes (setupRerereAdapter E resolvedPath baseContent oursContent theirsContent);;
    autoResolved ← onFSRes (runRerere E currentPath);
    if autoResolved : bool then
      onFSRes (gitAddAndRerere E resolvedPath);;
      onFSRes (cleanupMergeState E resolvedPath);;
      mret true
    else
      onFSRes (cleanupMergeState E resolvedPath);;
      mret false
  | _, _ => throw "ENOENT: no such file or directory"
  end.

(** The body of the loop over [manifest.modifies], lines 172-234: the path
    pushed on [skillConflicts], if any.  The temporary copy of the current
    file lives in [os.tmpdir()], outside the modelled tree: [mergeFile] is
    given its content and the merged content is written back. *)
Definition mergeModified (root skillDir rel : path) : M (option path) :=
  let resolvedPath := resolvePathRemap E rel in
  let currentPath := root ++ resolvedPath in
  let basePath := root ++ BASE_DIR ++ resolvedPath in
  let skillPath := skillDir ++ ["modify"] ++ rel in
  f ← getFS;
  if negb (fileExists skillPath f) then mret (Some rel)
  else
    match files f !! currentPath with
    | None =>
      onFS (λ f, copyFileSync skillPath currentPath (mkdirSync (dirname currentPath) f));;
      mret None
    | Some oursContent =>
      (if fileExists basePath f then mret tt
       else onFS (λ f, copyFileSync currentPath basePath (mkdirSync (dirname basePath) f)));;
      f1 ← getFS;
      match files f1 !! basePath, files f1 !! skillPath with
      | Some baseContent, Some theirsContent =>
        '(merged, clean) ← liftRes (mergeFile E oursContent baseContent theirsContent);
        onFS (writeFileSync currentPath merged);;
        if clean : bool then mret None
        else
          f2 ← getFS;
          if isGitRepo E f2 then
            autoResolved ← tryRerere resolvedPath currentPath basePath skillPath oursContent;
            if autoResolved : bool then mret None else mret (Some resolvedPath)
          else mret (Some resolvedPath)
      | _, _ => throw "git merge-file failed"
      end
    end.

Fixpoint mergeAll (root skillDir : path) (rels : list path) : M (list path) :=
  match rels with
  | [] => mret []
  | rel :: rest =>
    conflict ← mergeModified root skillDir rel;
    conflicts ← mergeAll root skillDir rest;
    mret (option_list conflict ++ conflicts)
  end.

(** Lines 136-234: the manifest is read, the file operations run, the added
    files are copied and the modified files are merged. *)
Definition applySkillFiles (root : path) (skillDir : option path) : M Applied :=
  match skillDir with
  | None => throw "The path argument must be of type string. Received undefined"
  | Some dir =>
    f ← getFS;
    manifest ← liftRes (readManifest E dir f);
    '(opsOk, errors) ←
      (match file_ops manifest with
       | [] => mret (true, [])
       | ops =>
         f ← getFS;
         let '(r, f') := executeFileOps E ops root f in
         onFS (λ _, f');; mret r
       end);
    if negb opsOk then mret (FileOpsFailed errors)
    else
      onFS (copyAdds root dir manifest);;
      skillConflicts ← mergeAll root dir (modifies manifest);
      mret (Merged manifest skillConflicts)
  end.

(** One turn of the loop of lines 133-273, with its [try] and [catch].  As
    in step 3, the collection step has found a directory of the map itself
    for [skillName]; the lookup that finds none stands for [undefined]. *)
Definition replayStep (options : ReplayOptions) (skillName : string) (acc : ReplayAcc)
    : M StepExit :=
  tryCatch
    (applied ← applySkillFiles (projectRoot options) (skillDirs options !! skillName);
     match applied with
     | FileOpsFailed errors =>
       mret (StepReturn
         (mkReplayResult false
            (<[skillName := failed ("File operations failed: " +:+ String.concat "; " errors)]>
               (acc_perSkill acc))
            None
            (Some ("File ops failed for " +:+ skillName))))
     | Merged manifest skillConflicts =>
       match skillConflicts with
       | _ :: _ =>
         mret (StepBreak
           (setPerSkill skillName
              (failed ("Merge conflicts: " +:+
                       String.concat ", " (showPath <$> skillConflicts)))
              (pushConflicts skillConflicts acc)))
       | [] =>
         mret (StepNext (collectStructured manifest (setPerSkill skillName succeeded acc)))
       end
     end)
    (λ msg,
       mret (StepReturn
         (mkReplayResult false
            (<[skillName := failed msg]> (acc_perSkill acc))
            None
            (Some ("Replay failed for " +:+ skillName +:+ ": " +:+ msg))))).

(** How the loop over the skills ends: it ran to its end or hit [break]
    ([LoopDone]), or it executed a [return]. *)
Inductive LoopExit :=
  | LoopDone (acc : ReplayAcc)
  | LoopReturn (r : ReplayResult).

Fixpoint replayLoop (options : ReplayOptions) (names : list string) (acc : ReplayAcc)
    : M LoopExit :=
  match names with
  | [] => mret (LoopDone acc)
  | skillName :: rest =>
    exit ← replayStep options skillName acc;
    match exit with
    | StepNext acc' => replayLoop options rest acc'
    | StepBreak acc' => mret (LoopDone acc')
    | StepReturn r => mret (LoopReturn r)
    end
  end.

(** Lines 275-309. *)
Definition finishReplay (root : path) (acc : ReplayAcc) : M ReplayResult :=
  match allMergeConflicts acc with
  | _ :: _ =>
    mret (mkReplayResult false (acc_perSkill acc) (Some (allMergeConflicts acc))
            (Some ("Unresolved merge conflicts: " +:+
                   String.concat ", " (showPath <$> allMergeConflicts acc))))
  | [] =>
    (if hasNpmDeps acc then
       logEvent EvMergeNpmDependencies;;
       onFSRes (mergeNpmDependencies E (root ++ ["package.json"]) (allNpmDeps acc))
     else mret tt);;
    (match allEnvAdditions acc with
     | _ :: _ =>
       logEvent EvMergeEnvAdditions;;
       onFSRes (mergeEnvAdditions E (root ++ [".env.example"]) (allEnvAdditions acc))
     | [] => mret tt
     end);;
    (if bool_decide (allDockerServices acc = ∅) then mret tt
     else
       logEvent EvMergeDockerComposeServices;;
       onFSRes (mergeDockerComposeServices E (root ++ ["docker-compose.yml"])
                  (allDockerServices acc)));;
    (if hasNpmDeps acc then
       tryCatch (onFSRes (runNpmInstall E);; logEvent (EvNpmInstall true))
                (λ _, logEvent (EvNpmInstall false))
     else mret tt);;
    mret (mkReplayResult true (acc_perSkill acc) None None)
  end.

(** Lines 118-309: what [replaySkills] does once the touched files are
    reset. *)
Definition replayFromBase (options : ReplayOptions) : M ReplayResult :=
  preloadResolutions options;;
  exit ← replayLoop options (skills options) emptyAcc;
  match exit with
  | LoopReturn r => mret r
  | LoopDone acc => finishReplay (projectRoot options) acc
  end.

Definition replaySkills (options : ReplayOptions) : M ReplayResult :=
  f ← getFS;
  collected ← liftRes (collectTouched (skillDirs options) (skills options) [] f);
  match collected with
  | MissingDir skillName =>
    mret (mkReplayResult false
            {[ skillName := failed ("Skill directory not found for: " +:+ skillName) ]}
            None
            (Some ("Missing skill directory for: " +:+ skillName)))
  | Touched touched =>
    onFS (resetTouched (projectRoot options) touched);;
    replayFromBase options
  end.

End Replay.

(** ** [replay.ts]: [findSkillDir] *)

Section FindSkillDir.
Context (E : Extern).

(** The sub-directories of [skillsRoot] that hold a [manifest.yaml], in the
    order in which [readdirSync] lists them, which is the order of their
    names. *)
Definition skillPackages (skillsRoot : path) (fs : FS) : list path :=
  omap (λ p, if bool_decide (p = take (S (length skillsRoot)) p ++ ["manifest.yaml"])
                && isBelow skillsRoot p
             then Some (take (S (length skillsRoot)) p) else None)
       (filesInOrder fs).

Definition findSkillDir (skillName : string) (root : path) (fs : FS) : option path :=
  let skillsRoot := root ++ [".gemini"; "skills"] in
  if negb (existsSync skillsRoot fs) then None
  else
    List.find (λ dir, match readManifest E dir fs with
                      | Ok manifest => String.eqb (skill manifest) skillName
                      | Thrown _ => false
                      end)
              (skillPackages skillsRoot fs).

End FindSkillDir.

(** ** [uninstall.ts] *)

(** The double quote character, for the messages that quote a skill name. *)
Definition dq : string := String (ascii_of_nat 34) EmptyString.

Definition rebaseError : string :=
  "Cannot uninstall individual skills after rebase. The base includes all skill modifications. To remove a skill, start from a clean core and re-apply the skills you want.".

Definition failure (skillName msg : string) : UninstallResult :=
  mkUninstallResult false skillName None None (Some msg).

(** Modelled from the spec: [readState] and [writeState] of state.ts, which
    is not among the sources.  The State document is read at the start of an
    operation and written atomically at its end. *)
Definition readState : M SystemState := λ w, (Ok (doc w), w).

(** Modelled from the spec: see [readState]. *)
Definition writeState (state : SystemState) : M unit :=
  λ w, (Ok tt, emit EvWriteState (mkWorld (fs w) state (lockHeld w) (log w))).

(** Modelled from the spec: [acquireLock] of lock.ts, which is not among the
    sources.  A second invocation fails fast rather than interleave with the
    one that holds the lock. *)
Definition acquireLock : M unit :=
  λ w, if lockHeld w then (Thrown "Operation in progress: lock is held", w)
       else (Ok tt, emit EvAcquireLock (mkWorld (fs w) (doc w) true (log w))).
(** Modelled from the spec: the function that [acquireLock] returns. *)
Definition releaseLock : M unit :=
  λ w, (Ok tt, emit EvReleaseLock (mkWorld (fs w) (doc w) false (log w))).

(** [replayResults[name] = passed] on an object that keeps insertion order. *)
Fixpoint setResult (skillName : string) (passed : bool) (results : list (string * bool))
    : list (string * bool) :=
  match results with
  | [] => [(skillName, passed)]
  | (n, b) :: rest =>
    if String.eqb n skillName then (n, passed) :: rest
    else (n, b) :: setResult skillName passed rest
  end.

Section Uninstall.
Context (E : Extern).

(** The calls of the three helpers of backup.ts; the log records that the
    call was made. *)
Definition doCreateBackup (filesToBackup : list path) : M unit :=
  logEvent (EvCreateBackup filesToBackup);; onFSRes (createBackup E filesToBackup).
Definition doRestoreBackup : M unit :=
  logEvent EvRestoreBackup;; onFSRes (restoreBackup E).
Definition doClearBackup : M unit :=
  logEvent EvClearBackup;; onFSRes (clearBackup E).

(** Lines 53-65: the files touched by any applied skill or custom
    modification, in the order of first insertion in the [Set]. *)
Definition allTouchedFiles (state : SystemState) : list path :=
  let fromSkills :=
    foldl (λ acc s, foldl addTouched acc (fst <$> file_hashes s)) [] (applied_skills state) in
  match custom_modifications state with
  | Some mods => foldl (λ acc cm, foldl addTouched acc (files_modified cm)) fromSkills mods
  | None => fromSkills
  end.

(** Lines 78-91: [Some] of the directories when every remaining skill has a
    package, the first name without one otherwise. *)
Fixpoint locateSkillDirs (root : path) (names : list string) (acc : gmap string path)
    (f : FS) : string + gmap string path :=
  match names with
  | [] => inr acc
  | n :: rest =>
    match findSkillDir E n root f with
    | None => inl n
    | Some dir => locateSkillDirs root rest (<[n := dir]> acc) f
    end
  end.

(** Lines 97-119: the files only the removed skill owns go back to base. *)
Definition resetExclusive (root : path) (skillName : string) (state : SystemState)
    (skillEntry : AppliedSkill) (f : FS) : FS :=
  let remainingSkillFiles :=
    foldl (λ acc s, if String.eqb (name s) skillName then acc
                    else foldl addTouched acc (fst <$> file_hashes s))
          [] (applied_skills state) in
  foldl (λ f filePath,
           if bool_decide (filePath ∈ remainingSkillFiles) then f
           else resetPath E root filePath f)
        f (fst <$> file_hashes skillEntry).

(** Lines 140-154: a custom patch that fails to apply is passed over. *)
Definition reapplyCustom (root : path) (state : SystemState) : M unit :=
  match custom_modifications state with
  | Some mods =>
    foldr (λ cm rest,
             let patchPath := root ++ patch_file cm in
             f ← getFS;
             (if fileExists patchPath f
              then tryCatch (onFSRes (gitApply3way E patchPath)) (λ _, mret tt)
              else mret tt);;
             rest)
          (mret tt) mods
  | None => mret tt
  end.

(** Lines 157-175: the test command of every remaining skill that has one. *)
Fixpoint runSkillTests (skillName : string) (applied : list AppliedSkill)
    (results : list (string * bool)) : M (list (string * bool)) :=
  match applied with
  | [] => mret results
  | s :: rest =>
    if String.eqb (name s) skillName then runSkillTests skillName rest results
    else if negb (truthy (structured_outcomes_test s))
    then runSkillTests skillName rest results
    else
      passed ← tryCatch
        (onFSRes (execTest E (default "" (structured_outcomes_test s)));; mret true)
        (λ _, mret false);
      runSkillTests skillName rest (setResult (name s) passed results)
  end.

(** Lines 198-207: the hashes of a remaining skill, from the files on disk. *)
Definition refreshHashes (root : path) (f : FS) (s : AppliedSkill) : AppliedSkill :=
  mkAppliedSkill (name s) (version s)
    (omap (λ filePath, (λ content, (filePath, sha256 E content)) <$> files f !! (root ++ filePath))
          (fst <$> file_hashes s))
    (structured_outcomes_test s) (custom_patch s) (custom_patch_description s).

(** Lines 52-219, the body of the [try]. *)
Definition uninstallBody (root : path) (skillName : string) (state : SystemState)
    (skillEntry : AppliedSkill) : M UninstallResult :=
  doCreateBackup ((λ f, root ++ f) <$> allTouchedFiles state);;
  let remainingSkills :=
    name <$> filter (λ s, name s ≠ skillName) (applied_skills state) in
  f ← getFS;
  match locateSkillDirs root remainingSkills ∅ f with
  | inl missing =>
    doRestoreBackup;; doClearBackup;;
    mret (failure skillName
            ("Cannot find skill package for " +:+ dq +:+ missing +:+ dq +:+
             " in .gemini/skills/. All remaining skills must be available for replay."))
  | inr dirsOf =>
    onFS (resetExclusive root skillName state skillEntry);;
    replayResult ← replaySkills E (mkReplayOptions remainingSkills dirsOf root);
    if negb (success replayResult) then
      doRestoreBackup;; doClearBackup;;
      mret (failure skillName
              ("Replay failed: " +:+ default "undefined" (error replayResult)))
    else
      reapplyCustom root state;;
      results ← runSkillTests skillName (applied_skills state) [];
      let testFailures := filter (λ r, snd r = false) results in
      match testFailures with
      | _ :: _ =>
        doRestoreBackup;; doClearBackup;;
        mret (mkUninstallResult false skillName None (Some results)
                (Some ("Tests failed after uninstall: " +:+
                       String.concat ", " (fst <$> testFailures))))
      | [] =>
        f ← getFS;
        writeState
          (mkSystemState (core_version state)
             (refreshHashes root f <$>
                filter (λ s, name s ≠ skillName) (applied_skills state))
             (rebased_at state) (custom_modifications state));;
        doClearBackup;;
        mret (mkUninstallResult true skillName None
                (match results with [] => None | _ => Some results end) None)
      end
  end.

Definition uninstallSkill (root : path) (skillName : string) : M UninstallResult :=
  state ← readState;
  if truthy (rebased_at state) then mret (failure skillName rebaseError)
  else
    match List.find (λ s, String.eqb (name s) skillName) (applied_skills state) with
    | None =>
      mret (failure skillName
              ("Skill " +:+ dq +:+ skillName +:+ dq +:+ " is not applied."))
    | Some skillEntry =>
      if truthy (custom_patch skillEntry) then
        mret (mkUninstallResult false skillName
                (Some ("Skill " +:+ dq +:+ skillName +:+ dq +:+ " has a custom patch (" +:+
                       default "no description" (custom_patch_description skillEntry) +:+
                       "). Uninstalling will lose these customizations. Re-run with confirmation to proceed."))
                None None)
      else
        acquireLock;;
        tryFinally
          (tryCatch (uninstallBody root skillName state skillEntry)
             (λ msg, doRestoreBackup;; doClearBackup;; mret (failure skillName msg)))
          releaseLock
    end.

End Uninstall.

(** ** A concrete installation

    A small project on which the definitions can be run: the helpers are
    given simple executable stand-ins, and the skills are those of the
    stop-on-conflict scenario of the test suite. *)

Definition demoRoot : path := ["proj"].
Definition configTs : path := ["src"; "config.ts"].
Definition newfileTs : path := ["src"; "newfile.ts"].

Definition demoSha256 (content : string) : string := "sha256:" +:+ content.

Definition demoHashes : FileInputHashes :=
  mkFileInputHashes (Some (demoSha256 "line1"))
                    (Some (demoSha256 "line1-from-skill-a"))
                    (Some (demoSha256 "line1-from-skill-b")).


Definition demoParseMeta (text : string) : option MetaDocument :=
  if String.eqb text "meta with input_hashes" then
    Some (Document (mkResolutionMeta (Some ∅) (Some {[ configTs := demoHashes ]})))
  else if String.eqb text "meta without input_hashes" then
    Some (Document (mkResolutionMeta None (Some {[ configTs := demoHashes ]})))
  else if String.eqb text "" then Some NullDocument
  else None.

Definition demoManifest (text : string) : Res Manifest :=
  if String.eqb text "skill-a" then Ok (mkManifest "skill-a" [] [configTs] [] None)
  else if String.eqb text "skill-b" then Ok (mkManifest "skill-b" [] [configTs] [] None)
  else if String.eqb text "skill-c" then
    Ok (mkManifest "skill-c" [["src"; "newfile.ts"]] [] []
          (Some (mkStructured (Some {[ "left-pad" := "1.3.0" ]}) None None)))
  else if String.eqb text "skill-d" then
    Ok (mkManifest "skill-d" [] [["src"; "missing.ts"]] [] None)
  else if String.eqb text "skill-e" then
    Ok (mkManifest "skill-e" [BASE_DIR ++ configTs; configTs] [] [] None)
  else Thrown "Invalid manifest".

Definition demoReadManifest (dir : path) (f : FS) : Res Manifest :=
  match files f !! (dir ++ ["manifest.yaml"]) with
  | Some text => demoManifest text
  | None => Thrown "Manifest not found"
  end.

(** A three-way merge that knows whole files only. *)
Definition demoMergeFile (ours base theirs : string) : Res (string * bool) :=
  if String.eqb ours base then Ok (theirs, true)
  else if String.eqb theirs base then Ok (ours, true)
  else if String.eqb ours theirs then Ok (ours, true)
  else Ok ("<<<<<<< " +:+ ours +:+ " ======= " +:+ theirs +:+ " >>>>>>>", false).

Definition demoBackupDir : path := demoRoot ++ [".nanoclaw"; "backup"].

Definition demoCreateBackup (filesToBackup : list path) (f : FS) : FS :=
  foldl (λ acc p, copyFileSync p (demoBackupDir ++ p) acc) f filesToBackup.

Definition demoRestoreBackup (f : FS) : FS :=
  foldl (λ acc p, if isBelow demoBackupDir p
                  then copyFileSync p (drop (length demoBackupDir) p) acc else acc)
        f (fst <$> map_to_list (files f)).

Definition demoClearBackup (f : FS) : FS :=
  foldl (λ acc p, if isBelow demoBackupDir p then unlinkSync p acc else acc)
        f (fst <$> map_to_list (files f)).

Definition demoExtern : Extern := {|
  sha256 := demoSha256;
  parseMeta := demoParseMeta;
  gitDir := λ root f,
    if dirExists (root ++ [".git"]) f then Some (root ++ [".git"]) else None;
  readManifest := demoReadManifest;
  resolvePathRemap := λ p, p;
  executeFileOps := λ _ _ f, ((true, []), f);
  mergeFile := demoMergeFile;
  isGitRepo := λ f, dirExists (demoRoot ++ [".git"]) f;
  setupRerereAdapter := λ _ _ _ _ f, (Ok tt, f);
  runRerere := λ _ f, (Ok false, f);
  gitAddAndRerere := λ _ f, (Ok tt, f);
  cleanupMergeState := λ _ f, (Ok tt, f);
  mergeNpmDependencies := λ _ _ f, (Ok tt, f);
  mergeEnvAdditions := λ _ _ f, (Ok tt, f);
  mergeDockerComposeServices := λ _ _ f, (Ok tt, f);
  runNpmInstall := λ f, (Thrown "npm install failed", f);
  createBackup := λ filesToBackup f, (Ok tt, demoCreateBackup filesToBackup f);
  restoreBackup := λ f, (Ok tt, demoRestoreBackup f);
  clearBackup := λ f, (Ok tt, demoClearBackup f);
  gitApply3way := λ _ f, (Ok tt, f);
  execTest := λ cmd f, if String.eqb cmd "exit 1" then (Thrown "Command failed", f) else (Ok tt, f)
|}.

Definition skillPackage (pkg : string) : path := demoRoot ++ [".gemini"; "skills"; pkg].

Definition writeAll (entries : list (path * string)) (f : FS) : FS :=
  foldl (λ acc e, writeFileSync (fst e) (snd e) acc) f entries.

(** The base holds [src/config.ts]; the working copy has drifted; the
    packages of the skills a to e are installed; there is no git repository. *)
Definition demoFS : FS :=
  writeAll
    [ (demoRoot ++ BASE_DIR ++ configTs, "line1");
      (demoRoot ++ configTs, "drifted");
      (skillPackage "a" ++ ["manifest.yaml"], "skill-a");
      (skillPackage "a" ++ ["modify"] ++ configTs, "line1-from-skill-a");
      (skillPackage "b" ++ ["manifest.yaml"], "skill-b");
      (skillPackage "b" ++ ["modify"] ++ configTs, "line1-from-skill-b");
      (skillPackage "c" ++ ["manifest.yaml"], "skill-c");
      (skillPackage "c" ++ ["add"; "src"; "newfile.ts"], "new file");
      (skillPackage "d" ++ ["manifest.yaml"], "skill-d");
      (skillPackage "e" ++ ["manifest.yaml"], "skill-e");
      (skillPackage "broken" ++ ["manifest.yaml"], "not a manifest") ]
    emptyFS.

Definition demoSkillDirs : gmap string path :=
  {[ "skill-a" := skillPackage "a"; "skill-b" := skillPackage "b";
     "skill-c" := skillPackage "c"; "skill-d" := skillPackage "d";
     "skill-e" := skillPackage "e"; "broken" := skillPackage "broken" ]}.

Definition demoState : SystemState :=
  mkSystemState "1.0.0"
    [ mkAppliedSkill "skill-a" "1.0.0" [(configTs, "abc")] None None None;
      mkAppliedSkill "skill-c" "1.0.0" [(["src"; "newfile.ts"], "def")] None None None ]
    None None.

Definition demoWorld : World := mkWorld demoFS demoState false [].

Definition demoOptions (names : list string) : ReplayOptions :=
  mkReplayOptions names demoSkillDirs demoRoot.

(** The same installation after a rebase. *)
Definition rebasedWorld : World :=
  mkWorld demoFS
    (mkSystemState "1.0.0" (applied_skills demoState) (Some "2026-01-01T00:00:00.000Z") None)
    false [].

(** An installation whose only skill carries a custom patch. *)
Definition patchedSkill : AppliedSkill :=
  mkAppliedSkill "skill-a" "1.0.0" [(configTs, "abc")] None
    (Some ".nanoclaw/custom/001.patch") (Some "My tweak").

Definition patchedWorld : World :=
  mkWorld demoFS (mkSystemState "1.0.0" [patchedSkill] None None) false [].

(** The skills a, b and c are applied; uninstalling c replays a and b, which
    conflict: the backup is restored and the state is kept. *)
Definition conflictWorld : World :=
  mkWorld demoFS
    (mkSystemState "1.0.0"
       [ mkAppliedSkill "skill-a" "1.0.0" [(configTs, "abc")] None None None;
         mkAppliedSkill "skill-b" "1.0.0" [(configTs, "ghi")] None None None;
         mkAppliedSkill "skill-c" "1.0.0" [(newfileTs, "def")] None None None ]
       None None)
    false [].






(** The resolution set of the skills a and b, shipped with the project: the
    pair for [src/config.ts] carries its sidecar token and the meta document
    records the hashes of its three inputs; the pair for [src/stale.ts] has
    no entry in the meta document. *)
Definition shippedDir : path := demoRoot ++ SHIPPED_RESOLUTIONS_DIR ++ ["skill-a+skill-b"].
Definition localDir : path := demoRoot ++ RESOLUTIONS_DIR ++ ["skill-a+skill-b"].

Definition resolutionFS (metaText : string) : FS :=
  writeAll
    [ (demoRoot ++ configTs, "line1-from-skill-a");
      (shippedDir ++ ["meta.yaml"], metaText);
      (shippedDir ++ ["src"; "config.ts.preimage"], "conflict markers");
      (shippedDir ++ ["src"; "config.ts.resolution"], "line1-from-both");
      (shippedDir ++ ["src"; "config.ts.preimage.hash"], " abc123 ");
      (shippedDir ++ ["src"; "stale.ts.preimage"], "old markers");
      (shippedDir ++ ["src"; "stale.ts.resolution"], "old resolution");
      (shippedDir ++ ["src"; "stale.ts.preimage.hash"], "def456");
      (localDir ++ ["meta.yaml"], metaText) ]
    demoFS.

(** The same files inside a git repository. *)
Definition gitFS (metaText : string) : FS :=
  mkdirSync (demoRoot ++ [".git"]) (resolutionFS metaText).

Definition configPair : PreimagePair :=
  mkPreimagePair configTs (shippedDir ++ ["src"; "config.ts.preimage"])
                 (shippedDir ++ ["src"; "config.ts.resolution"]).

Definition stalePair : PreimagePair :=
  mkPreimagePair ["src"; "stale.ts"] (shippedDir ++ ["src"; "stale.ts.preimage"])
                 (shippedDir ++ ["src"; "stale.ts.resolution"]).



(** ** The specification's reading of [loadResolutions] *)

Section ResolutionSpec.
Context (E : Extern) (meta : ResolutionMeta) (root dir rrCacheDir : path).

(** The three input files of the pair exist and the hashes that the meta
    document records for them are the SHA-256 of the actual files. *)
Definition inputsVerified (pr : PreimagePair) (f : FS) : Prop :=
  ∃ expected baseContent currentContent skillContent,
    meta_file_hashes meta ≫= (λ m, m !! relPath pr) = Some expected ∧
    files f !! (root ++ NANOCLAW_DIR ++ ["base"] ++ relPath pr) = Some baseContent ∧
    files f !! (root ++ relPath pr) = Some currentContent ∧
    files f !! (dir ++ ["modify"] ++ relPath pr) = Some skillContent ∧
    fh_base expected = Some (sha256 E baseContent) ∧
    fh_current expected = Some (sha256 E currentContent) ∧
    fh_skill expected = Some (sha256 E skillContent).

Definition sidecarOf (pr : PreimagePair) : path :=
  mapLast (λ n, n +:+ ".hash") (preimage pr).



(** The entry of the rr-cache named [token]: the directory of that name in
    the rr-cache, holding the two files [preimage] and [postimage]. *)
Definition rrEntry (token pre post : string) (f : FS) : FS :=
  writeFileSync (rrCacheDir ++ [token; "postimage"]) post
    (writeFileSync (rrCacheDir ++ [token; "preimage"]) pre
       (mkdirSync (rrCacheDir ++ [token]) f)).



End ResolutionSpec.


(** ** The prefix of a replay *)

Section ReplaySpec.
Context (E : Extern).

(** The skills [names] are applied in turn and none of them fails or leaves
    a conflict: the world reached, if so. *)
Fixpoint applyCleanly (options : ReplayOptions) (names : list string) (w : World)
    : option World :=
  match names with
  | [] => Some w
  | n :: rest =>
    match applySkillFiles E (projectRoot options) (skillDirs options !! n) w with
    | (Ok (Merged _ []), w') => applyCleanly options rest w'
    | _ => None
    end
  end.

(** The world in which the skill that follows [before] is applied: the
    collection found every directory, the touched files were reset, the
    resolutions were preloaded and the skills of [before] applied cleanly. *)
Definition worldBefore (options : ReplayOptions) (before : list string) (w : World)
    : option World :=
  match collectTouched E (skillDirs options) (skills options) [] (fs w) with
  | Ok (Touched touched) =>
    match preloadResolutions E options
            (setFS (resetTouched E (projectRoot options) touched (fs w)) w) with
    | (Ok _, w0) => applyCleanly options before w0
    | (Thrown _, _) => None
    end
  | _ => None
  end.

(** The skill [s] that follows [before] is the first whose application ends
    with unresolved merge conflicts: the conflicted paths, if so. *)
Definition conflictsAt (options : ReplayOptions) (before : list string) (s : string)
    (w : World) : option (list path) :=
  wi ← worldBefore options before w;
  match fst (applySkillFiles E (projectRoot options) (skillDirs options !! s) wi) with
  | Ok (Merged _ (conflict :: conflicts)) => Some (conflict :: conflicts)
  | _ => None
  end.

End ReplaySpec.

(** The entries of [perSkill] after the skills [names] succeeded. *)
Definition markSucceeded (names : list string) (m : gmap string SkillOutcome)
    : gmap string SkillOutcome :=
  foldl (λ acc n, <[n := succeeded]> acc) m names.

Definition conflictMessage (conflicts : list path) : string :=
  "Merge conflicts: " +:+ String.concat ", " (showPath <$> conflicts).

(** The events that [replaySkills] logs for the structured operations. *)
Definition isStructuredEvent (e : Event) : bool :=
  match e with
  | EvMergeNpmDependencies | EvMergeEnvAdditions
  | EvMergeDockerComposeServices | EvNpmInstall _ => true
  | _ => false
  end.

(** ** Relations between the worlds before and after a step *)

(** [preserves R m]: running [m] takes a world to a world related to it by
    [R].  The relations of interest are preorders that do not look at the
    files, so that they are preserved by every step that acts on the files
    only. *)
Definition preserves (R : relation World) {A} (m : M A) : Prop :=
  ∀ w, R w (snd (m w)).

(** The log is unchanged. *)
Definition sameLog : relation World := λ w w', log w' = log w.

(** The state document and the lock are unchanged and the events logged in
    between are those of the structured operations. *)
Definition replayFrame : relation World := λ w w',
  doc w' = doc w ∧ lockHeld w' = lockHeld w ∧
  ∃ evs, log w' = log w ++ evs ∧ Forall (λ e, isStructuredEvent e = true) evs.



(** ** [resolution-cache.ts]: saving and clearing resolutions *)

(** [fs.readdirSync(dir)]: the names of the entries of a directory, each
    once, sorted by their bytes. *)
Definition childNames (dir : path) (fs : FS) : list string :=
  merge_sort String.le
    (remove_dups
       (omap (λ p, if isBelow dir p then p !! length dir else None)
             ((fst <$> map_to_list (files fs)) ++ elements (dirs fs)))).

Definition readdirSync (dir : path) (fs : FS) : Res (list string) :=
  if dirExists dir fs then Ok (childNames dir fs)
  else if fileExists dir fs then Thrown "ENOTDIR: not a directory"
  else Thrown "ENOENT: no such file or directory".

(** The loop of [findRerereHash], lines 287-296: the first entry, in the
    order of [readdirSync], that is a directory and whose [preimage] is the
    content looked for.  [existsSync(preimagePath)] also holds of a
    directory, which [readFileSync] then refuses. *)
Fixpoint scanEntries (rrCacheDir : path) (preimageContent : string)
    (entries : list string) (fs : FS) : Res (option string) :=
  match entries with
  | [] => Ok None
  | entryName :: rest =>
    if negb (dirExists (rrCacheDir ++ [entryName]) fs)
    then scanEntries rrCacheDir preimageContent rest fs
    else
      let preimagePath := rrCacheDir ++ [entryName; "preimage"] in
      match files fs !! preimagePath with
      | Some content =>
        if String.eqb content preimageContent then Ok (Some entryName)
        else scanEntries rrCacheDir preimageContent rest fs
      | None =>
        if dirExists preimagePath fs
        then Thrown "EISDIR: illegal operation on a directory, read"
        else scanEntries rrCacheDir preimageContent rest fs
      end
  end.

Definition findRerereHash (rrCacheDir : path) (preimageContent : string) (fs : FS)
    : Res (option string) :=
  if negb (existsSync rrCacheDir fs) then Ok None
  else
    match readdirSync rrCacheDir fs with
    | Thrown msg => Thrown msg
    | Ok entries => scanEntries rrCacheDir preimageContent entries fs
    end.

(** An element of the argument [files] of [saveResolution]. *)
Record SavedFile := mkSavedFile {
  saved_relPath : path;
  saved_preimage : string;
  saved_resolution : string;
  inputHashes : FileInputHashes
}.

(** The argument [meta] of [saveResolution], a [Partial<ResolutionMeta>]:
    the fields that [saveResolution] reads. *)
Record PartialMeta := mkPartialMeta {
  pm_apply_order : option (list string);
  pm_core_version : option string;
  pm_resolved_at : option string;
  pm_tested : option bool;
  pm_test_passed : option bool;
  pm_resolution_source : option string;
  pm_input_hashes : option (gmap string string);
  pm_output_hash : option string;
  pm_file_hashes : option (gmap path FileInputHashes)
}.

(** The document [fullMeta] that [saveResolution] builds and writes. *)
Record FullMeta := mkFullMeta {
  fm_skills : list string;
  fm_apply_order : list string;
  fm_core_version : string;
  fm_resolved_at : string;
  fm_tested : bool;
  fm_test_passed : bool;
  fm_resolution_source : string;
  fm_input_hashes : gmap string string;
  fm_output_hash : string;
  fm_file_hashes : gmap path FileInputHashes
}.


(** [relPath + ext] for a relative path given by its segments: the extension
    joins the last segment; the empty path gives the bare extension. *)
Definition addExt (ext : string) (rel : path) : path :=
  match rel with
  | [] => [ext]
  | _ => mapLast (λ n, n +:+ ext) rel
  end.

(** Lines 211-215: a later file replaces the hashes of an earlier one with
    the same relative path. *)
Definition fileHashesOf (savedFiles : list SavedFile) : gmap path FileInputHashes :=
  foldl (λ acc file, <[saved_relPath file := inputHashes file]> acc) ∅ savedFiles.

Section SaveResolution.
Context (E : Extern).
(** [stringify] of the yaml library, and the time of the call. *)
Context (stringify : FullMeta → string) (now : string).

(** Lines 201-208: the hash under which rerere recorded the preimage is
    written beside it. *)
Definition captureHash (rrCacheDir : option path) (preimagePath : path)
    (preimageContent : string) (fs : FS) : Res unit * FS :=
  match rrCacheDir with
  | Some rr =>
    if existsSync rr fs then
      match findRerereHash rr preimageContent fs with
      | Thrown msg => (Thrown msg, fs)
      | Ok (Some rerereHash) =>
        if String.eqb rerereHash "" then (Ok tt, fs)
        else (Ok tt, writeFileSync (mapLast (λ n, n +:+ ".hash") preimagePath) rerereHash fs)
      | Ok None => (Ok tt, fs)
      end
    else (Ok tt, fs)
  | None => (Ok tt, fs)
  end.

(** The body of the loop of lines 193-209. *)
Definition saveFile (resDir : path) (rrCacheDir : option path) (file : SavedFile) (fs : FS)
    : Res unit * FS :=
  let preimagePath := resDir ++ addExt ".preimage" (saved_relPath file) in
  let resolutionPath := resDir ++ addExt ".resolution" (saved_relPath file) in
  captureHash rrCacheDir preimagePath (saved_preimage file)
    (writeFileSync resolutionPath (saved_resolution file)
       (writeFileSync preimagePath (saved_preimage file)
          (mkdirSync (dirname preimagePath) fs))).

Fixpoint saveFiles (resDir : path) (rrCacheDir : option path) (savedFiles : list SavedFile)
    (fs : FS) : Res unit * FS :=
  match savedFiles with
  | [] => (Ok tt, fs)
  | file :: rest =>
    match saveFile resDir rrCacheDir file fs with
    | (Ok _, fs') => saveFiles resDir rrCacheDir rest fs'
    | (Thrown msg, fs') => (Thrown msg, fs')
    end
  end.

(** Lines 217-229. *)
Definition fullMetaOf (skillNames : list string) (savedFiles : list SavedFile)
    (meta : PartialMeta) : FullMeta :=
  mkFullMeta
    (sortStrings skillNames)
    (default skillNames (pm_apply_order meta))
    (default "" (pm_core_version meta))
    (default now (pm_resolved_at meta))
    (default false (pm_tested meta))
    (default false (pm_test_passed meta))
    (default "user" (pm_resolution_source meta))
    (default ∅ (pm_input_hashes meta))
    (default "" (pm_output_hash meta))
    (default ∅ (pm_file_hashes meta) ∪ fileHashesOf savedFiles).

(** [saveResolution].  The last [writeFileSync] is the only write that no
    [mkdirSync] precedes: it fails when the directory of the skill set does
    not exist, which is the case when there is no file to save. *)
Definition saveResolution (skillNames : list string) (savedFiles : list SavedFile)
    (meta : PartialMeta) (root : path) (fs : FS) : Res unit * FS :=
  let key := resolutionKey skillNames in
  let resDir := root ++ RESOLUTIONS_DIR ++ segment key in
  let rrCacheDir := (λ gitDirectory, gitDirectory ++ ["rr-cache"]) <$> gitDir E root fs in
  match saveFiles resDir rrCacheDir savedFiles fs with
  | (Thrown msg, fs') => (Thrown msg, fs')
  | (Ok _, fs') =>
    if dirExists resDir fs' then
      (Ok tt, writeFileSync (resDir ++ ["meta.yaml"])
                (stringify (fullMetaOf skillNames savedFiles meta)) fs')
    else (Thrown "ENOENT: no such file or directory", fs')
  end.

End SaveResolution.

(** [fs.rmSync(d, { recursive: true, force: true })]: the directory goes
    with everything below it. *)
Definition rmSync (d : path) (fs : FS) : FS :=
  mkFS (filter (λ entry, take (length d) (fst entry) ≠ d) (files fs))
       (filter (λ p, take (length d) p ≠ d) (dirs fs)).

Definition clearAllResolutions (root : path) (fs : FS) : FS :=
  let resDir := root ++ RESOLUTIONS_DIR in
  if existsSync resDir fs then mkdirSync resDir (rmSync resDir fs) else fs.

(** ** [scripts/generate-ci-matrix.ts] *)

Record MatrixEntry := mkMatrixEntry {
  matrix_skills : list string;
  reason : string
}.

Record SkillOverlapInfo := mkSkillOverlapInfo {
  overlap_name : string;
  overlap_modifies : list path;
  npmDependencies : list string
}.

(** [dirName] is the name of the directory of the skill, by which the
    matrix refers to it. *)
Definition extractOverlapInfo (manifest : Manifest) (dirName : string) : SkillOverlapInfo :=
  mkSkillOverlapInfo dirName (modifies manifest)
    (match structured manifest ≫= npm_dependencies with
     | Some deps => fst <$> map_to_list deps
     | None => []
     end).

(** Lines 53-67: the reasons for which two skills overlap. *)
Definition overlapReasons (a b : SkillOverlapInfo) : list string :=
  let sharedModifies := filter (λ m, m ∈ overlap_modifies b) (overlap_modifies a) in
  let sharedNpm := filter (λ pkg, pkg ∈ npmDependencies b) (npmDependencies a) in
  (match sharedModifies with
   | [] => []
   | _ => ["shared modifies: " +:+ String.concat ", " (showPath <$> sharedModifies)]
   end) ++
  (match sharedNpm with
   | [] => []
   | _ => ["shared npm packages: " +:+ String.concat ", " sharedNpm]
   end).

(** Lines 69-74: the entry pushed for a pair of skills, if any. *)
Definition overlapEntry (a b : SkillOverlapInfo) : option MatrixEntry :=
  match overlapReasons a b with
  | [] => None
  | reasons =>
    Some (mkMatrixEntry [overlap_name a; overlap_name b] (String.concat "; " reasons))
  end.

(** The two nested loops: each skill with each skill after it. *)
Fixpoint computeOverlapMatrix (skillInfos : list SkillOverlapInfo) : list MatrixEntry :=
  match skillInfos with
  | [] => []
  | a :: rest => omap (overlapEntry a) rest ++ computeOverlapMatrix rest
  end.

Section GenerateMatrix.
(** [parse] of the yaml library on the text of a manifest; it may throw. *)
Context (parseManifest : string → Res Manifest).

(** The loop of [readAllManifests] over the entries of the directory. *)
Fixpoint readManifests (skillsDir : path) (entries : list string) (fs : FS)
    : Res (list (Manifest * string)) :=
  match entries with
  | [] => Ok []
  | entryName :: rest =>
    if negb (dirExists (skillsDir ++ [entryName]) fs) then readManifests skillsDir rest fs
    else
      match files fs !! (skillsDir ++ [entryName; "manifest.yaml"]) with
      | None => readManifests skillsDir rest fs
      | Some content =>
        match parseManifest content with
        | Thrown msg => Thrown msg
        | Ok manifest =>
          match readManifests skillsDir rest fs with
          | Thrown msg => Thrown msg
          | Ok results => Ok ((manifest, entryName) :: results)
          end
        end
      end
  end.

Definition readAllManifests (skillsDir : path) (fs : FS) : Res (list (Manifest * string)) :=
  if negb (existsSync skillsDir fs) then Ok []
  else
    match readdirSync skillsDir fs with
    | Thrown msg => Thrown msg
    | Ok entries => readManifests skillsDir entries fs
    end.

Definition generateMatrix (skillsDir : path) (fs : FS) : Res (list MatrixEntry) :=
  match readAllManifests skillsDir fs with
  | Thrown msg => Thrown msg
  | Ok entries =>
    Ok (computeOverlapMatrix ((λ e, extractOverlapInfo (fst e) (snd e)) <$> entries))
  end.

End GenerateMatrix.

(** ** Further notions used by the properties *)

Section ReplayOutcome.
Context (E : Extern).

(** What applying the skill [s] that follows [before] ends with, when the
    skills of [before] applied cleanly. *)
Definition appliedAt (options : ReplayOptions) (before : list string) (s : string)
    (w : World) : option (Res Applied) :=
  wi ← worldBefore E options before w;
  Some (fst (applySkillFiles E (projectRoot options) (skillDirs options !! s) wi)).

End ReplayOutcome.

(** The entries of [perSkill] when the loop is left at the skill [s] that
    follows [before]. *)
Definition failedAt (names : list string) (perSkill0 perSkill : gmap string SkillOutcome)
    : Prop :=
  ∃ before s after msg,
    names = before ++ s :: after ∧
    perSkill = <[s := failed msg]> (markSucceeded before perSkill0).

(** A skill whose test command [uninstallSkill] runs when it removes
    [skillName]: it is another skill and it has a test command. *)
Definition tested (skillName : string) (applied : list AppliedSkill) (k : string) : Prop :=
  k ≠ skillName ∧
  ∃ s, s ∈ applied ∧ name s = k ∧ truthy (structured_outcomes_test s) = true.

Definition isBackupCreation (e : Event) : bool :=
  match e with EvCreateBackup _ => true | _ => false end.

(** The events logged in between are not creations of a backup. *)
Definition noBackupFrame : relation World := λ w w',
  ∃ evs, log w' = log w ++ evs ∧ Forall (λ e, isBackupCreation e = false) evs.

(** [f'] comes from [f] by writing files below the directory [d] and by
    creating directories on the way to [d] or below it. *)
Definition grownBelow (d : path) (f f' : FS) : Prop :=
  (∀ p, ¬ d `prefix_of` p → files f' !! p = files f !! p) ∧
  (∀ p, is_Some (files f !! p) → is_Some (files f' !! p)) ∧
  (∀ q, q ∈ dirs f → q ∈ dirs f') ∧
  (∀ q, q ∈ dirs f' → q ∈ dirs f ∨ q `prefix_of` d ∨ d `prefix_of` q).

(** Two skills overlap when they modify a common file or depend on a common
    npm package. *)
Definition overlap (a b : SkillOverlapInfo) : Prop :=
  (∃ m, m ∈ overlap_modifies a ∧ m ∈ overlap_modifies b) ∨
  (∃ pkg, pkg ∈ npmDependencies a ∧ pkg ∈ npmDependencies b).

(** ** Further installations *)

(** The same helpers, except that the merge tool cannot be run. *)
Definition mergeThrowingExtern : Extern :=
  mkExtern (sha256 demoExtern) (parseMeta demoExtern) (gitDir demoExtern)
    (readManifest demoExtern) (resolvePathRemap demoExtern) (executeFileOps demoExtern)
    (λ _ _ _, Thrown "git merge-file: command not found")
    (isGitRepo demoExtern) (setupRerereAdapter demoExtern)
    (runRerere demoExtern) (gitAddAndRerere demoExtern) (cleanupMergeState demoExtern)
    (mergeNpmDependencies demoExtern)
    (mergeEnvAdditions demoExtern) (mergeDockerComposeServices demoExtern)
    (runNpmInstall demoExtern) (createBackup demoExtern) (restoreBackup demoExtern)
    (clearBackup demoExtern) (gitApply3way demoExtern) (execTest demoExtern).

(** The skill f comes with a file operation, and the file operations fail. *)
Definition fileOpsManifest : Manifest :=
  mkManifest "skill-f" [newfileTs] [] ["delete src/legacy.ts"] None.

Definition fileOpsExtern : Extern :=
  mkExtern (sha256 demoExtern) (parseMeta demoExtern) (gitDir demoExtern)
    (λ dir f, if decide (dir = skillPackage "f") then Ok fileOpsManifest
              else demoReadManifest dir f)
    (resolvePathRemap demoExtern)
    (λ _ _ f, ((false, ["delete: src/legacy.ts not found"; "aborted"]), f))
    (mergeFile demoExtern) (isGitRepo demoExtern) (setupRerereAdapter demoExtern)
    (runRerere demoExtern) (gitAddAndRerere demoExtern) (cleanupMergeState demoExtern)
    (mergeNpmDependencies demoExtern)
    (mergeEnvAdditions demoExtern) (mergeDockerComposeServices demoExtern)
    (runNpmInstall demoExtern) (createBackup demoExtern) (restoreBackup demoExtern)
    (clearBackup demoExtern) (gitApply3way demoExtern) (execTest demoExtern).

Definition fileOpsOptions : ReplayOptions :=
  mkReplayOptions ["skill-a"; "skill-f"; "skill-c"]
    (<["skill-f" := skillPackage "f"]> demoSkillDirs) demoRoot.

(** An installation in which the package of an applied skill has been
    removed from [.gemini/skills]. *)
Definition orphanWorld : World :=
  mkWorld demoFS
    (mkSystemState "1.0.0"
       [ mkAppliedSkill "skill-a" "1.0.0" [(configTs, "abc")] None None None;
         mkAppliedSkill "skill-z" "0.3.0" [(newfileTs, "def")] None None None ]
       None None)
    false [].

(** An installation whose skills come with a test command. *)
Definition testedWorld (commandOfA : string) : World :=
  mkWorld demoFS
    (mkSystemState "1.0.0"
       [ mkAppliedSkill "skill-a" "1.0.0" [(configTs, "abc")] (Some commandOfA) None None;
         mkAppliedSkill "skill-c" "1.0.0" [(newfileTs, "def")] (Some "exit 1") None None ]
       None None)
    false [].

(** A yaml writer that knows one document, the one [demoParseMeta] reads. *)
Definition demoStringify (m : FullMeta) : string := "meta with input_hashes".

Definition noMeta : PartialMeta :=
  mkPartialMeta None None None None None None None None None.

Definition demoSavedFile : SavedFile :=
  mkSavedFile configTs "conflict markers" "line1-from-both" demoHashes.

(** The demo project after the resolution of the skills a and b was saved
    in it, outside a git repository. *)
Definition savedFS : FS :=
  snd (saveResolution demoExtern demoStringify "2026-01-01T00:00:00.000Z"
         ["skill-b"; "skill-a"] [demoSavedFile] noMeta demoRoot demoFS).

(** A yaml reader that knows the manifests of the demo skills. *)
Definition demoParseManifest (content : string) : Res Manifest := demoManifest content.

(** Three skill packages and a stray file under [.gemini/skills]: the
    skills a and b modify the same file. *)
Definition matrixFS : FS :=
  writeAll
    [ (skillPackage "a" ++ ["manifest.yaml"], "skill-a");
      (skillPackage "b" ++ ["manifest.yaml"], "skill-b");
      (skillPackage "c" ++ ["manifest.yaml"], "skill-c");
      (skillPackage "notes.txt", "not a package") ]
    emptyFS.



(** * Properties *)

(** ** Files *)

Lemma files_mkdirSync d f : files (mkdirSync d f) = files f.
Proof. reflexivity. Qed.

Lemma files_writeFileSync p c f : files (writeFileSync p c f) = <[p := c]> (files f).
Proof. reflexivity. Qed.

Lemma lookup_writeFileSync_ne p q c f :
  p ≠ q → files (writeFileSync p c f) !! q = files f !! q.
Proof. intros Hne. rewrite files_writeFileSync. by apply lookup_insert_ne. Qed.



Lemma lookup_seedCache_is_Some rrCacheDir hash pre post f q :
  is_Some (files f !! q) → is_Some (files (seedCache rrCacheDir hash pre post f) !! q).
Proof.
  intros Hq. unfold seedCache. rewrite !files_writeFileSync, files_mkdirSync.
  rewrite !lookup_insert_is_Some'. auto.
Qed.

(** ** Strings: suffixes *)

Lemma substring_all (s : string) : String.substring 0 (String.length s) s = s.
Proof. induction s as [| c s IH]; simpl; [done | by rewrite IH]. Qed.

Lemma substring_split (s : string) (m : nat) :
  m ≤ String.length s →
  String.substring 0 m s +:+ String.substring m (String.length s - m) s = s.
Proof.
  revert m. induction s as [| c s IH]; intros m Hm; simpl in *.
  { by destruct m. }
  destruct m as [| m]; simpl.
  - by rewrite substring_all.
  - etrans; [| apply (f_equal (String c)), (IH m); lia]. reflexivity.
Qed.






Lemma endsWith_dropSuffix (s suffix : string) :
  endsWith s suffix = true → dropSuffix suffix s +:+ suffix = s.
Proof.
  intros Hends. unfold dropSuffix. rewrite Hends.
  unfold endsWith in Hends. apply andb_true_iff in Hends as [Hle Heq].
  apply Nat.leb_le in Hle. apply String.eqb_eq in Heq.
  set (m := String.length s - String.length suffix) in *.
  rewrite <- Heq.
  replace (String.length suffix) with (String.length s - m) by lia.
  apply substring_split. lia.
Qed.

(** ** Paths: the last segment *)

Lemma mapLast_app (f : string → string) (l : path) (n : string) :
  mapLast f (l ++ [n]) = l ++ [f n].
Proof.
  unfold mapLast. rewrite reverse_app. simpl.
  by rewrite reverse_cons, reverse_involutive.
Qed.

Lemma mapLast_nil (f : string → string) : mapLast f [] = [].
Proof. done. Qed.

Lemma basename_app (l : path) (n : string) : basename (l ++ [n]) = n.
Proof. unfold basename. by rewrite last_last. Qed.

Lemma path_snoc (p : path) : p ≠ [] → ∃ l n, p = l ++ [n].
Proof.
  intros Hne. destruct (exists_last Hne) as (l & n & ->). by exists l, n.
Qed.

Lemma isBelow_spec (dir p : path) :
  isBelow dir p = true ↔ ∃ rest, rest ≠ [] ∧ p = dir ++ rest.
Proof.
  unfold isBelow. rewrite andb_true_iff, bool_decide_eq_true, Nat.ltb_lt. split.
  - intros [Htake Hlen]. exists (drop (length dir) p). split.
    + intros Hnil. apply (f_equal length) in Hnil. rewrite length_drop in Hnil.
      simpl in Hnil. lia.
    + by rewrite <- Htake at 1; rewrite take_drop.
  - intros (rest & Hne & ->). split.
    + by rewrite take_app_length.
    + rewrite length_app. destruct rest; [done | simpl; lia].
Qed.

(** ** Strings: the last character *)

Lemma append_assoc (a b c : string) : (a +:+ b) +:+ c = a +:+ (b +:+ c).
Proof.
  induction a as [| x a IH]; [done |].
  etrans; [| apply (f_equal (String x)), IH]. reflexivity.
Qed.

Lemma append_last_inj (a b : string) (c c' : ascii) :
  a +:+ String c "" = b +:+ String c' "" → c = c'.
Proof.
  revert b. induction a as [| x a IH]; intros [| y b]; simpl; intros Heq.
  - by injection Heq.
  - injection Heq as _ Heq. by destruct b.
  - injection Heq as _ Heq. by destruct a.
  - injection Heq as _ Heq. by apply (IH b).
Qed.




(** ** Directories *)

Lemma dirExists_spec (p : path) (f : FS) :
  dirExists p f = true ↔
  p ∈ dirs f ∨ ∃ q, is_Some (files f !! q) ∧ isBelow p q = true.
Proof.
  unfold dirExists. rewrite orb_true_iff, bool_decide_eq_true, existsb_exists.
  split; (intros [Hdir | Hfile]; [by left | right]).
  - destruct Hfile as (q & Hq & Hbelow). exists q. split; [| done].
    apply list_elem_of_In, list_elem_of_fmap in Hq as ([q' c] & -> & Hq).
    apply elem_of_map_to_list in Hq. by exists c.
  - destruct Hfile as (q & [c Hq] & Hbelow). exists q. split; [| done].
    apply list_elem_of_In, list_elem_of_fmap. exists (q, c). split; [done |].
    by apply elem_of_map_to_list.
Qed.

(** ** The resolution key and the directory of a skill set *)

Lemma codeUnitRank_involutive (c : ascii) : codeUnitRank (codeUnitRank c) = c.
Proof. by destruct c as [[] [] [] [] [] [] [] []]. Qed.

Lemma rankString_involutive (s : string) : rankString (rankString s) = s.
Proof.
  induction s as [| c s IH]; simpl; [done |]. by rewrite codeUnitRank_involutive, IH.
Qed.

#[global] Instance codeUnitLe_po : PartialOrder codeUnitLe.
Proof.
  unfold codeUnitLe. split; [split |].
  - intros a. reflexivity.
  - intros a b c. apply transitivity.
  - intros a b Hab Hba.
    rewrite <- (rankString_involutive a), <- (rankString_involutive b).
    f_equal. by apply (anti_symm String.le).
Qed.

#[global] Instance codeUnitLe_total : Total codeUnitLe.
Proof. intros a b. unfold codeUnitLe. apply total, _. Qed.

Lemma resolutionKey_permutation (l1 l2 : list string) :
  l1 ≡ₚ l2 → resolutionKey l1 = resolutionKey l2.
Proof.
  intros Hperm. unfold resolutionKey, sortStrings. f_equal.
  apply (Sorted_unique codeUnitLe).
  - apply Sorted_merge_sort, _.
  - apply Sorted_merge_sort, _.
  - by rewrite !merge_sort_Permutation.
Qed.

(** C8. For a skill set, however its names are listed, [findResolutionDir]
    returns the maintainer-shipped directory of the set's sorted, +-joined key
    (under .gemini/resolutions) whenever that directory exists, also when a
    locally generated one (under .nanoclaw/resolutions) exists as well; it
    returns the local directory only when no shipped one exists, and nothing
    when neither exists. *)
Theorem findResolutionDir_shipped_first
    (skillSet listed : list string) (root : path) (f : FS) :
  listed ≡ₚ skillSet →
  let key := resolutionKey skillSet in
  let shipped := root ++ SHIPPED_RESOLUTIONS_DIR ++ segment key in
  let generated := root ++ RESOLUTIONS_DIR ++ segment key in
  findResolutionDir listed root f =
    if existsSync shipped f then Some shipped
    else if existsSync generated f then Some generated
    else None.
Proof.
  intros Hperm. cbv zeta. unfold findResolutionDir.
  rewrite (resolutionKey_permutation _ _ Hperm). reflexivity.
Qed.

Lemma findResolutionDir_shipped_first_witness :
  findResolutionDir ["skill-b"; "skill-a"] demoRoot (resolutionFS "meta with input_hashes")
  = Some shippedDir
  ∧ existsSync localDir (resolutionFS "meta with input_hashes") = true.
Proof.
  split; [| by vm_compute].
  rewrite (findResolutionDir_shipped_first ["skill-a"; "skill-b"]).
  - by vm_compute.
  - apply perm_swap.
Defined.

Lemma elem_of_filesInOrder (p : path) (f : FS) :
  p ∈ filesInOrder f ↔ is_Some (files f !! p).
Proof.
  unfold filesInOrder. rewrite merge_sort_Permutation, list_elem_of_fmap. split.
  - intros ([q c] & -> & Hq). apply elem_of_map_to_list in Hq. by exists c.
  - intros [c Hp]. exists (p, c). split; [done |]. by apply elem_of_map_to_list.
Qed.


(** ** [path.join] *)

Lemma splitOn_plain (sep : ascii) (s : string) : hasChar sep s = false → splitOn sep s = [s].
Proof.
  induction s as [| c s IH]; simpl; [done |].
  intros Hno. apply orb_false_iff in Hno as [Hc Hs]. by rewrite Hc, (IH Hs).
Qed.

(** Joining a directory with the name of an entry appends the name. *)
Lemma pathJoin_plain (dir : path) (s : string) :
  plainName s = true → pathJoin dir s = dir ++ [s].
Proof.
  unfold plainName, pathJoin. rewrite !andb_true_iff, !negb_true_iff.
  intros [[[H1 H2] H3] H4]. rewrite (splitOn_plain _ _ H4). simpl.
  unfold joinSegment. by rewrite H1, H2, H3.
Qed.

(** ** Loading the resolution cache *)

Lemma fileExists_is_Some p f : fileExists p f = true ↔ is_Some (files f !! p).
Proof.
  unfold fileExists. destruct (files f !! p); split; intros H; try done.
Qed.


(** Every pair that [findPreimagePairs] reports has its preimage, and
    something stands where its resolution is expected. *)
Lemma findPreimagePairs_files dir baseDir f pr :
  pr ∈ findPreimagePairs dir baseDir f →
  is_Some (files f !! preimage pr) ∧ existsSync (resolution pr) f = true.
Proof.
  unfold findPreimagePairs. rewrite list_elem_of_omap.
  intros (p & Hp & Hpr).
  destruct (isBelow dir p); [| done].
  unfold pairOfEntry in Hpr.
  destruct (isPreimageName (basename p)); [| done].
  destruct (existsSync _ f) eqn:Hres; [| done].
  injection Hpr as <-. simpl. split; [| done].
  by apply elem_of_filesInOrder.
Qed.

(** Seeding writes two files, named [preimage] and [postimage]. *)
Lemma lookup_seedCache_other rrCacheDir hash pre post f q :
  basename q ≠ "preimage" → basename q ≠ "postimage" →
  files (seedCache rrCacheDir hash pre post f) !! q = files f !! q.
Proof.
  intros Hpre Hpost. unfold seedCache.
  rewrite !lookup_writeFileSync_ne, files_mkdirSync; [done | |];
    intros <-; by rewrite basename_app in *.
Qed.

Lemma basename_sidecar (p : path) :
  basename (mapLast (λ n, n +:+ ".hash") p) ≠ "preimage" ∧
  basename (mapLast (λ n, n +:+ ".hash") p) ≠ "postimage".
Proof.
  destruct p as [| n l _] using rev_ind; [done |].
  rewrite mapLast_app, basename_app.
  change (n +:+ ".hash") with (n +:+ (".has" +:+ "h")). rewrite <- append_assoc.
  split; intros Heq.
  - change "preimage" with ("preimag" +:+ "e") in Heq. by apply append_last_inj in Heq.
  - change "postimage" with ("postimag" +:+ "e") in Heq. by apply append_last_inj in Heq.
Qed.

Section LoadProofs.
Context (E : Extern) (meta : ResolutionMeta) (root dir rrCacheDir : path).

Lemma hashDiffers_false content expected :
  hashDiffers E content expected = false ↔ expected = Some (sha256 E content).
Proof.
  unfold hashDiffers. rewrite negb_false_iff, bool_decide_eq_true. done.
Qed.

(** Under the name of an entry, [seedCache] writes the entry of the
    rr-cache. *)
Lemma seedCache_plain token pre post f :
  plainName token = true →
  seedCache rrCacheDir token pre post f = rrEntry rrCacheDir token pre post f.
Proof.
  intros Hplain. unfold seedCache, rrEntry. rewrite (pathJoin_plain _ _ Hplain).
  by rewrite <- !app_assoc.
Qed.

Lemma expectedHashes_recorded rel expected :
  meta_file_hashes meta ≫= (λ m, m !! rel) = Some expected →
  expectedHashes meta rel = Some expected.
Proof.
  unfold expectedHashes. destruct (meta_file_hashes meta) as [m |]; simpl; [| done].
  by intros ->.
Qed.



(** A pair whose inputs are verified and whose resolution is a directory
    makes the loop throw. *)
Lemma checkPair_directory pr f :
  inputsVerified E meta root dir pr f →
  is_Some (files f !! preimage pr) → files f !! resolution pr = None →
  checkPair E meta root (Some dir) pr f
  = Thrown "EISDIR: illegal operation on a directory, read".
Proof.
  intros (expected & b & c & s & Hexp & Hb & Hc & Hs & Hhb & Hhc & Hhs) [pre Hpre] Hres.
  unfold checkPair. rewrite (expectedHashes_recorded _ _ Hexp), Hb, Hc, Hs.
  apply hashDiffers_false in Hhb, Hhc, Hhs. by rewrite Hhb, Hhc, Hhs, Hpre, Hres.
Qed.



End LoadProofs.






Lemma demoParseMeta_not_null :
  parseMeta demoExtern "meta with input_hashes" ≠ Some NullDocument.
Proof. discriminate. Qed.







(** ** Running the monad *)

Lemma run_bind {A B} (m : M A) (k : A → M B) (w : World) :
  (m ≫= k) w = match m w with
               | (Ok a, w') => k a w'
               | (Thrown msg, w') => (Thrown msg, w')
               end.
Proof. reflexivity. Qed.

Lemma run_ret {A} (a : A) (w : World) : mret (M := M) a w = (Ok a, w).
Proof. reflexivity. Qed.

(** ** The collection step of a replay *)

Lemma elem_of_foldl_addTouched (l acc : list path) (p : path) :
  p ∈ foldl addTouched acc l ↔ p ∈ acc ∨ p ∈ l.
Proof.
  revert acc. induction l as [| x l IH]; intros acc; simpl.
  { rewrite elem_of_nil. tauto. }
  rewrite IH, elem_of_cons. unfold addTouched.
  destruct (decide (x ∈ acc)) as [Hin | Hnotin].
  - split; [tauto |]. intros [? | [-> | ?]]; tauto.
  - rewrite elem_of_app, list_elem_of_singleton. tauto.
Qed.

Lemma member_Own {A} (obj : gmap string A) (key : string) (value : A) :
  member obj key = Own value ↔ obj !! key = Some value.
Proof.
  unfold member. destruct (obj !! key) as [v |].
  - split; congruence.
  - by destruct (inheritedMember key).
Qed.

Lemma member_Absent {A} (obj : gmap string A) (key : string) :
  member obj key = Absent ↔ obj !! key = None ∧ inheritedMember key = false.
Proof.
  unfold member. destruct (obj !! key) as [v |].
  - split; [done | by intros [? _]].
  - destruct (inheritedMember key); split; try done. by intros [_ ?].
Qed.

Section CollectProofs.
Context (E : Extern).

(** A skill without a directory ends the collection, provided the
    collection reaches it. *)
Lemma collectTouched_missing dirsOf before s after acc f :
  dirsOf !! s = None → inheritedMember s = false →
  (∀ n, n ∈ before → ∃ d m, dirsOf !! n = Some d ∧ readManifest E d f = Ok m) →
  collectTouched E dirsOf (before ++ s :: after) acc f = Ok (MissingDir s).
Proof.
  intros Hmissing Hname. revert acc.
  induction before as [| n before IH]; intros acc Hbefore; simpl.
  { by rewrite (proj2 (member_Absent dirsOf s) (conj Hmissing Hname)). }
  destruct (Hbefore n) as (d & m & Hd & Hm); [apply elem_of_cons; by left |].
  rewrite (proj2 (member_Own dirsOf n d) Hd), Hm.
  apply IH. intros n' Hin. apply Hbefore, elem_of_cons. by right.
Qed.

(** The name of an inherited member makes the collection throw, provided the
    collection reaches it. *)
Lemma collectTouched_inherited dirsOf before s after acc f :
  dirsOf !! s = None → inheritedMember s = true →
  (∀ n, n ∈ before → ∃ d m, dirsOf !! n = Some d ∧ readManifest E d f = Ok m) →
  collectTouched E dirsOf (before ++ s :: after) acc f
  = Thrown "The path argument must be of type string. Received function".
Proof.
  intros Hmissing Hname. revert acc.
  induction before as [| n before IH]; intros acc Hbefore; simpl.
  { unfold member. by rewrite Hmissing, Hname. }
  destruct (Hbefore n) as (d & m & Hd & Hm); [apply elem_of_cons; by left |].
  rewrite (proj2 (member_Own dirsOf n d) Hd), Hm.
  apply IH. intros n' Hin. apply Hbefore, elem_of_cons. by right.
Qed.


Lemma replaySkills_missing options w s :
  collectTouched E (skillDirs options) (skills options) [] (fs w) = Ok (MissingDir s) →
  replaySkills E options w =
    (Ok (mkReplayResult false
           {[ s := failed ("Skill directory not found for: " +:+ s) ]}
           None (Some ("Missing skill directory for: " +:+ s))), w).
Proof.
  intros Hcollect. unfold replaySkills. rewrite run_bind. simpl.
  rewrite run_bind. unfold liftRes. by rewrite Hcollect.
Qed.

Lemma replaySkills_collect_throws options w msg :
  collectTouched E (skillDirs options) (skills options) [] (fs w) = Thrown msg →
  replaySkills E options w = (Thrown msg, w).
Proof.
  intros Hcollect. unfold replaySkills. rewrite run_bind. simpl.
  rewrite run_bind. unfold liftRes. by rewrite Hcollect.
Qed.

Lemma replaySkills_reset options w touched :
  collectTouched E (skillDirs options) (skills options) [] (fs w) = Ok (Touched touched) →
  replaySkills E options w =
    replayFromBase E options
      (setFS (resetTouched E (projectRoot options) touched (fs w)) w).
Proof.
  intros Hcollect. unfold replaySkills. rewrite run_bind. simpl.
  rewrite run_bind. unfold liftRes. rewrite Hcollect.
  by rewrite run_bind.
Qed.

End CollectProofs.

(** C9, as amended. If some skill of the list has no entry in [skillDirs],
    its name is not the name of a member that every object inherits
    ([constructor], [toString] and the like), and the manifest of every skill
    listed before the first such skill can be read, [replaySkills] returns
    success = false with an error naming that skill, from the collection step:
    the reset step has not run and the call has created, modified and deleted
    nothing, the world it returns being the world it was called in. *)
Theorem replaySkills_missing_directory
    (E : Extern) (options : ReplayOptions) (w : World)
    (before : list string) (s : string) (after : list string) :
  skills options = before ++ s :: after →
  skillDirs options !! s = None →
  inheritedMember s = false →
  (∀ n, n ∈ before →
     ∃ d m, skillDirs options !! n = Some d ∧ readManifest E d (fs w) = Ok m) →
  replaySkills E options w =
    (Ok (mkReplayResult false
           {[ s := failed ("Skill directory not found for: " +:+ s) ]}
           None (Some ("Missing skill directory for: " +:+ s))), w).
Proof.
  intros Hskills Hmissing Hname Hbefore.
  apply replaySkills_missing. rewrite Hskills.
  by apply collectTouched_missing.
Qed.

Lemma replaySkills_missing_directory_witness :
  replaySkills demoExtern (demoOptions ["skill-a"; "missing"; "skill-c"]) demoWorld =
    (Ok (mkReplayResult false
           {[ "missing" := failed "Skill directory not found for: missing" ]}
           None (Some "Missing skill directory for: missing")), demoWorld).
Proof.
  apply (replaySkills_missing_directory demoExtern _ demoWorld ["skill-a"] "missing" ["skill-c"]).
  - reflexivity.
  - by vm_compute.
  - by vm_compute.
  - intros n Hin. apply list_elem_of_singleton in Hin as ->.
    exists (skillPackage "a"), (mkManifest "skill-a" [] [configTs] [] None).
    split; by vm_compute.
Defined.

(** C9 as stated fails, in two ways: the call throws instead of returning a
    result.  The skill [missing] has no entry in [skillDirs], but the
    manifest of the skill listed before it cannot be read.  The skill
    [constructor] has no entry in [skillDirs] either, but
    [skillDirs["constructor"]] is the constructor that every object
    inherits, and the manifest is read from it. *)
Lemma replaySkills_missing_directory_throws :
  (demoSkillDirs !! "missing" = None
   ∧ replaySkills demoExtern (demoOptions ["broken"; "missing"]) demoWorld
     = (Thrown "Invalid manifest", demoWorld))
  ∧
  (demoSkillDirs !! "constructor" = None
   ∧ replaySkills demoExtern (demoOptions ["constructor"]) demoWorld
     = (Thrown "The path argument must be of type string. Received function", demoWorld)).
Proof.
  split; (split; [by vm_compute |]);
    apply replaySkills_collect_throws; by vm_compute.
Qed.

(** ** The reset step of a replay *)

Section ResetProofs.
Context (E : Extern) (root : path).

Local Abbreviation current rel := (root ++ resolvePathRemap E rel).
Local Abbreviation snapshot rel := (root ++ BASE_DIR ++ resolvePathRemap E rel).





End ResetProofs.




(** ** Steps that act on the files only *)

#[global] Instance sameLog_preorder : PreOrder sameLog.
Proof.
  split; [by intros w |]. intros w1 w2 w3 H12 H23. unfold sameLog in *. congruence.
Qed.

#[global] Instance replayFrame_preorder : PreOrder replayFrame.
Proof.
  split.
  - intros w. split; [done |]. split; [done |]. exists []. by rewrite app_nil_r.
  - intros w1 w2 w3 (Hd1 & Hl1 & evs1 & He1 & Hs1) (Hd2 & Hl2 & evs2 & He2 & Hs2).
    split; [congruence |]. split; [congruence |].
    exists (evs1 ++ evs2). split; [by rewrite He2, He1, app_assoc |].
    by apply Forall_app.
Qed.

Lemma sameLog_setFS w f : sameLog w (setFS f w).
Proof. done. Qed.

Lemma replayFrame_setFS w f : replayFrame w (setFS f w).
Proof.
  split; [done |]. split; [done |]. exists []. by rewrite app_nil_r.
Qed.

Lemma replayFrame_emit w e : isStructuredEvent e = true → replayFrame w (emit e w).
Proof.
  intros He. split; [done |]. split; [done |]. exists [e]. split; [done |].
  by apply Forall_singleton.
Qed.

Section Preserves.
Context (R : relation World) `{!PreOrder R}.
Context (R_setFS : ∀ w f, R w (setFS f w)).

Lemma preserves_ret {A} (a : A) : preserves R (mret a).
Proof. intros w. reflexivity. Qed.

Lemma preserves_throw {A} msg : preserves R (throw (A := A) msg).
Proof. intros w. reflexivity. Qed.

Lemma preserves_bind {A B} (m : M A) (k : A → M B) :
  preserves R m → (∀ a, preserves R (k a)) → preserves R (m ≫= k).
Proof.
  intros Hm Hk w. rewrite run_bind. specialize (Hm w).
  destruct (m w) as [[a | msg] w1]; simpl in *; [| done].
  etrans; [exact Hm | apply Hk].
Qed.

Lemma preserves_tryCatch {A} (m : M A) (handler : string → M A) :
  preserves R m → (∀ msg, preserves R (handler msg)) → preserves R (tryCatch m handler).
Proof.
  intros Hm Hh w. unfold tryCatch. specialize (Hm w).
  destruct (m w) as [[a | msg] w1]; simpl in *; [done |].
  etrans; [exact Hm | apply Hh].
Qed.

Lemma preserves_onFS (g : FS → FS) : preserves R (onFS g).
Proof. intros w. apply R_setFS. Qed.

Lemma preserves_onFSRes {A} (g : FS → Res A * FS) : preserves R (onFSRes g).
Proof. intros w. unfold onFSRes. destruct (g (fs w)). apply R_setFS. Qed.

Lemma preserves_getFS : preserves R getFS.
Proof. intros w. reflexivity. Qed.

Lemma preserves_liftRes {A} (r : Res A) : preserves R (liftRes r).
Proof. intros w. reflexivity. Qed.

End Preserves.

Create HintDb preserves.
#[global] Hint Resolve preserves_ret preserves_throw preserves_onFS preserves_onFSRes
  preserves_getFS preserves_liftRes : preserves.

(** Breaks a computation into its steps until each is known to preserve the
    relation. *)
Ltac preserves_steps :=
  repeat first
    [ progress eauto with preserves
    | apply preserves_bind; [assumption | | intros ?]
    | apply preserves_tryCatch; [assumption | | intros ?]
    | match goal with
      | |- preserves _ (match ?x with _ => _ end) => destruct x
      | |- preserves _ (if ?x then _ else _) => destruct x
      | |- preserves _ (let '(_, _) := ?x in _) => destruct x
      end ].

(** None of the steps of a replay before its structured operations, and
    neither of the last two steps of an uninstall before the state is
    written, does anything but read and write files. *)
Section FileSteps.
Context (E : Extern).
Context (R : relation World) `{!PreOrder R}.
Context (R_setFS : ∀ w f, R w (setFS f w)).

Lemma preserves_tryRerere resolved cur base theirs ours :
  preserves R (tryRerere E resolved cur base theirs ours).
Proof. unfold tryRerere. preserves_steps. Qed.

Lemma preserves_mergeModified root dir rel : preserves R (mergeModified E root dir rel).
Proof.
  pose proof preserves_tryRerere. unfold mergeModified. preserves_steps.
Qed.

Lemma preserves_mergeAll root dir rels : preserves R (mergeAll E root dir rels).
Proof.
  pose proof preserves_mergeModified.
  induction rels; simpl; preserves_steps.
Qed.

Lemma preserves_applySkillFiles root dir : preserves R (applySkillFiles E root dir).
Proof.
  pose proof preserves_mergeAll. unfold applySkillFiles. preserves_steps.
Qed.

Lemma preserves_replayStep options n acc : preserves R (replayStep E options n acc).
Proof.
  pose proof preserves_applySkillFiles. unfold replayStep. preserves_steps.
Qed.

Lemma preserves_replayLoop options names acc :
  preserves R (replayLoop E options names acc).
Proof.
  pose proof preserves_replayStep.
  revert acc. induction names; intros acc; simpl; preserves_steps.
Qed.

Lemma preserves_preloadResolutions options : preserves R (preloadResolutions E options).
Proof.
  intros w. unfold preloadResolutions.
  destruct (loadResolutions _ _ _ _ _) as [[? | ?] ?]; apply R_setFS.
Qed.

Lemma preserves_reapplyCustom root state : preserves R (reapplyCustom E root state).
Proof.
  unfold reapplyCustom. destruct (custom_modifications state) as [mods |].
  - induction mods; simpl; preserves_steps.
  - preserves_steps.
Qed.

Lemma preserves_runSkillTests skillName applied results :
  preserves R (runSkillTests E skillName applied results).
Proof.
  revert results. induction applied; intros results; simpl; preserves_steps.
Qed.

End FileSteps.

(** ** The loop over the skills *)

Lemma lookup_markSucceeded names (m : gmap string SkillOutcome) n :
  markSucceeded names m !! n = if decide (n ∈ names) then Some succeeded else m !! n.
Proof.
  revert m. induction names as [| x names IH]; intros m.
  { destruct (decide (n ∈ [])) as [Hin | _]; [by apply elem_of_nil in Hin | done]. }
  change (markSucceeded (x :: names) m) with (markSucceeded names (<[x := succeeded]> m)).
  rewrite IH.
  destruct (decide (n ∈ names)) as [Hin | Hnotin];
    destruct (decide (n ∈ x :: names)) as [Hin' | Hnotin']; try done.
  - exfalso. apply Hnotin', elem_of_cons. by right.
  - apply elem_of_cons in Hin' as [-> | ?]; [| done]. by rewrite lookup_insert_eq.
  - rewrite lookup_insert_ne; [done |]. intros <-. apply Hnotin', elem_of_cons. by left.
Qed.

Lemma acc_perSkill_collectStructured m acc :
  acc_perSkill (collectStructured m acc) = acc_perSkill acc.
Proof. reflexivity. Qed.

Lemma allMergeConflicts_collectStructured m acc :
  allMergeConflicts (collectStructured m acc) = allMergeConflicts acc.
Proof. reflexivity. Qed.

Section LoopProofs.
Context (E : Extern) (options : ReplayOptions).

Lemma replayStep_clean n acc w m w' :
  applySkillFiles E (projectRoot options) (skillDirs options !! n) w
    = (Ok (Merged m []), w') →
  replayStep E options n acc w
    = (Ok (StepNext (collectStructured m (setPerSkill n succeeded acc))), w').
Proof.
  intros Happly. unfold replayStep, tryCatch. rewrite run_bind, Happly. done.
Qed.

Lemma replayStep_conflict n acc w m conflict conflicts w' :
  applySkillFiles E (projectRoot options) (skillDirs options !! n) w
    = (Ok (Merged m (conflict :: conflicts)), w') →
  replayStep E options n acc w
    = (Ok (StepBreak (setPerSkill n (failed (conflictMessage (conflict :: conflicts)))
                        (pushConflicts (conflict :: conflicts) acc))), w').
Proof.
  intros Happly. unfold replayStep, tryCatch. rewrite run_bind, Happly. done.
Qed.

Lemma applyCleanly_cons n rest w wi :
  applyCleanly E options (n :: rest) w = Some wi →
  ∃ m w1,
    applySkillFiles E (projectRoot options) (skillDirs options !! n) w
      = (Ok (Merged m []), w1) ∧
    applyCleanly E options rest w1 = Some wi.
Proof.
  simpl. destruct (applySkillFiles _ _ _ w) as [[[errors | m [| c cs]] | msg] w1];
    try done.
  intros Hrest. by exists m, w1.
Qed.

(** The loop passes over the skills that apply cleanly, marking each as
    succeeded, and stops at the first one that leaves conflicts. *)
Lemma replayLoop_first_conflict before s after acc w wi m conflict conflicts wi' :
  applyCleanly E options before w = Some wi →
  applySkillFiles E (projectRoot options) (skillDirs options !! s) wi
    = (Ok (Merged m (conflict :: conflicts)), wi') →
  ∃ acc',
    replayLoop E options (before ++ s :: after) acc w = (Ok (LoopDone acc'), wi') ∧
    allMergeConflicts acc' = allMergeConflicts acc ++ conflict :: conflicts ∧
    acc_perSkill acc' =
      <[s := failed (conflictMessage (conflict :: conflicts))]>
        (markSucceeded before (acc_perSkill acc)).
Proof.
  intros Hclean Hconflict. revert acc w Hclean.
  induction before as [| n before IH]; intros acc w Hclean.
  - simpl in Hclean. injection Hclean as ->.
    simpl. rewrite run_bind, (replayStep_conflict _ acc _ _ _ _ _ Hconflict).
    eexists. split; [reflexivity |]. done.
  - apply applyCleanly_cons in Hclean as (m' & w1 & Hstep & Hrest).
    simpl. rewrite run_bind, (replayStep_clean _ acc _ _ _ Hstep).
    destruct (IH (collectStructured m' (setPerSkill n succeeded acc)) _ Hrest)
      as (acc' & Hrun & Hconf & Hper).
    exists acc'. split; [done |]. split; [done |].
    rewrite Hper. done.
Qed.

Lemma finishReplay_conflicts acc w conflict conflicts :
  allMergeConflicts acc = conflict :: conflicts →
  finishReplay E (projectRoot options) acc w =
    (Ok (mkReplayResult false (acc_perSkill acc) (Some (conflict :: conflicts))
           (Some ("Unresolved merge conflicts: " +:+
                  String.concat ", " (showPath <$> conflict :: conflicts)))), w).
Proof. intros Hc. unfold finishReplay. by rewrite Hc. Qed.

(** What [replaySkills] returns when the skill after [before] is the first
    that ends with conflicts; the entries of [perSkill] are given by name. *)
Lemma replaySkills_first_conflict w before s after conflicts :
  skills options = before ++ s :: after →
  conflictsAt E options before s w = Some conflicts →
  ∃ r,
    fst (replaySkills E options w) = Ok r ∧
    success r = false ∧
    mergeConflicts r = Some conflicts ∧
    conflicts ≠ [] ∧
    perSkill r = <[s := failed (conflictMessage conflicts)]> (markSucceeded before ∅).
Proof.
  intros Hskills Hat. unfold conflictsAt in Hat.
  destruct (worldBefore E options before w) as [wi |] eqn:Hbefore; [| done].
  simpl in Hat. unfold worldBefore in Hbefore.
  destruct (collectTouched E _ _ [] (fs w)) as [[? | touched] | ?] eqn:Hcollect; try done.
  destruct (preloadResolutions E options _) as [[u | ?] w0] eqn:Hpreload; [| done].
  destruct (applySkillFiles E _ _ wi) as [[[? | m [| c cs]] | ?] wi'] eqn:Hs; try done.
  simpl in Hat. injection Hat as <-.
  destruct (replayLoop_first_conflict before s after emptyAcc w0 wi m c cs wi' Hbefore Hs)
    as (acc' & Hloop & Hconf & Hper).
  rewrite (replaySkills_reset E _ _ _ Hcollect).
  unfold replayFromBase. rewrite run_bind, Hpreload. rewrite run_bind, Hskills, Hloop.
  simpl in Hconf. rewrite (finishReplay_conflicts _ _ _ _ Hconf).
  eexists. split; [reflexivity |]. simpl. by rewrite Hper.
Qed.

End LoopProofs.

(** C1, as amended. For every ordered skill list in which no name occurs
    twice: if the skill at some position is the first whose application ends
    with unresolved merge conflicts, the result of [replaySkills] has
    success = false, its [mergeConflicts] are that skill's conflicted paths,
    [perSkill] records success = true for every skill before that position
    and success = false for the skill at it, and holds no entry for any skill
    after it. *)
Theorem replaySkills_stops_on_first_conflict
    (E : Extern) (options : ReplayOptions) (w : World)
    (before : list string) (s : string) (after : list string) (conflicts : list path) :
  skills options = before ++ s :: after →
  NoDup (skills options) →
  conflictsAt E options before s w = Some conflicts →
  ∃ r,
    fst (replaySkills E options w) = Ok r ∧
    success r = false ∧
    mergeConflicts r = Some conflicts ∧
    conflicts ≠ [] ∧
    (∀ n, n ∈ before → perSkill r !! n = Some succeeded) ∧
    perSkill r !! s = Some (failed (conflictMessage conflicts)) ∧
    (∀ n, n ∈ after → perSkill r !! n = None).
Proof.
  intros Hskills Hnodup Hat.
  destruct (replaySkills_first_conflict E options w before s after conflicts Hskills Hat)
    as (r & Hrun & Hfail & Hconf & Hne & Hper).
  rewrite Hskills in Hnodup.
  apply NoDup_app in Hnodup as (_ & Hdisjoint & Hrest).
  apply NoDup_cons in Hrest as [Hs _].
  exists r. repeat split; try done.
  - intros n Hn. rewrite Hper.
    rewrite lookup_insert_ne.
    + rewrite lookup_markSucceeded. by rewrite decide_True.
    + intros <-. apply (Hdisjoint s Hn), elem_of_cons. by left.
  - rewrite Hper. by rewrite lookup_insert_eq.
  - intros n Hn. rewrite Hper.
    rewrite lookup_insert_ne by (intros <-; done).
    rewrite lookup_markSucceeded. rewrite decide_False; [done |].
    intros Hb. apply (Hdisjoint n Hb), elem_of_cons. by right.
Qed.

(** The stop-on-conflict scenario of the test suite: a applies cleanly, b
    conflicts with it, c is never attempted. *)
Lemma replaySkills_stops_on_first_conflict_witness :
  ∃ r,
    fst (replaySkills demoExtern (demoOptions ["skill-a"; "skill-b"; "skill-c"]) demoWorld)
      = Ok r ∧
    success r = false ∧
    mergeConflicts r = Some [configTs] ∧
    perSkill r !! "skill-a" = Some succeeded ∧
    perSkill r !! "skill-b" = Some (failed "Merge conflicts: src/config.ts") ∧
    perSkill r !! "skill-c" = None.
Proof.
  destruct (replaySkills_stops_on_first_conflict demoExtern
              (demoOptions ["skill-a"; "skill-b"; "skill-c"]) demoWorld
              ["skill-a"] "skill-b" ["skill-c"] [configTs])
    as (r & Hrun & Hfail & Hconf & _ & Hbefore & Hs & Hafter).
  - reflexivity.
  - apply (bool_decide_unpack _). by vm_compute.
  - by vm_compute.
  - exists r. split; [done |]. split; [done |]. split; [done |].
    split; [apply Hbefore; by apply list_elem_of_singleton |].
    split; [done |]. apply Hafter. by apply list_elem_of_singleton.
Defined.

(** C1 as stated fails on a list that names a skill twice: in [a; d; a] the
    skill d, at position 1, is the first to end with conflicts (its modify
    file is missing), and yet the skill at position 2 has an entry in
    [perSkill], the one a got at position 0. *)
Lemma replaySkills_repeated_skill_has_entry :
  conflictsAt demoExtern (demoOptions ["skill-a"; "skill-d"; "skill-a"]) ["skill-a"]
    "skill-d" demoWorld = Some [["src"; "missing.ts"]]
  ∧ ["skill-a"; "skill-d"; "skill-a"] !! 2 = Some "skill-a"
  ∧ ∃ r,
      fst (replaySkills demoExtern (demoOptions ["skill-a"; "skill-d"; "skill-a"]) demoWorld)
        = Ok r ∧
      perSkill r !! "skill-a" = Some succeeded.
Proof.
  split; [by vm_compute |]. split; [done |].
  eexists. split; [vm_compute; reflexivity |]. by vm_compute.
Qed.

(** ** The structured operations at the end of a replay *)

Section FinishProofs.
Context (E : Extern) (options : ReplayOptions).

Lemma replayStep_return n acc w r w' :
  replayStep E options n acc w = (Ok (StepReturn r), w') →
  success r = false ∧ mergeConflicts r = None.
Proof.
  unfold replayStep, tryCatch. rewrite run_bind.
  destruct (applySkillFiles E _ _ w) as [[[errors | m [| c cs]] | msg] w1];
    rewrite ?run_ret; intros Heq; by simplify_eq.
Qed.

Lemma replayLoop_return names acc w r w' :
  replayLoop E options names acc w = (Ok (LoopReturn r), w') →
  success r = false ∧ mergeConflicts r = None.
Proof.
  revert acc w. induction names as [| n names IH]; intros acc w; simpl; [done |].
  rewrite run_bind.
  destruct (replayStep E options n acc w) as [[[acc' | acc' | r'] | msg] w1] eqn:Hstep;
    rewrite ?run_ret; try done.
  - apply IH.
  - intros Heq. simplify_eq. by eapply replayStep_return.
Qed.

(** What the last part of [replaySkills] logs and returns.  With conflicts
    it logs nothing; once the install step has run, whether it failed or not,
    the result is the successful one. *)
Lemma finishReplay_events acc w :
  ∃ evs,
    log (snd (finishReplay E (projectRoot options) acc w)) = log w ++ evs ∧
    (∀ r, fst (finishReplay E (projectRoot options) acc w) = Ok r →
          success r = false →
          evs = [] ∧ ∃ c cs, mergeConflicts r = Some (c :: cs)) ∧
    (∀ r, fst (finishReplay E (projectRoot options) acc w) = Ok r →
          success r = true → mergeConflicts r = None) ∧
    (∀ ok, EvNpmInstall ok ∈ evs →
           fst (finishReplay E (projectRoot options) acc w)
           = Ok (mkReplayResult true (acc_perSkill acc) None None)).
Proof.
  unfold finishReplay.
  destruct (allMergeConflicts acc) as [| c cs] eqn:Hconf; cycle 1.
  { exists []. rewrite run_ret. simpl. rewrite app_nil_r.
    split; [done |]. split; [| split].
    - intros r Heq _. simplify_eq. split; [done |]. by eexists _, _.
    - intros r Heq. by simplify_eq.
    - intros ok Hin. by apply elem_of_nil in Hin. }
  destruct (hasNpmDeps acc), (allEnvAdditions acc) as [| env envs],
    (bool_decide (allDockerServices acc = ∅));
  unfold mbind, M_bind, bind, tryCatch, logEvent, onFSRes, mret, M_ret, ret, emit, setFS;
  simpl;
  repeat match goal with
         | |- context [mergeNpmDependencies E ?a ?b ?c] =>
           destruct (mergeNpmDependencies E a b c) as [[[] | ?] ?]; simpl
         | |- context [mergeEnvAdditions E ?a ?b ?c] =>
           destruct (mergeEnvAdditions E a b c) as [[[] | ?] ?]; simpl
         | |- context [mergeDockerComposeServices E ?a ?b ?c] =>
           destruct (mergeDockerComposeServices E a b c) as [[[] | ?] ?]; simpl
         | |- context [runNpmInstall E ?a] =>
           destruct (runNpmInstall E a) as [[[] | ?] ?]; simpl
         end;
  (eexists; split;
   [ rewrite <- ?app_assoc; simpl; first [ reflexivity | symmetry; apply app_nil_r ]
   | split; [| split];
     [ intros r Heq Hfail; by simplify_eq
     | intros r Heq _; by simplify_eq
     | intros ok Hin; repeat (apply elem_of_cons in Hin as [Hin | Hin]; [done |]);
       by apply elem_of_nil in Hin ] ]).
Qed.

End FinishProofs.

Lemma preserves_logEvent_structured e :
  isStructuredEvent e = true → preserves replayFrame (logEvent e).
Proof. intros He w. by apply replayFrame_emit. Qed.

Section ReplayFrame.
Context (E : Extern).

Lemma preserves_finishReplay root acc : preserves replayFrame (finishReplay E root acc).
Proof.
  pose proof replayFrame_setFS. pose proof replayFrame_preorder.
  pose proof preserves_logEvent_structured.
  unfold finishReplay.
  destruct (allMergeConflicts acc); preserves_steps.
Qed.

(** A replay leaves the state document and the lock alone and logs nothing
    but its structured operations. *)
Lemma preserves_replaySkills options : preserves replayFrame (replaySkills E options).
Proof.
  pose proof replayFrame_setFS. pose proof replayFrame_preorder.
  pose proof (preserves_preloadResolutions E replayFrame replayFrame_setFS).
  pose proof (preserves_replayLoop E replayFrame replayFrame_setFS).
  pose proof preserves_finishReplay.
  unfold replaySkills, replayFromBase. preserves_steps.
Qed.

End ReplayFrame.

(** C7. Whatever [replaySkills] is called with, let [evs] be the events it
    logs.  If it returns a result with a conflict list, the list is not
    empty, success is false and [evs] is empty: it returned before merging npm
    dependencies, env additions or docker-compose services, and before the
    install step.  And if the install step appears in [evs], whether it
    succeeded or failed, the call returns a result with success = true. *)
Theorem replaySkills_structured_operations
    (E : Extern) (options : ReplayOptions) (w : World) :
  ∃ evs,
    log (snd (replaySkills E options w)) = log w ++ evs ∧
    (∀ r conflicts,
       fst (replaySkills E options w) = Ok r → mergeConflicts r = Some conflicts →
       conflicts ≠ [] ∧ success r = false ∧ evs = []) ∧
    (∀ ok, EvNpmInstall ok ∈ evs →
           ∃ r, fst (replaySkills E options w) = Ok r ∧
                success r = true ∧ mergeConflicts r = None).
Proof.
  unfold replaySkills. rewrite run_bind. simpl. rewrite run_bind. unfold liftRes.
  destruct (collectTouched E _ _ [] (fs w)) as [[missing | touched] | msg].
  - exists []. rewrite run_ret. simpl. rewrite app_nil_r.
    split; [done |]. split.
    + intros r cs Heq Hcs. by simplify_eq.
    + intros ok Hin. by apply elem_of_nil in Hin.
  - rewrite run_bind. simpl. unfold replayFromBase. rewrite run_bind.
    pose proof (preserves_preloadResolutions E sameLog sameLog_setFS options
                  (setFS (resetTouched E (projectRoot options) touched (fs w)) w)) as Hpre.
    destruct (preloadResolutions E options _) as [[[] | msg] w0]; simpl in Hpre; cycle 1.
    { exists []. simpl. rewrite app_nil_r. split; [done |]. split.
      - intros r cs Heq. by simplify_eq.
      - intros ok Hin. by apply elem_of_nil in Hin. }
    rewrite run_bind.
    pose proof (preserves_replayLoop E sameLog sameLog_setFS options (skills options)
                  emptyAcc w0) as Hloop.
    destruct (replayLoop E options (skills options) emptyAcc w0)
      as [[[acc | r] | msg] w1] eqn:Hrun; simpl in Hloop.
    + destruct (finishReplay_events E options acc w1)
        as (evs & Hlog & Hfail & Hok & Hinstall).
      exists evs. split; [unfold sameLog in *; simpl in *; congruence |]. split.
      * intros r cs Heq Hcs.
        destruct (success r) eqn:Hs.
        { rewrite (Hok r Heq Hs) in Hcs. done. }
        destruct (Hfail r Heq Hs) as (-> & c & cs' & Hcs').
        rewrite Hcs in Hcs'. by simplify_eq.
      * intros ok Hin. eexists. split; [by apply (Hinstall ok) |]. done.
    + exists []. rewrite run_ret. simpl. rewrite app_nil_r.
      split; [unfold sameLog in *; simpl in *; congruence |]. split.
      * intros r' cs Heq Hcs. simplify_eq.
        apply replayLoop_return in Hrun as [_ Hnone]. congruence.
      * intros ok Hin. by apply elem_of_nil in Hin.
    + exists []. simpl. rewrite app_nil_r.
      split; [unfold sameLog in *; simpl in *; congruence |]. split.
      * intros r cs Heq. by simplify_eq.
      * intros ok Hin. by apply elem_of_nil in Hin.
  - exists []. simpl. rewrite app_nil_r. split; [done |]. split.
    + intros r cs Heq. by simplify_eq.
    + intros ok Hin. by apply elem_of_nil in Hin.
Qed.

(** Replaying a and c merges the npm dependencies of c; the install step
    fails, and the replay still succeeds.  Replaying a and b ends with a
    conflict and logs nothing. *)
Lemma replaySkills_structured_operations_witness :
  (∃ r, fst (replaySkills demoExtern (demoOptions ["skill-a"; "skill-c"]) demoWorld) = Ok r ∧
        success r = true ∧
        log (snd (replaySkills demoExtern (demoOptions ["skill-a"; "skill-c"]) demoWorld))
        = [EvMergeNpmDependencies; EvNpmInstall false])
  ∧ log (snd (replaySkills demoExtern (demoOptions ["skill-a"; "skill-b"]) demoWorld)) = [].
Proof.
  split.
  - destruct (replaySkills_structured_operations demoExtern
                (demoOptions ["skill-a"; "skill-c"]) demoWorld)
      as (evs & Hlog & _ & Hinstall).
    assert (Hevs : evs = [EvMergeNpmDependencies; EvNpmInstall false]).
    { rewrite <- (app_nil_l evs). etrans; [symmetry; exact Hlog | by vm_compute]. }
    destruct (Hinstall false) as (r & Hrun & Hok & _).
    { rewrite Hevs. apply elem_of_cons. right. by apply list_elem_of_singleton. }
    exists r. split; [done |]. split; [done |]. by vm_compute.
  - destruct (replaySkills_structured_operations demoExtern
                (demoOptions ["skill-a"; "skill-b"]) demoWorld)
      as (evs & Hlog & Hconf & _).
    destruct (Hconf (mkReplayResult false
                {[ "skill-a" := succeeded;
                   "skill-b" := failed "Merge conflicts: src/config.ts" ]}
                (Some [configTs]) (Some "Unresolved merge conflicts: src/config.ts"))
                [configTs]) as (_ & _ & ->); [by vm_compute | done |].
    by rewrite Hlog.
Defined.

(** ** Uninstall: the preconditions *)

Section UninstallGuards.
Context (E : Extern) (root : path) (skillName : string) (w : World).

Lemma uninstallSkill_rebased :
  truthy (rebased_at (doc w)) = true →
  uninstallSkill E root skillName w = (Ok (failure skillName rebaseError), w).
Proof.
  intros Hrebased. unfold uninstallSkill. rewrite run_bind. unfold readState.
  by rewrite Hrebased.
Qed.

Lemma uninstallSkill_custom_patch skillEntry :
  truthy (rebased_at (doc w)) = false →
  List.find (λ s, String.eqb (name s) skillName) (applied_skills (doc w)) = Some skillEntry →
  truthy (custom_patch skillEntry) = true →
  uninstallSkill E root skillName w =
    (Ok (mkUninstallResult false skillName
           (Some ("Skill " +:+ dq +:+ skillName +:+ dq +:+ " has a custom patch (" +:+
                  default "no description" (custom_patch_description skillEntry) +:+
                  "). Uninstalling will lose these customizations. Re-run with confirmation to proceed."))
           None None), w).
Proof.
  intros Hrebased Hfind Hpatch. unfold uninstallSkill. rewrite run_bind. unfold readState.
  by rewrite Hrebased, Hfind, Hpatch.
Qed.

End UninstallGuards.

(** C4. In every state whose [rebased_at] is set (it holds a timestamp, a
    non-empty string) and for every skill name, [uninstallSkill] returns
    success = false with an error that mentions "after rebase", and the world
    it returns is the world it was called in: the lock was not acquired, no
    backup was created, no file and no state was changed. *)
Theorem uninstallSkill_blocked_after_rebase
    (E : Extern) (root : path) (skillName : string) (w : World) :
  truthy (rebased_at (doc w)) = true →
  ∃ r msg,
    uninstallSkill E root skillName w = (Ok r, w) ∧
    un_success r = false ∧
    un_error r = Some msg ∧
    includes "after rebase" msg = true.
Proof.
  intros Hrebased. exists (failure skillName rebaseError), rebaseError.
  split; [by apply uninstallSkill_rebased |]. by vm_compute.
Qed.

Lemma uninstallSkill_blocked_after_rebase_witness :
  ∃ r msg,
    uninstallSkill demoExtern demoRoot "skill-a" rebasedWorld = (Ok r, rebasedWorld) ∧
    un_success r = false ∧
    un_error r = Some msg ∧
    includes "after rebase" msg = true.
Proof.
  apply uninstallSkill_blocked_after_rebase. reflexivity.
Defined.

(** C5 fails on the code. The comment on step 3 of [uninstallSkill] says
    that a custom patch warns but does not block, and the warning asks to
    re-run with confirmation; but the function takes the skill name only, and
    whenever the named skill is applied and carries a custom patch it returns
    the warning with success = false and does nothing else: the world it
    returns is the world it was called in. *)
Theorem uninstallSkill_custom_patch_always_blocks
    (E : Extern) (root : path) (skillName : string) (w : World) (skillEntry : AppliedSkill) :
  truthy (rebased_at (doc w)) = false →
  List.find (λ s, String.eqb (name s) skillName) (applied_skills (doc w)) = Some skillEntry →
  truthy (custom_patch skillEntry) = true →
  ∃ r,
    uninstallSkill E root skillName w = (Ok r, w) ∧
    un_success r = false ∧
    is_Some (customPatchWarning r).
Proof.
  intros Hrebased Hfind Hpatch. eexists. split.
  - by apply (uninstallSkill_custom_patch E root skillName w skillEntry).
  - by split.
Qed.

Lemma uninstallSkill_custom_patch_always_blocks_witness :
  ∃ r,
    uninstallSkill demoExtern demoRoot "skill-a" patchedWorld = (Ok r, patchedWorld) ∧
    un_success r = false ∧
    is_Some (customPatchWarning r).
Proof.
  apply (uninstallSkill_custom_patch_always_blocks _ _ _ _ patchedSkill); reflexivity.
Defined.

(** ** Uninstall: failure after the backup *)

Section UninstallProofs.
Context (E : Extern) (root : path) (skillName : string).

Lemma run_doCreateBackup l w :
  doCreateBackup E l w
  = (fst (createBackup E l (fs w)),
     setFS (snd (createBackup E l (fs w))) (emit (EvCreateBackup l) w)).
Proof.
  unfold doCreateBackup, mbind, M_bind, bind, logEvent, onFSRes. simpl.
  by destruct (createBackup E l (fs w)) as [[[] | msg] saved].
Qed.

(** The [finally] of [uninstallSkill]: the lock is released however the
    [try] and its [catch] end. *)
Lemma run_finally_release {A} (m : M A) w :
  tryFinally m releaseLock w
  = (fst (m w),
     mkWorld (fs (snd (m w))) (doc (snd (m w))) false (log (snd (m w)) ++ [EvReleaseLock])).
Proof. unfold tryFinally. by destruct (m w). Qed.

Lemma run_restore {A} (r : A) w restored cleared :
  restoreBackup E (fs w) = (Ok tt, restored) →
  clearBackup E restored = (Ok tt, cleared) →
  (doRestoreBackup E;; doClearBackup E;; mret r) w
  = (Ok r, mkWorld cleared (doc w) (lockHeld w) (log w ++ [EvRestoreBackup; EvClearBackup])).
Proof.
  intros Hrestore Hclear.
  unfold doRestoreBackup, doClearBackup, mbind, M_bind, bind, logEvent, onFSRes, emit, setFS.
  simpl. rewrite Hrestore. simpl. rewrite Hclear. simpl. by rewrite <- app_assoc.
Qed.

(** However the restoring and the clearing of the backup end, they leave
    the state document and the lock alone and create no backup, and the
    result, if there is one, is the one given. *)
Lemma run_restore_cases {A} (r : A) w :
  doc (snd ((doRestoreBackup E;; doClearBackup E;; mret r) w)) = doc w ∧
  lockHeld (snd ((doRestoreBackup E;; doClearBackup E;; mret r) w)) = lockHeld w ∧
  (log (snd ((doRestoreBackup E;; doClearBackup E;; mret r) w)) = log w ++ [EvRestoreBackup] ∨
   log (snd ((doRestoreBackup E;; doClearBackup E;; mret r) w))
   = log w ++ [EvRestoreBackup; EvClearBackup]) ∧
  (∀ r', fst ((doRestoreBackup E;; doClearBackup E;; mret r) w) = Ok r' → r' = r).
Proof.
  unfold doRestoreBackup, doClearBackup, mbind, M_bind, bind, logEvent, onFSRes, emit, setFS.
  simpl. destruct (restoreBackup E (fs w)) as [[[] | msg] restored]; simpl.
  - destruct (clearBackup E restored) as [[[] | msg] cleared]; simpl;
      rewrite <- app_assoc; repeat split; auto; intros r' Heq; by simplify_eq.
  - repeat split; auto. intros r' Heq. by simplify_eq.
Qed.

Section Returning.
Context (Hrestore : ∀ f, ∃ f', restoreBackup E f = (Ok tt, f')).
Context (Hclear : ∀ f, ∃ f', clearBackup E f = (Ok tt, f')).






End Returning.

End UninstallProofs.

(** Brings a log built by successive appends to the form [l ++ events]. *)
Ltac flatten_log := repeat first [ rewrite <- !app_assoc | progress simpl ].





(** * Further properties *)

(** ** [findPreimagePairs] *)

Lemma findPreimagePairs_elem dir baseDir f pr :
  pr ∈ findPreimagePairs dir baseDir f ↔
  ∃ p, is_Some (files f !! p) ∧ isBelow dir p = true ∧ pairOfEntry baseDir p f = Some pr.
Proof.
  unfold findPreimagePairs. rewrite list_elem_of_omap. split.
  - intros (p & Hp & Hpr). exists p.
    apply elem_of_filesInOrder in Hp.
    destruct (isBelow dir p); [| done]. eauto.
  - intros (p & Hp & Hbelow & Hpr). exists p. rewrite Hbelow. split; [| done].
    by apply elem_of_filesInOrder.
Qed.

Lemma addExt_relativeName ext (l : path) (m : string) :
  addExt ext (relativeName (l ++ [m])) = l ++ [m +:+ ext].
Proof.
  unfold relativeName. case_bool_decide as Hempty.
  - destruct l as [| x l]; simpl in Hempty; [by injection Hempty as -> |].
    by destruct l.
  - unfold addExt. rewrite mapLast_app. by destruct l.
Qed.

Lemma findPreimagePairs_names (dir : path) (f : FS) (pr : PreimagePair) :
  pr ∈ findPreimagePairs dir dir f →
  preimage pr = dir ++ addExt ".preimage" (relPath pr) ∧
  resolution pr = dir ++ addExt ".resolution" (relPath pr) ∧
  endsWith (basename (preimage pr)) ".preimage.hash" = false ∧
  is_Some (files f !! preimage pr) ∧
  existsSync (resolution pr) f = true.
Proof.
  intros Hin.
  destruct (findPreimagePairs_files _ _ _ _ Hin) as [Hpre Hres].
  apply findPreimagePairs_elem in Hin as (p & _ & Hbelow & Hpr).
  apply isBelow_spec in Hbelow as (rest & Hne & ->).
  destruct (path_snoc rest Hne) as (l & n & ->).
  unfold pairOfEntry in Hpr. rewrite app_assoc, basename_app in Hpr.
  unfold isPreimageName in Hpr.
  destruct (endsWith n ".preimage") eqn:Hends; [| done].
  destruct (endsWith n ".preimage.hash") eqn:Hhash; [done |]. simpl in Hpr.
  destruct (existsSync _ f); [| done].
  injection Hpr as <-. simpl in Hpre, Hres |- *.
  rewrite <- app_assoc, drop_app_length, !mapLast_app, !addExt_relativeName.
  rewrite (app_assoc dir l), !mapLast_app, basename_app.
  rewrite (endsWith_dropSuffix n ".preimage" Hends).
  rewrite <- !app_assoc in *.
  rewrite (app_assoc dir l), mapLast_app, <- app_assoc in Hres.
  done.
Qed.

(** X1. The names of a pair and its relative path determine each other: for
    every pair that [findPreimagePairs] reports for a resolution directory,
    the preimage is the file of the directory at the relative path with
    [.preimage] appended, the resolution is the entry at the relative path
    with [.resolution] appended, the preimage is not a [.hash] sidecar, the
    preimage is a file and the resolution exists, as a file or as a
    directory.  The relative path is empty for a file named [.preimage]
    directly in the directory. *)
Theorem findPreimagePairs_layout (dir : path) (f : FS) (pr : PreimagePair) :
  pr ∈ findPreimagePairs dir dir f →
  preimage pr = dir ++ addExt ".preimage" (relPath pr) ∧
  resolution pr = dir ++ addExt ".resolution" (relPath pr) ∧
  endsWith (basename (preimage pr)) ".preimage.hash" = false ∧
  is_Some (files f !! preimage pr) ∧
  existsSync (resolution pr) f = true.
Proof. apply findPreimagePairs_names. Qed.

Lemma findPreimagePairs_layout_witness :
  configPair ∈ findPreimagePairs shippedDir shippedDir (resolutionFS "meta with input_hashes")
  ∧ preimage configPair = shippedDir ++ addExt ".preimage" (relPath configPair).
Proof.
  assert (Hin : configPair ∈ findPreimagePairs shippedDir shippedDir
                               (resolutionFS "meta with input_hashes")).
  { apply (bool_decide_unpack _). vm_compute. reflexivity. }
  split; [exact Hin |].
  exact (proj1 (findPreimagePairs_layout shippedDir
                  (resolutionFS "meta with input_hashes") configPair Hin)).
Defined.

(** ** [loadResolutions]: what it never does *)

Lemma isBelow_app (dir rest : path) : rest ≠ [] → isBelow dir (dir ++ rest) = true.
Proof. intros Hne. apply isBelow_spec. by exists rest. Qed.

(** Under the name of an entry, seeding writes below the rr-cache. *)
Lemma lookup_seedCache_outside rrCacheDir hash pre post f q :
  plainName hash = true →
  isBelow rrCacheDir q = false →
  files (seedCache rrCacheDir hash pre post f) !! q = files f !! q.
Proof.
  intros Hplain Hq. unfold seedCache. rewrite (pathJoin_plain _ _ Hplain).
  rewrite !lookup_writeFileSync_ne, files_mkdirSync; [done | |];
    intros <-; rewrite <- app_assoc, isBelow_app in Hq; done.
Qed.

Section LoadFrame.
Context (E : Extern) (meta : ResolutionMeta) (root : path) (skillDir : option path)
        (rrCacheDir : path).

(** The token under which a pair is seeded is the content of its sidecar,
    without the white space around it. *)
Lemma checkPair_Seed pr f hash pre post :
  checkPair E meta root skillDir pr f = Ok (Seed hash pre post) →
  ∃ token, files f !! sidecarOf pr = Some token ∧ hash = trim token ∧ hash ≠ "".
Proof.
  unfold checkPair, sidecarOf.
  destruct (expectedHashes meta (relPath pr)) as [expected |]; [| done].
  destruct skillDir as [dir |]; [| done].
  destruct (files f !! _) as [b |]; [| done].
  destruct (files f !! _) as [c |]; [| done].
  destruct (files f !! _) as [s |]; [| done].
  destruct (hashDiffers E b _); [done |].
  destruct (hashDiffers E c _); [done |].
  destruct (hashDiffers E s _); [done |].
  destruct (files f !! preimage pr) as [preimageContent |]; [| done].
  destruct (files f !! resolution pr) as [resolutionContent |]; [| done].
  destruct (files f !! _) as [token |]; [| done].
  destruct (String.eqb (trim token) "") eqn:Hne; [done |].
  apply String.eqb_neq in Hne.
  intros Heq. exists token. split; [done |]. by injection Heq as <- _ _.
Qed.

Lemma loadPairs_keeps pairs loadedAny f q :
  is_Some (files f !! q) →
  is_Some (files (snd (loadPairs E meta root skillDir rrCacheDir pairs loadedAny f)) !! q).
Proof.
  revert loadedAny f.
  induction pairs as [| pr rest IH]; intros loadedAny f Hq; simpl; [done |].
  destruct (checkPair E meta root skillDir pr f) as [[| hash pre post] | msg];
    [by apply IH | | done].
  apply IH. by apply lookup_seedCache_is_Some.
Qed.

Lemma loadPairs_outside pairs loadedAny f q :
  (∀ pr token, pr ∈ pairs → files f !! sidecarOf pr = Some token →
               trim token = "" ∨ plainName (trim token) = true) →
  isBelow rrCacheDir q = false →
  files (snd (loadPairs E meta root skillDir rrCacheDir pairs loadedAny f)) !! q
  = files f !! q.
Proof.
  intros Hplain Hq. revert loadedAny f Hplain.
  induction pairs as [| pr rest IH]; intros loadedAny f Hplain; simpl; [done |].
  assert (Hrest : ∀ pr' token, pr' ∈ rest → files f !! sidecarOf pr' = Some token →
                               trim token = "" ∨ plainName (trim token) = true).
  { intros pr' token Hin. apply Hplain, elem_of_cons. by right. }
  destruct (checkPair E meta root skillDir pr f) as [[| hash pre post] | msg] eqn:Hcheck;
    [by apply IH | | done].
  assert (Hhash : plainName hash = true).
  { apply checkPair_Seed in Hcheck as (token & Htoken & -> & Hne).
    destruct (Hplain pr token) as [Hempty | Hname];
      [apply elem_of_cons; by left | done | done | done]. }
  rewrite IH.
  - by apply lookup_seedCache_outside.
  - intros pr' token Hin. unfold sidecarOf.
    destruct (basename_sidecar (preimage pr')) as [H1 H2].
    rewrite lookup_seedCache_other by done. by apply Hrest.
Qed.

Lemma loadPairs_false pairs loadedAny f f' :
  loadPairs E meta root skillDir rrCacheDir pairs loadedAny f = (Ok false, f') →
  loadedAny = false ∧ f' = f.
Proof.
  revert loadedAny f.
  induction pairs as [| pr rest IH]; intros loadedAny f; simpl.
  { intros Heq. by simplify_eq. }
  destruct (checkPair E meta root skillDir pr f) as [[| hash pre post] | msg]; [apply IH | | done].
  intros Hrun. by apply IH in Hrun as [? _].
Qed.

End LoadFrame.

(** X2. [loadResolutions] removes no file: every file present before the
    call is present after it, whether the call returns or throws. *)
Theorem loadResolutions_removes_no_file
    (E : Extern) (skillNames : list string) (root : path) (skillDir : option path)
    (f : FS) (q : path) :
  is_Some (files f !! q) →
  is_Some (files (snd (loadResolutions E skillNames root skillDir f)) !! q).
Proof.
  intros Hq. unfold loadResolutions.
  destruct (findResolutionDir skillNames root f) as [resDir |]; [| done].
  destruct (files f !! (resDir ++ ["meta.yaml"])) as [text |]; [| done].
  destruct (parseMeta E text) as [[| meta] |]; [done | | done].
  destruct (meta_input_hashes meta); [| done].
  destruct (findPreimagePairs resDir resDir f) as [| pr rest]; [done |].
  destruct (gitDir E root f) as [gitDirectory |]; [| done].
  by apply loadPairs_keeps.
Qed.

Lemma loadResolutions_removes_no_file_witness :
  fst (loadResolutions demoExtern ["skill-a"; "skill-b"] demoRoot (Some (skillPackage "b"))
         (gitFS "meta with input_hashes")) = Ok true
  ∧ is_Some (files (snd (loadResolutions demoExtern ["skill-a"; "skill-b"] demoRoot
                           (Some (skillPackage "b")) (gitFS "meta with input_hashes")))
               !! (shippedDir ++ ["src"; "config.ts.preimage"])).
Proof.
  split; [vm_compute; reflexivity |].
  apply (loadResolutions_removes_no_file demoExtern ["skill-a"; "skill-b"] demoRoot
           (Some (skillPackage "b")) (gitFS "meta with input_hashes")).
  eexists. vm_compute. reflexivity.
Defined.

(** X3. When every sidecar token of the resolution directory, without the
    white space around it, is empty or the name of a directory entry (not
    empty, neither [.] nor [..], without a slash), [loadResolutions] writes
    below the rr-cache directory of the repository only: a file that is not
    below [<git-dir>/rr-cache] has after the call the content it had before,
    whatever the call returns. *)
Theorem loadResolutions_writes_only_rr_cache
    (E : Extern) (skillNames : list string) (root : path) (skillDir : option path)
    (f : FS) (q : path) :
  (∀ gitDirectory, gitDir E root f = Some gitDirectory →
                   isBelow (gitDirectory ++ ["rr-cache"]) q = false) →
  (∀ resDir pr token,
     findResolutionDir skillNames root f = Some resDir →
     pr ∈ findPreimagePairs resDir resDir f →
     files f !! sidecarOf pr = Some token →
     trim token = "" ∨ plainName (trim token) = true) →
  files (snd (loadResolutions E skillNames root skillDir f)) !! q = files f !! q.
Proof.
  intros Hq Hplain. unfold loadResolutions.
  destruct (findResolutionDir skillNames root f) as [resDir |]; [| done].
  destruct (files f !! (resDir ++ ["meta.yaml"])) as [text |]; [| done].
  destruct (parseMeta E text) as [[| meta] |]; [done | | done].
  destruct (meta_input_hashes meta); [| done].
  specialize (Hplain resDir).
  destruct (findPreimagePairs resDir resDir f) as [| pr rest]; [done |].
  destruct (gitDir E root f) as [gitDirectory |]; [| done].
  apply loadPairs_outside; [| by apply Hq].
  intros pr' token. by apply Hplain.
Qed.

Lemma loadResolutions_writes_only_rr_cache_witness :
  fst (loadResolutions demoExtern ["skill-a"; "skill-b"] demoRoot (Some (skillPackage "b"))
         (gitFS "meta with input_hashes")) = Ok true
  ∧ files (snd (loadResolutions demoExtern ["skill-a"; "skill-b"] demoRoot
                  (Some (skillPackage "b")) (gitFS "meta with input_hashes")))
      !! (demoRoot ++ configTs)
    = files (gitFS "meta with input_hashes") !! (demoRoot ++ configTs).
Proof.
  split; [vm_compute; reflexivity |].
  apply (loadResolutions_writes_only_rr_cache demoExtern ["skill-a"; "skill-b"] demoRoot
           (Some (skillPackage "b")) (gitFS "meta with input_hashes") (demoRoot ++ configTs)).
  - intros gitDirectory Hgit.
    assert (Hdir : gitDir demoExtern demoRoot (gitFS "meta with input_hashes")
                   = Some (demoRoot ++ [".git"])) by (vm_compute; reflexivity).
    rewrite Hdir in Hgit. injection Hgit as <-. vm_compute. reflexivity.
  - intros resDir pr token Hdir.
    assert (Hfound : findResolutionDir ["skill-a"; "skill-b"] demoRoot
                       (gitFS "meta with input_hashes") = Some shippedDir)
      by (vm_compute; reflexivity).
    rewrite Hfound in Hdir. injection Hdir as <-.
    assert (Hpairs : findPreimagePairs shippedDir shippedDir (gitFS "meta with input_hashes")
                     = [configPair; stalePair]) by (vm_compute; reflexivity).
    rewrite Hpairs, !elem_of_cons, elem_of_nil.
    intros [-> | [-> | []]] Htoken; right.
    + assert (Hside : files (gitFS "meta with input_hashes") !! sidecarOf configPair
                      = Some " abc123 ") by (vm_compute; reflexivity).
      rewrite Hside in Htoken. injection Htoken as <-. by vm_compute.
    + assert (Hside : files (gitFS "meta with input_hashes") !! sidecarOf stalePair
                      = Some "def456") by (vm_compute; reflexivity).
      rewrite Hside in Htoken. injection Htoken as <-. by vm_compute.
Defined.

(** X4. When [loadResolutions] returns false it has changed nothing, neither
    a file nor a directory. *)
Theorem loadResolutions_false_changes_nothing
    (E : Extern) (skillNames : list string) (root : path) (skillDir : option path)
    (f : FS) :
  fst (loadResolutions E skillNames root skillDir f) = Ok false →
  snd (loadResolutions E skillNames root skillDir f) = f.
Proof.
  unfold loadResolutions.
  destruct (findResolutionDir skillNames root f) as [resDir |]; [| done].
  destruct (files f !! (resDir ++ ["meta.yaml"])) as [text |]; [| done].
  destruct (parseMeta E text) as [[| meta] |]; [done | | done].
  destruct (meta_input_hashes meta); [| done].
  destruct (findPreimagePairs resDir resDir f) as [| pr rest]; [done |].
  destruct (gitDir E root f) as [gitDirectory |]; [| done].
  destruct (loadPairs _ _ _ _ _ _ _ _) as [r f'] eqn:Hrun. simpl.
  intros ->. by apply loadPairs_false in Hrun as [_ ->].
Qed.

Lemma loadResolutions_false_changes_nothing_witness :
  fst (loadResolutions demoExtern ["skill-a"; "skill-b"] demoRoot (Some (skillPackage "a"))
         (gitFS "meta with input_hashes")) = Ok false
  ∧ snd (loadResolutions demoExtern ["skill-a"; "skill-b"] demoRoot (Some (skillPackage "a"))
           (gitFS "meta with input_hashes"))
    = gitFS "meta with input_hashes".
Proof.
  assert (Hfalse : fst (loadResolutions demoExtern ["skill-a"; "skill-b"] demoRoot
                          (Some (skillPackage "a")) (gitFS "meta with input_hashes"))
                   = Ok false) by (vm_compute; reflexivity).
  exact (conj Hfalse
           (loadResolutions_false_changes_nothing demoExtern ["skill-a"; "skill-b"] demoRoot
              (Some (skillPackage "a")) (gitFS "meta with input_hashes") Hfalse)).
Defined.

Section LoopReturnProofs.
Context (E : Extern) (options : ReplayOptions).

(** The loop passes over a prefix that applies cleanly. *)
Lemma replayLoop_clean_prefix before rest acc w wi :
  applyCleanly E options before w = Some wi →
  ∃ acc',
    replayLoop E options (before ++ rest) acc w = replayLoop E options rest acc' wi ∧
    allMergeConflicts acc' = allMergeConflicts acc ∧
    acc_perSkill acc' = markSucceeded before (acc_perSkill acc).
Proof.
  revert acc w. induction before as [| n before IH]; intros acc w Hclean.
  - simpl in Hclean. injection Hclean as ->. by exists acc.
  - apply applyCleanly_cons in Hclean as (m & w1 & Hstep & Hrest).
    simpl. rewrite run_bind, (replayStep_clean E options _ acc _ _ _ Hstep).
    destruct (IH (collectStructured m (setPerSkill n succeeded acc)) _ Hrest)
      as (acc' & Hrun & Hconf & Hper).
    exists acc'. split; [done |]. split; [done |]. by rewrite Hper.
Qed.

Lemma worldBefore_run w before wi :
  worldBefore E options before w = Some wi →
  ∃ w0,
    replaySkills E options w =
      (exit ← replayLoop E options (skills options) emptyAcc;
       match exit with
       | LoopReturn r => mret r
       | LoopDone acc => finishReplay E (projectRoot options) acc
       end) w0 ∧
    applyCleanly E options before w0 = Some wi.
Proof.
  unfold worldBefore. intros Hbefore.
  destruct (collectTouched E _ _ [] (fs w)) as [[? | touched] | ?] eqn:Hcollect; try done.
  destruct (preloadResolutions E options _) as [[[] | ?] w0] eqn:Hpreload; [| done].
  exists w0. split; [| done].
  rewrite (replaySkills_reset E _ _ _ Hcollect).
  unfold replayFromBase. by rewrite run_bind, Hpreload.
Qed.

Lemma replaySkills_return_at w before s after wi r wi' :
  skills options = before ++ s :: after →
  worldBefore E options before w = Some wi →
  (∀ acc, replayStep E options s acc wi =
          (Ok (StepReturn (r (acc_perSkill acc))), wi')) →
  replaySkills E options w = (Ok (r (markSucceeded before ∅)), wi').
Proof.
  intros Hskills Hbefore Hstep.
  destruct (worldBefore_run w before wi Hbefore) as (w0 & -> & Hclean).
  destruct (replayLoop_clean_prefix before (s :: after) emptyAcc w0 wi Hclean)
    as (acc' & Hrun & _ & Hper).
  rewrite run_bind, Hskills, Hrun. simpl. rewrite run_bind, Hstep. simpl.
  by rewrite Hper.
Qed.

End LoopReturnProofs.

(** X5. An exception raised while a skill is applied does not escape
    [replaySkills]: when the skills before [s] apply cleanly and applying [s]
    throws, the call returns success = false with the error
    "Replay failed for s: message", [perSkill] holds the message for [s], the
    entry of success for every other skill listed before it and no entry for
    any other name, and there is no conflict list. *)
Theorem replaySkills_reports_exception
    (E : Extern) (options : ReplayOptions) (w : World)
    (before : list string) (s : string) (after : list string) (msg : string) :
  skills options = before ++ s :: after →
  appliedAt E options before s w = Some (Thrown msg) →
  ∃ r,
    fst (replaySkills E options w) = Ok r ∧
    success r = false ∧
    error r = Some ("Replay failed for " +:+ s +:+ ": " +:+ msg) ∧
    mergeConflicts r = None ∧
    perSkill r !! s = Some (failed msg) ∧
    (∀ n, n ∈ before → n ≠ s → perSkill r !! n = Some succeeded) ∧
    (∀ n, n ∉ before → n ≠ s → perSkill r !! n = None).
Proof.
  intros Hskills Hat. unfold appliedAt in Hat.
  destruct (worldBefore E options before w) as [wi |] eqn:Hbefore; [| done].
  simpl in Hat. injection Hat as Hat.
  destruct (applySkillFiles E _ _ wi) as [applied wi'] eqn:Happly. simpl in Hat. subst applied.
  rewrite (replaySkills_return_at E options w before s after wi
             (λ perSkill, mkReplayResult false (<[s := failed msg]> perSkill) None
                            (Some ("Replay failed for " +:+ s +:+ ": " +:+ msg)))
             wi' Hskills Hbefore).
  - eexists. split; [reflexivity |]. simpl.
    split; [done |]. split; [done |]. split; [done |].
    split; [by rewrite lookup_insert_eq |]. split.
    + intros n Hn Hne. rewrite lookup_insert_ne by done.
      rewrite lookup_markSucceeded. by rewrite decide_True.
    + intros n Hn Hne. rewrite lookup_insert_ne by done.
      rewrite lookup_markSucceeded. by rewrite decide_False.
  - intros acc. unfold replayStep, tryCatch. rewrite run_bind, Happly. done.
Qed.

Lemma replaySkills_reports_exception_witness :
  ∃ r,
    fst (replaySkills mergeThrowingExtern (demoOptions ["skill-c"; "skill-a"; "skill-b"])
           demoWorld) = Ok r ∧
    success r = false ∧
    error r = Some "Replay failed for skill-a: git merge-file: command not found" ∧
    perSkill r !! "skill-a" = Some (failed "git merge-file: command not found") ∧
    perSkill r !! "skill-c" = Some succeeded ∧
    perSkill r !! "skill-b" = None.
Proof.
  destruct (replaySkills_reports_exception mergeThrowingExtern
              (demoOptions ["skill-c"; "skill-a"; "skill-b"]) demoWorld
              ["skill-c"] "skill-a" ["skill-b"] "git merge-file: command not found")
    as (r & Hrun & Hfail & Herr & _ & Hs & Hbefore & Hafter).
  - reflexivity.
  - vm_compute. reflexivity.
  - exists r. split; [exact Hrun |]. split; [exact Hfail |]. split; [exact Herr |].
    split; [exact Hs |]. split.
    + apply Hbefore; [by apply list_elem_of_singleton | discriminate].
    + apply Hafter; [| discriminate]. intros Hin.
      apply list_elem_of_singleton in Hin. discriminate.
Defined.

(** ** The result of a replay *)

Section ResultProofs.
Context (E : Extern) (options : ReplayOptions).

(** How one turn of the loop over the skills can end: it never throws, and
    it sets the entry of its skill and nothing else. *)
Lemma replayStep_cases n acc w :
  match fst (replayStep E options n acc w) with
  | Ok (StepNext acc') =>
    acc_perSkill acc' = <[n := succeeded]> (acc_perSkill acc) ∧
    allMergeConflicts acc' = allMergeConflicts acc
  | Ok (StepBreak acc') =>
    ∃ msg c cs,
      acc_perSkill acc' = <[n := failed msg]> (acc_perSkill acc) ∧
      allMergeConflicts acc' = allMergeConflicts acc ++ c :: cs
  | Ok (StepReturn r) =>
    ∃ msg emsg,
      r = mkReplayResult false (<[n := failed msg]> (acc_perSkill acc)) None (Some emsg)
  | Thrown _ => False
  end.
Proof.
  unfold replayStep, tryCatch. rewrite run_bind.
  destruct (applySkillFiles E _ _ w) as [[[errors | m [| c cs]] | msg] w1]; simpl.
  - by eexists _, _.
  - done.
  - by eexists _, c, cs.
  - by eexists _, _.
Qed.

Lemma failedAt_cons n names p0 p :
  failedAt names (<[n := succeeded]> p0) p → failedAt (n :: names) p0 p.
Proof.
  intros (before & s & after & msg & -> & ->).
  by exists (n :: before), s, after, msg.
Qed.

Lemma replayLoop_cases names acc w :
  allMergeConflicts acc = [] →
  match fst (replayLoop E options names acc w) with
  | Ok (LoopDone acc') =>
    (allMergeConflicts acc' = [] ∧
     acc_perSkill acc' = markSucceeded names (acc_perSkill acc))
    ∨ (allMergeConflicts acc' ≠ [] ∧ failedAt names (acc_perSkill acc) (acc_perSkill acc'))
  | Ok (LoopReturn r) =>
    ∃ emsg p, r = mkReplayResult false p None (Some emsg) ∧
              failedAt names (acc_perSkill acc) p
  | Thrown _ => False
  end.
Proof.
  revert acc w. induction names as [| n names IH]; intros acc w Hconf; simpl.
  { by left. }
  rewrite run_bind. pose proof (replayStep_cases n acc w) as Hstep.
  destruct (replayStep E options n acc w) as [[[acc' | acc' | r] | msg] w1];
    simpl in Hstep; [| | | done].
  - destruct Hstep as [Hper Hconf'].
    specialize (IH acc' w1). rewrite Hconf', Hper in IH. specialize (IH Hconf).
    destruct (fst (replayLoop E options names acc' w1)) as [[acc2 | r] | ?]; [| | done].
    + destruct IH as [[? ?] | [? ?]]; [by left | right]. split; [done |].
      by apply failedAt_cons.
    + destruct IH as (emsg & p & -> & ?). exists emsg, p. split; [done |].
      by apply failedAt_cons.
  - destruct Hstep as (msg & c & cs & Hper & Hconf'). simpl. right. split.
    + rewrite Hconf', Hconf. done.
    + exists [], n, names, msg. by rewrite Hper.
  - destruct Hstep as (msg & emsg & ->). simpl.
    exists emsg, (<[n := failed msg]> (acc_perSkill acc)). split; [done |].
    by exists [], n, names, msg.
Qed.

Lemma finishReplay_cases acc w r :
  fst (finishReplay E (projectRoot options) acc w) = Ok r →
  perSkill r = acc_perSkill acc ∧
  if success r
  then allMergeConflicts acc = [] ∧ mergeConflicts r = None ∧ error r = None
  else allMergeConflicts acc ≠ [] ∧ is_Some (error r).
Proof.
  unfold finishReplay.
  destruct (allMergeConflicts acc) as [| c cs] eqn:Hconf; cycle 1.
  { rewrite run_ret. simpl. intros Heq. simplify_eq. simpl. split; [done |].
    split; [done |]. by eexists. }
  destruct (hasNpmDeps acc), (allEnvAdditions acc) as [| env envs],
    (bool_decide (allDockerServices acc = ∅));
  unfold mbind, M_bind, bind, tryCatch, logEvent, onFSRes, mret, M_ret, ret, emit, setFS;
  simpl;
  repeat match goal with
         | |- context [mergeNpmDependencies E ?a ?b ?c] =>
           destruct (mergeNpmDependencies E a b c) as [[[] | ?] ?]; simpl
         | |- context [mergeEnvAdditions E ?a ?b ?c] =>
           destruct (mergeEnvAdditions E a b c) as [[[] | ?] ?]; simpl
         | |- context [mergeDockerComposeServices E ?a ?b ?c] =>
           destruct (mergeDockerComposeServices E a b c) as [[[] | ?] ?]; simpl
         | |- context [runNpmInstall E ?a] =>
           destruct (runNpmInstall E a) as [[[] | ?] ?]; simpl
         end;
  intros Heq; by simplify_eq.
Qed.

(** The results of [replaySkills]: either every skill of the list succeeded,
    or the replay was left at one skill, the only one recorded as failed. *)
Lemma replaySkills_cases w r :
  fst (replaySkills E options w) = Ok r →
  if success r
  then perSkill r = markSucceeded (skills options) ∅ ∧
       mergeConflicts r = None ∧ error r = None
  else is_Some (error r) ∧
       ∃ before s after msg,
         skills options = before ++ s :: after ∧
         (perSkill r = <[s := failed msg]> (markSucceeded before ∅)
          ∨ perSkill r = {[ s := failed msg ]}).
Proof.
  unfold replaySkills. rewrite run_bind. simpl. rewrite run_bind. unfold liftRes.
  destruct (collectTouched E _ _ [] (fs w)) as [[s | touched] | msg] eqn:Hcollect;
    [| | done].
  { rewrite run_ret. simpl. intros Heq. simplify_eq. simpl. split; [by eexists |].
    assert (Hin : ∃ before after, skills options = before ++ s :: after).
    { clear -Hcollect. revert Hcollect. generalize (@nil path).
      induction (skills options) as [| n names IH]; intros acc; simpl; [done |].
      destruct (member (skillDirs options) n) as [d | |].
      - destruct (readManifest E d (fs w)); [| done].
        intros Hrest. destruct (IH _ Hrest) as (before & after & ->).
        by exists (n :: before), after.
      - done.
      - intros Heq. simplify_eq. by exists [], names. }
    destruct Hin as (before & after & Hskills).
    exists before, s, after, ("Skill directory not found for: " +:+ s). by split; [| right]. }
  rewrite run_bind. simpl. unfold replayFromBase. rewrite run_bind.
  destruct (preloadResolutions E options _) as [[[] | msg] w0]; [| done].
  rewrite run_bind.
  pose proof (replayLoop_cases (skills options) emptyAcc w0 eq_refl) as Hloop.
  destruct (replayLoop E options (skills options) emptyAcc w0) as [[[acc | r'] | msg] w1];
    simpl in Hloop; [| | done].
  - intros Hfinish. apply finishReplay_cases in Hfinish as [Hper Hfinish].
    destruct (success r).
    + destruct Hfinish as (Hconf & ? & ?).
      destruct Hloop as [[_ Hacc] | [Hne _]]; [| done].
      by rewrite Hper, Hacc.
    + destruct Hfinish as [Hconf ?]. split; [done |].
      destruct Hloop as [[? _] | [_ (before & s & after & msg & ? & Hacc)]]; [done |].
      exists before, s, after, msg. split; [done |]. left. by rewrite Hper, Hacc.
  - rewrite run_ret. simpl. intros Heq. simplify_eq.
    destruct Hloop as (emsg & p & -> & before & s & after & msg & ? & ->). simpl.
    split; [by eexists |]. exists before, s, after, msg. split; [done |]. by left.
Qed.

End ResultProofs.

(** X6. A result of [replaySkills] with success = true records every skill
    of the list as succeeded, has no entry for any other name, no conflict
    list and no error. *)
Theorem replaySkills_success_every_skill
    (E : Extern) (options : ReplayOptions) (w : World) (r : ReplayResult) :
  fst (replaySkills E options w) = Ok r →
  success r = true →
  (∀ n, n ∈ skills options → perSkill r !! n = Some succeeded) ∧
  (∀ n, n ∉ skills options → perSkill r !! n = None) ∧
  mergeConflicts r = None ∧
  error r = None.
Proof.
  intros Hrun Hsuccess. apply replaySkills_cases in Hrun. rewrite Hsuccess in Hrun.
  destruct Hrun as (Hper & Hconf & Herr). rewrite Hper.
  split; [| split; [| done]]; intros n Hn; rewrite lookup_markSucceeded.
  - by rewrite decide_True.
  - by rewrite decide_False.
Qed.

Lemma replaySkills_success_every_skill_witness :
  ∃ r,
    fst (replaySkills demoExtern (demoOptions ["skill-a"; "skill-c"]) demoWorld) = Ok r ∧
    success r = true ∧
    perSkill r !! "skill-a" = Some succeeded ∧
    perSkill r !! "skill-c" = Some succeeded ∧
    perSkill r !! "skill-b" = None ∧
    error r = None.
Proof.
  assert (Hrun : fst (replaySkills demoExtern (demoOptions ["skill-a"; "skill-c"]) demoWorld)
                 = Ok (mkReplayResult true
                         {[ "skill-a" := succeeded; "skill-c" := succeeded ]} None None)).
  { vm_compute. reflexivity. }
  destruct (replaySkills_success_every_skill demoExtern
              (demoOptions ["skill-a"; "skill-c"]) demoWorld _ Hrun eq_refl)
    as (Hin & Hout & _ & Herr).
  eexists. split; [exact Hrun |]. split; [reflexivity |].
  split; [apply Hin, elem_of_cons; by left |].
  split; [apply Hin, elem_of_cons; right; by apply list_elem_of_singleton |].
  split; [| exact Herr].
  apply Hout. intros Hb. apply elem_of_cons in Hb as [Hb | Hb]; [discriminate |].
  apply list_elem_of_singleton in Hb. discriminate.
Defined.

(** X7. A result of [replaySkills] with success = false carries an error
    message and records exactly one skill of the list as failed; every other
    name has either no entry or, being in the list, the entry of success. *)
Theorem replaySkills_failure_one_failed_skill
    (E : Extern) (options : ReplayOptions) (w : World) (r : ReplayResult) :
  fst (replaySkills E options w) = Ok r →
  success r = false →
  ∃ s msg emsg,
    s ∈ skills options ∧
    error r = Some emsg ∧
    perSkill r !! s = Some (failed msg) ∧
    ∀ n, n ≠ s →
         perSkill r !! n = None ∨ (n ∈ skills options ∧ perSkill r !! n = Some succeeded).
Proof.
  intros Hrun Hfail. apply replaySkills_cases in Hrun. rewrite Hfail in Hrun.
  destruct Hrun as ([emsg Herr] & before & s & after & msg & Hskills & Hper).
  exists s, msg, emsg. split; [| split; [done |]].
  { rewrite Hskills, elem_of_app, elem_of_cons. tauto. }
  destruct Hper as [-> | ->].
  - split; [by rewrite lookup_insert_eq |]. intros n Hne.
    rewrite lookup_insert_ne by done. rewrite lookup_markSucceeded.
    destruct (decide (n ∈ before)) as [Hin | _]; [right | by left].
    split; [| done]. rewrite Hskills, elem_of_app. tauto.
  - split; [by rewrite lookup_singleton_eq |]. intros n Hne. left.
    by rewrite lookup_singleton_ne.
Qed.

Lemma replaySkills_failure_one_failed_skill_witness :
  ∃ r s msg emsg,
    fst (replaySkills demoExtern (demoOptions ["skill-a"; "skill-b"; "skill-c"]) demoWorld)
      = Ok r ∧
    success r = false ∧
    s ∈ ["skill-a"; "skill-b"; "skill-c"] ∧
    error r = Some emsg ∧
    perSkill r !! s = Some (failed msg).
Proof.
  assert (Hrun : fst (replaySkills demoExtern
                        (demoOptions ["skill-a"; "skill-b"; "skill-c"]) demoWorld)
                 = Ok (mkReplayResult false
                         {[ "skill-a" := succeeded;
                            "skill-b" := failed "Merge conflicts: src/config.ts" ]}
                         (Some [configTs])
                         (Some "Unresolved merge conflicts: src/config.ts"))).
  { vm_compute. reflexivity. }
  destruct (replaySkills_failure_one_failed_skill demoExtern
              (demoOptions ["skill-a"; "skill-b"; "skill-c"]) demoWorld _ Hrun eq_refl)
    as (s & msg & emsg & Hin & Herr & Hs & _).
  eexists _, s, msg, emsg. split; [exact Hrun |]. split; [reflexivity |].
  split; [exact Hin |]. split; [exact Herr | exact Hs].
Defined.

(** X8. When the skills before [s] apply cleanly and the file operations of
    [s] fail, [replaySkills] returns success = false with the error
    "File ops failed for s"; [perSkill] holds for [s] the errors of the
    operations joined by "; ", the entry of success for every other skill
    listed before it and no entry for any other name. *)
Theorem replaySkills_file_ops_failure
    (E : Extern) (options : ReplayOptions) (w : World)
    (before : list string) (s : string) (after : list string) (errors : list string) :
  skills options = before ++ s :: after →
  appliedAt E options before s w = Some (Ok (FileOpsFailed errors)) →
  ∃ r,
    fst (replaySkills E options w) = Ok r ∧
    success r = false ∧
    error r = Some ("File ops failed for " +:+ s) ∧
    mergeConflicts r = None ∧
    perSkill r !! s
      = Some (failed ("File operations failed: " +:+ String.concat "; " errors)) ∧
    (∀ n, n ∈ before → n ≠ s → perSkill r !! n = Some succeeded) ∧
    (∀ n, n ∉ before → n ≠ s → perSkill r !! n = None).
Proof.
  intros Hskills Hat. unfold appliedAt in Hat.
  destruct (worldBefore E options before w) as [wi |] eqn:Hbefore; [| done].
  simpl in Hat. injection Hat as Hat.
  destruct (applySkillFiles E _ _ wi) as [applied wi'] eqn:Happly. simpl in Hat. subst applied.
  rewrite (replaySkills_return_at E options w before s after wi
             (λ perSkill,
                mkReplayResult false
                  (<[s := failed ("File operations failed: " +:+ String.concat "; " errors)]>
                     perSkill)
                  None (Some ("File ops failed for " +:+ s)))
             wi' Hskills Hbefore).
  - eexists. split; [reflexivity |]. simpl.
    split; [done |]. split; [done |]. split; [done |].
    split; [by rewrite lookup_insert_eq |]. split.
    + intros n Hn Hne. rewrite lookup_insert_ne by done.
      rewrite lookup_markSucceeded. by rewrite decide_True.
    + intros n Hn Hne. rewrite lookup_insert_ne by done.
      rewrite lookup_markSucceeded. by rewrite decide_False.
  - intros acc. unfold replayStep, tryCatch. rewrite run_bind, Happly. done.
Qed.

Lemma replaySkills_file_ops_failure_witness :
  ∃ r,
    fst (replaySkills fileOpsExtern fileOpsOptions demoWorld) = Ok r ∧
    success r = false ∧
    error r = Some "File ops failed for skill-f" ∧
    perSkill r !! "skill-f"
      = Some (failed "File operations failed: delete: src/legacy.ts not found; aborted") ∧
    perSkill r !! "skill-a" = Some succeeded ∧
    perSkill r !! "skill-c" = None.
Proof.
  destruct (replaySkills_file_ops_failure fileOpsExtern fileOpsOptions demoWorld
              ["skill-a"] "skill-f" ["skill-c"]
              ["delete: src/legacy.ts not found"; "aborted"])
    as (r & Hrun & Hfail & Herr & _ & Hs & Hbefore & Hafter).
  - reflexivity.
  - vm_compute. reflexivity.
  - exists r. split; [exact Hrun |]. split; [exact Hfail |]. split; [exact Herr |].
    split; [exact Hs |]. split.
    + apply Hbefore; [by apply list_elem_of_singleton | discriminate].
    + apply Hafter; [| discriminate]. intros Hin.
      apply list_elem_of_singleton in Hin. discriminate.
Defined.

(** ** An empty list of skills *)

Lemma resolutionKey_nil : resolutionKey [] = "".
Proof. reflexivity. Qed.

(** X9. With an empty list of skills, in a project whose two resolution
    roots hold no [meta.yaml] of their own, [replaySkills] returns
    success = true with an empty [perSkill] and leaves the world as it was.
    (The key of the empty list is the empty string, so that the resolution
    directory looked up is a resolution root itself.) *)
Theorem replaySkills_empty_list (E : Extern) (options : ReplayOptions) (w : World) :
  skills options = [] →
  files (fs w) !! (projectRoot options ++ SHIPPED_RESOLUTIONS_DIR ++ ["meta.yaml"]) = None →
  files (fs w) !! (projectRoot options ++ RESOLUTIONS_DIR ++ ["meta.yaml"]) = None →
  replaySkills E options w = (Ok (mkReplayResult true ∅ None None), w).
Proof.
  intros Hskills Hshipped Hlocal.
  assert (Hload : ∀ skillDir,
            loadResolutions E [] (projectRoot options) skillDir (fs w) = (Ok false, fs w)).
  { intros skillDir. unfold loadResolutions, findResolutionDir.
    rewrite resolutionKey_nil. change (segment "") with (@nil string). simpl.
    destruct (existsSync _ (fs w)).
    - rewrite <- !app_assoc. simpl in *. by rewrite Hshipped.
    - destruct (existsSync _ (fs w)); [| done].
      rewrite <- !app_assoc. simpl in *. by rewrite Hlocal. }
  unfold replaySkills. rewrite run_bind. simpl. rewrite run_bind. unfold liftRes.
  rewrite Hskills. simpl. rewrite run_bind. simpl.
  unfold replayFromBase. rewrite run_bind.
  unfold preloadResolutions. rewrite Hskills, Hload. simpl.
  by destruct w.
Qed.

Lemma replaySkills_empty_list_witness :
  replaySkills demoExtern (demoOptions []) demoWorld
  = (Ok (mkReplayResult true ∅ None None), demoWorld).
Proof.
  apply (replaySkills_empty_list demoExtern (demoOptions []) demoWorld).
  - reflexivity.
  - vm_compute. reflexivity.
  - vm_compute. reflexivity.
Defined.

(** ** The reset step, twice *)



(** ** [findSkillDir] *)

Lemma skillPackages_elem (skillsRoot dir : path) (f : FS) :
  dir ∈ skillPackages skillsRoot f ↔
  ∃ pkg, dir = skillsRoot ++ [pkg] ∧ is_Some (files f !! (dir ++ ["manifest.yaml"])).
Proof.
  unfold skillPackages. rewrite list_elem_of_omap. split.
  - intros (q & Hp & Hdir).
    apply elem_of_filesInOrder in Hp as [c Hq].
    destruct (bool_decide _) eqn:Heq; [| done]. apply bool_decide_eq_true in Heq.
    destruct (isBelow skillsRoot q) eqn:Hbelow; [| done]. simpl in Hdir.
    injection Hdir as <-.
    apply isBelow_spec in Hbelow as ([| pkg rest] & Hne & ->); [done |].
    exists pkg.
    assert (Htake : take (S (length skillsRoot)) (skillsRoot ++ pkg :: rest)
                    = skillsRoot ++ [pkg]).
    { rewrite take_app_ge by lia.
      replace (S (length skillsRoot) - length skillsRoot) with 1 by lia. done. }
    rewrite Htake in *. split; [done |]. rewrite <- Heq. by exists c.
  - intros (pkg & -> & [c Hc]). exists ((skillsRoot ++ [pkg]) ++ ["manifest.yaml"]).
    split.
    + apply elem_of_filesInOrder. by exists c.
    + assert (Htake : take (S (length skillsRoot))
                        ((skillsRoot ++ [pkg]) ++ ["manifest.yaml"])
                      = skillsRoot ++ [pkg]).
      { rewrite <- app_assoc. rewrite take_app_ge by lia.
        replace (S (length skillsRoot) - length skillsRoot) with 1 by lia. done. }
      rewrite Htake, bool_decide_true by done.
      rewrite <- app_assoc, isBelow_app by done. done.
Qed.

(** X11. When [findSkillDir] returns a directory, it is a direct
    sub-directory of [.gemini/skills] that holds a [manifest.yaml] and whose
    manifest can be read and names the skill; when it returns nothing, no
    sub-directory of [.gemini/skills] with a [manifest.yaml] has a readable
    manifest that names the skill.  A manifest that cannot be read is passed
    over. *)
Theorem findSkillDir_finds_named_package
    (E : Extern) (skillName : string) (root : path) (f : FS) :
  match findSkillDir E skillName root f with
  | Some dir =>
    ∃ pkg manifest,
      dir = root ++ [".gemini"; "skills"; pkg] ∧
      is_Some (files f !! (dir ++ ["manifest.yaml"])) ∧
      readManifest E dir f = Ok manifest ∧
      skill manifest = skillName
  | None =>
    ∀ pkg manifest,
      is_Some (files f !! (root ++ [".gemini"; "skills"; pkg; "manifest.yaml"])) →
      readManifest E (root ++ [".gemini"; "skills"; pkg]) f = Ok manifest →
      skill manifest ≠ skillName
  end.
Proof.
  unfold findSkillDir.
  destruct (existsSync (root ++ [".gemini"; "skills"]) f) eqn:Hroot; simpl.
  - destruct (List.find _ _) as [dir |] eqn:Hfind.
    + apply find_some in Hfind as [Hin Hskill].
      apply list_elem_of_In, skillPackages_elem in Hin as (pkg & -> & Hfile).
      destruct (readManifest E _ f) as [manifest |] eqn:Hread; [| done].
      apply String.eqb_eq in Hskill.
      exists pkg, manifest. rewrite <- !app_assoc in *. simpl in *. done.
    + intros pkg manifest Hfile Hread Hskill.
      assert (Hin : In (root ++ [".gemini"; "skills"; pkg])
                       (skillPackages (root ++ [".gemini"; "skills"]) f)).
      { apply list_elem_of_In, skillPackages_elem. exists pkg.
        rewrite <- !app_assoc. simpl. done. }
      pose proof (find_none _ _ Hfind _ Hin) as Hnone. simpl in Hnone.
      rewrite Hread in Hnone. apply String.eqb_neq in Hnone. done.
  - intros pkg manifest Hfile _ _.
    unfold existsSync in Hroot. apply orb_false_iff in Hroot as [_ Hdir].
    assert (Htrue : dirExists (root ++ [".gemini"; "skills"]) f = true); [| congruence].
    apply dirExists_spec. right. eexists. split; [exact Hfile |].
    change (root ++ [".gemini"; "skills"; pkg; "manifest.yaml"])
      with (root ++ [".gemini"; "skills"] ++ [pkg; "manifest.yaml"]).
    rewrite app_assoc. by apply isBelow_app.
Qed.

(** ** Uninstall: a skill that is not applied *)

Lemma find_none_intro {A} (p : A → bool) (l : list A) :
  (∀ x, x ∈ l → p x = false) → List.find p l = None.
Proof.
  induction l as [| x l IH]; intros Hall; simpl; [done |].
  rewrite (Hall x) by (apply elem_of_cons; by left).
  apply IH. intros y Hy. apply Hall, elem_of_cons. by right.
Qed.

(** X12. After no rebase, uninstalling a skill that is not among the applied
    skills returns success = false with the error "Skill "name" is not
    applied." and does nothing: the world returned is the world of the
    call. *)
Theorem uninstallSkill_not_applied
    (E : Extern) (root : path) (skillName : string) (w : World) :
  truthy (rebased_at (doc w)) = false →
  (∀ s, s ∈ applied_skills (doc w) → name s ≠ skillName) →
  uninstallSkill E root skillName w =
    (Ok (failure skillName ("Skill " +:+ dq +:+ skillName +:+ dq +:+ " is not applied.")), w).
Proof.
  intros Hrebased Hnone. unfold uninstallSkill. rewrite run_bind. unfold readState.
  rewrite Hrebased, find_none_intro; [done |].
  intros s Hs. apply String.eqb_neq. by apply Hnone.
Qed.

Lemma uninstallSkill_not_applied_witness :
  uninstallSkill demoExtern demoRoot "skill-b" demoWorld =
    (Ok (failure "skill-b" ("Skill " +:+ dq +:+ "skill-b" +:+ dq +:+ " is not applied.")),
     demoWorld).
Proof.
  apply (uninstallSkill_not_applied demoExtern demoRoot "skill-b" demoWorld).
  - reflexivity.
  - intros s Hs. apply elem_of_cons in Hs as [-> | Hs]; [discriminate |].
    apply list_elem_of_singleton in Hs as ->. discriminate.
Defined.

(** ** Uninstall: the state that is written *)

Lemma names_filter (skillName : string) (l : list AppliedSkill) (g : AppliedSkill → AppliedSkill) :
  (∀ s, name (g s) = name s) →
  name <$> (g <$> filter (λ s, name s ≠ skillName) l)
  = filter (λ n, n ≠ skillName) (name <$> l).
Proof.
  intros Hg. induction l as [| s l IH]; [done |].
  rewrite fmap_cons, !filter_cons.
  destruct (decide (name s ≠ skillName)); [| done].
  by rewrite !fmap_cons, Hg, IH.
Qed.

Section UninstallState.
Context (E : Extern) (root : path) (skillName : string).

Lemma restore_not_success {Q : Prop} (x r : UninstallResult) (w : World) :
  fst ((doRestoreBackup E;; doClearBackup E;; mret x) w) = Ok r →
  un_success x = false →
  un_success r = true → Q.
Proof.
  intros Heq Hx Hr. destruct (run_restore_cases E x w) as (_ & _ & _ & Hsame).
  rewrite (Hsame r Heq) in Hr. congruence.
Qed.

(** When the body of the [try] ends with success, it has written the state
    it was given without the removed skill. *)
Lemma uninstallBody_success state skillEntry w r :
  fst (uninstallBody E root skillName state skillEntry w) = Ok r →
  un_success r = true →
  ∃ f,
    doc (snd (uninstallBody E root skillName state skillEntry w))
    = mkSystemState (core_version state)
        (refreshHashes E root f <$> filter (λ s, name s ≠ skillName) (applied_skills state))
        (rebased_at state) (custom_modifications state).
Proof.
  unfold uninstallBody. rewrite run_bind, run_doCreateBackup.
  generalize (setFS (snd (createBackup E ((λ f, root ++ f) <$> allTouchedFiles state) (fs w)))
                (emit (EvCreateBackup ((λ f, root ++ f) <$> allTouchedFiles state)) w)).
  intros w1.
  destruct (fst (createBackup E _ (fs w))) as [[] | msg]; cbn beta iota; [| done].
  rewrite run_bind. simpl.
  destruct (locateSkillDirs E root _ ∅ (fs w1)) as [missing | dirsOf].
  { intros Heq Hr; first [exact (restore_not_success _ _ _ Heq eq_refl Hr) | by simplify_eq]. }
  rewrite run_bind. simpl. rewrite run_bind.
  destruct (replaySkills E _ _) as [[replayResult | msg] w3]; [| done].
  destruct (success replayResult); simpl; cycle 1.
  { intros Heq Hr; first [exact (restore_not_success _ _ _ Heq eq_refl Hr) | by simplify_eq]. }
  rewrite run_bind.
  destruct (reapplyCustom E root state w3) as [[[] | msg] w4]; [| done].
  rewrite run_bind.
  destruct (runSkillTests E skillName (applied_skills state) [] w4)
    as [[results | msg] w5]; [| done].
  destruct (filter _ results) as [| failedTest failedTests].
  - intros _ _. exists (fs w5).
    unfold writeState, doClearBackup, mbind, M_bind, bind, getFS, logEvent, onFSRes, emit,
      setFS.
    simpl. by destruct (clearBackup E (fs w5)) as [[[] | ?] ?].
  - intros Heq Hr; first [exact (restore_not_success _ _ _ Heq eq_refl Hr) | by simplify_eq].
Qed.

End UninstallState.

(** X13. When [uninstallSkill] succeeds, the state document it leaves lists
    the applied skills of before without the removed skill, in their order
    and with their versions, and keeps the core version, the rebase mark and
    the custom modifications. *)
Theorem uninstallSkill_success_state
    (E : Extern) (root : path) (skillName : string) (w : World) (r : UninstallResult) :
  fst (uninstallSkill E root skillName w) = Ok r →
  un_success r = true →
  let state' := doc (snd (uninstallSkill E root skillName w)) in
  name <$> applied_skills state'
    = filter (λ n, n ≠ skillName) (name <$> applied_skills (doc w)) ∧
  version <$> applied_skills state'
    = version <$> filter (λ s, name s ≠ skillName) (applied_skills (doc w)) ∧
  core_version state' = core_version (doc w) ∧
  rebased_at state' = rebased_at (doc w) ∧
  custom_modifications state' = custom_modifications (doc w).
Proof.
  cbv zeta. unfold uninstallSkill. rewrite run_bind. unfold readState.
  destruct (truthy (rebased_at (doc w))).
  { rewrite run_ret. simpl. intros Heq Hr. by simplify_eq. }
  destruct (List.find _ (applied_skills (doc w))) as [skillEntry |]; cycle 1.
  { rewrite run_ret. simpl. intros Heq Hr. by simplify_eq. }
  destruct (truthy (custom_patch skillEntry)).
  { rewrite run_ret. simpl. intros Heq Hr. by simplify_eq. }
  rewrite run_bind. unfold acquireLock.
  destruct (lockHeld w); [done |].
  cbn beta iota. rewrite run_finally_release. unfold tryCatch.
  set (w1 := emit EvAcquireLock (mkWorld (fs w) (doc w) true (log w))).
  pose proof (uninstallBody_success E root skillName (doc w) skillEntry w1) as Hbody.
  destruct (uninstallBody E root skillName (doc w) skillEntry w1) as [[r' | msg] w2];
    cbn beta iota; simpl.
  - intros Heq Hr. simplify_eq. destruct (Hbody r eq_refl Hr) as [f Hdoc].
    simpl in Hdoc. rewrite Hdoc. simpl.
    split; [by apply names_filter |]. split; [| done].
    rewrite <- list_fmap_compose. done.
  - intros Heq Hr. exact (restore_not_success E _ _ _ Heq eq_refl Hr).
Qed.

Lemma uninstallSkill_success_state_witness :
  ∃ r,
    fst (uninstallSkill demoExtern demoRoot "skill-a" demoWorld) = Ok r ∧
    un_success r = true ∧
    name <$> applied_skills (doc demoWorld) = ["skill-a"; "skill-c"] ∧
    name <$> applied_skills (doc (snd (uninstallSkill demoExtern demoRoot "skill-a" demoWorld)))
      = ["skill-c"].
Proof.
  assert (Hrun : fst (uninstallSkill demoExtern demoRoot "skill-a" demoWorld)
                 = Ok (mkUninstallResult true "skill-a" None None None)).
  { vm_compute. reflexivity. }
  destruct (uninstallSkill_success_state demoExtern demoRoot "skill-a" demoWorld _
              Hrun eq_refl) as (Hnames & _).
  eexists. split; [exact Hrun |]. split; [reflexivity |]. split; [reflexivity |].
  exact Hnames.
Defined.

(** ** Uninstall: what is backed up *)

#[global] Instance noBackupFrame_preorder : PreOrder noBackupFrame.
Proof.
  split.
  - intros w. exists []. by rewrite app_nil_r.
  - intros w1 w2 w3 (evs1 & He1 & Hs1) (evs2 & He2 & Hs2).
    exists (evs1 ++ evs2). split; [by rewrite He2, He1, app_assoc |].
    by apply Forall_app.
Qed.

Lemma noBackupFrame_setFS w f : noBackupFrame w (setFS f w).
Proof. exists []. by rewrite app_nil_r. Qed.

Lemma noBackupFrame_replayFrame w w' : replayFrame w w' → noBackupFrame w w'.
Proof.
  intros (_ & _ & evs & Hlog & Hevs). exists evs. split; [done |].
  eapply Forall_impl; [exact Hevs |]. by intros [].
Qed.

Lemma preserves_logEvent_noBackup e :
  isBackupCreation e = false → preserves noBackupFrame (logEvent e).
Proof. intros He w. exists [e]. split; [done |]. by apply Forall_singleton. Qed.

Lemma preserves_writeState_noBackup state : preserves noBackupFrame (writeState state).
Proof. intros w. exists [EvWriteState]. split; [done |]. by apply Forall_singleton. Qed.

Lemma preserves_releaseLock_noBackup : preserves noBackupFrame releaseLock.
Proof. intros w. exists [EvReleaseLock]. split; [done |]. by apply Forall_singleton. Qed.

Section UninstallBackup.
Context (E : Extern) (root : path) (skillName : string).

Lemma preserves_restore_noBackup : preserves noBackupFrame (doRestoreBackup E).
Proof.
  pose proof noBackupFrame_setFS. pose proof noBackupFrame_preorder.
  pose proof (preserves_logEvent_noBackup EvRestoreBackup eq_refl).
  unfold doRestoreBackup. preserves_steps.
Qed.

Lemma preserves_clear_noBackup : preserves noBackupFrame (doClearBackup E).
Proof.
  pose proof noBackupFrame_setFS. pose proof noBackupFrame_preorder.
  pose proof (preserves_logEvent_noBackup EvClearBackup eq_refl).
  unfold doClearBackup. preserves_steps.
Qed.

Lemma preserves_replaySkills_noBackup options :
  preserves noBackupFrame (replaySkills E options).
Proof. intros w. apply noBackupFrame_replayFrame, preserves_replaySkills. Qed.

(** The body of the [try] creates the backup first, of the files recorded
    in the state, and creates no other. *)
Lemma uninstallBody_backup state skillEntry w :
  ∃ rest,
    log (snd (uninstallBody E root skillName state skillEntry w))
    = log w ++ EvCreateBackup ((λ f, root ++ f) <$> allTouchedFiles state) :: rest ∧
    Forall (λ e, isBackupCreation e = false) rest.
Proof.
  unfold uninstallBody. rewrite run_bind, run_doCreateBackup.
  set (l := (λ f, root ++ f) <$> allTouchedFiles state).
  set (w1 := setFS (snd (createBackup E l (fs w))) (emit (EvCreateBackup l) w)).
  destruct (fst (createBackup E l (fs w))) as [[] | msg]; cbn beta iota; cycle 1.
  { exists []. split; [by subst w1 | constructor]. }
  match goal with |- context [?k w1] =>
    assert (Hrest : preserves noBackupFrame k)
  end.
  { pose proof noBackupFrame_setFS. pose proof noBackupFrame_preorder.
    pose proof preserves_restore_noBackup. pose proof preserves_clear_noBackup.
    pose proof preserves_replaySkills_noBackup.
    pose proof preserves_writeState_noBackup.
    pose proof (preserves_reapplyCustom E noBackupFrame noBackupFrame_setFS).
    pose proof (preserves_runSkillTests E noBackupFrame noBackupFrame_setFS).
    cbv zeta. preserves_steps. }
  destruct (Hrest w1) as (rest & Hlog & Hnone).
  exists rest. split; [| done]. rewrite Hlog. subst w1. simpl.
  by rewrite <- app_assoc.
Qed.

End UninstallBackup.

Lemma elem_of_allTouchedFiles (state : SystemState) (p : path) :
  p ∈ allTouchedFiles state ↔
  (∃ s, s ∈ applied_skills state ∧ p ∈ (fst <$> file_hashes s)) ∨
  (∃ mods cm, custom_modifications state = Some mods ∧ cm ∈ mods ∧ p ∈ files_modified cm).
Proof.
  unfold allTouchedFiles.
  assert (Hskills : ∀ l acc,
            p ∈ foldl (λ acc s, foldl addTouched acc (fst <$> file_hashes s)) acc l ↔
            p ∈ acc ∨ ∃ s, s ∈ l ∧ p ∈ (fst <$> file_hashes s)).
  { induction l as [| s l IH]; intros acc; simpl.
    - split; [by left |]. intros [? | (s & Hs & _)]; [done |]. by apply elem_of_nil in Hs.
    - rewrite IH, elem_of_foldl_addTouched. split.
      + intros [[? | ?] | (s' & ? & ?)]; [by left | right | right].
        * exists s. split; [apply elem_of_cons; by left | done].
        * exists s'. split; [apply elem_of_cons; by right | done].
      + intros [? | (s' & Hs' & ?)]; [by left; left |].
        apply elem_of_cons in Hs' as [-> | ?]; [left; by right | right; by exists s']. }
  assert (Hmods : ∀ l acc,
            p ∈ foldl (λ acc cm, foldl addTouched acc (files_modified cm)) acc l ↔
            p ∈ acc ∨ ∃ cm, cm ∈ l ∧ p ∈ files_modified cm).
  { induction l as [| cm l IH]; intros acc; simpl.
    - split; [by left |]. intros [? | (s & Hs & _)]; [done |]. by apply elem_of_nil in Hs.
    - rewrite IH, elem_of_foldl_addTouched. split.
      + intros [[? | ?] | (cm' & ? & ?)]; [by left | right | right].
        * exists cm. split; [apply elem_of_cons; by left | done].
        * exists cm'. split; [apply elem_of_cons; by right | done].
      + intros [? | (cm' & Hcm' & ?)]; [by left; left |].
        apply elem_of_cons in Hcm' as [-> | ?]; [left; by right | right; by exists cm']. }
  destruct (custom_modifications state) as [mods |].
  - rewrite Hmods, Hskills, elem_of_nil. split.
    + intros [[[] | ?] | (cm & ? & ?)]; [by left | right]. by exists mods, cm.
    + intros [? | (mods' & cm & Heq & ? & ?)]; [left; by right | right].
      simplify_eq. by exists cm.
  - rewrite Hskills, elem_of_nil. split.
    + intros [[] | ?]. by left.
    + intros [? | (? & ? & ? & _)]; [by right | done].
Qed.

Lemma uninstallSkill_log_shape
    (E : Extern) (root : path) (skillName : string) (w : World) :
  log (snd (uninstallSkill E root skillName w)) = log w ∨
  ∃ rest,
    log (snd (uninstallSkill E root skillName w))
    = log w ++ EvAcquireLock
        :: EvCreateBackup ((λ f, root ++ f) <$> allTouchedFiles (doc w)) :: rest ∧
    Forall (λ e, isBackupCreation e = false) rest.
Proof.
  unfold uninstallSkill. rewrite run_bind. unfold readState.
  destruct (truthy (rebased_at (doc w))); [by left |].
  destruct (List.find _ (applied_skills (doc w))) as [skillEntry |]; [| by left].
  destruct (truthy (custom_patch skillEntry)); [by left |].
  rewrite run_bind. unfold acquireLock.
  destruct (lockHeld w) eqn:Hheld; [by left |].
  right. cbn beta iota. rewrite run_finally_release. unfold tryCatch.
  set (w1 := emit EvAcquireLock (mkWorld (fs w) (doc w) true (log w))).
  destruct (uninstallBody_backup E root skillName (doc w) skillEntry w1)
    as (rest & Hbody & Hrest).
  destruct (uninstallBody E root skillName (doc w) skillEntry w1) as [[r | msg] w2];
    simpl in Hbody; cbn beta iota.
  - simpl. rewrite Hbody. subst w1. simpl.
    exists (rest ++ [EvReleaseLock]). split; [by flatten_log |].
    apply Forall_app. split; [done |]. by apply Forall_singleton.
  - destruct (run_restore_cases E (failure skillName msg) w2) as (_ & _ & Hlog & _).
    simpl. destruct Hlog as [-> | ->]; rewrite Hbody; subst w1; simpl.
    + exists (rest ++ [EvRestoreBackup; EvReleaseLock]).
      split; [by flatten_log |].
      apply Forall_app. split; [done |]. by repeat constructor.
    + exists (rest ++ [EvRestoreBackup; EvClearBackup; EvReleaseLock]).
      split; [by flatten_log |].
      apply Forall_app. split; [done |]. by repeat constructor.
Qed.

(** X14. When [uninstallSkill] creates a backup, it does so right after
    acquiring the lock and before any other logged step, it creates no other,
    and the files backed up are, under the project root, exactly the files
    that the state records for some applied skill (the removed one included)
    or for some custom modification. *)
Theorem uninstallSkill_backs_up_recorded_files
    (E : Extern) (root : path) (skillName : string) (w : World)
    (evs : list Event) (backedUp : list path) :
  log (snd (uninstallSkill E root skillName w)) = log w ++ evs →
  EvCreateBackup backedUp ∈ evs →
  (∃ rest, evs = EvAcquireLock :: EvCreateBackup backedUp :: rest ∧
           ∀ other, EvCreateBackup other ∉ rest) ∧
  ∀ q, q ∈ backedUp ↔
       ∃ p, q = root ++ p ∧
            ((∃ s, s ∈ applied_skills (doc w) ∧ p ∈ (fst <$> file_hashes s)) ∨
             (∃ mods cm, custom_modifications (doc w) = Some mods ∧ cm ∈ mods ∧
                         p ∈ files_modified cm)).
Proof.
  intros Hlog Hin.
  destruct (uninstallSkill_log_shape E root skillName w) as [Hsame | (rest & Hshape & Hrest)].
  { rewrite Hsame in Hlog. rewrite <- (app_nil_r (log w)) in Hlog at 1.
    apply app_inv_head in Hlog. subst evs. by apply elem_of_nil in Hin. }
  rewrite Hshape in Hlog. apply app_inv_head in Hlog. subst evs.
  assert (Hfresh : ∀ other, EvCreateBackup other ∉ rest).
  { intros other Hother. eapply Forall_forall in Hrest; [| exact Hother]. done. }
  apply elem_of_cons in Hin as [? | Hin]; [done |].
  apply elem_of_cons in Hin as [Heq | Hin]; [| by apply Hfresh in Hin].
  injection Heq as ->. split; [by exists rest |].
  intros q. rewrite list_elem_of_fmap. setoid_rewrite elem_of_allTouchedFiles. done.
Qed.

Lemma uninstallSkill_backs_up_recorded_files_witness :
  log (snd (uninstallSkill demoExtern demoRoot "skill-c" conflictWorld))
  = log conflictWorld ++
      [EvAcquireLock; EvCreateBackup [demoRoot ++ configTs; demoRoot ++ newfileTs];
       EvRestoreBackup; EvClearBackup; EvReleaseLock]
  ∧ ∃ p, demoRoot ++ newfileTs = demoRoot ++ p ∧
         ((∃ s, s ∈ applied_skills (doc conflictWorld) ∧ p ∈ (fst <$> file_hashes s)) ∨
          (∃ mods cm, custom_modifications (doc conflictWorld) = Some mods ∧ cm ∈ mods ∧
                      p ∈ files_modified cm)).
Proof.
  assert (Hlog : log (snd (uninstallSkill demoExtern demoRoot "skill-c" conflictWorld))
                 = log conflictWorld ++
                     [EvAcquireLock;
                      EvCreateBackup [demoRoot ++ configTs; demoRoot ++ newfileTs];
                      EvRestoreBackup; EvClearBackup; EvReleaseLock]).
  { vm_compute. reflexivity. }
  split; [exact Hlog |].
  destruct (uninstallSkill_backs_up_recorded_files demoExtern demoRoot "skill-c"
              conflictWorld _ [demoRoot ++ configTs; demoRoot ++ newfileTs] Hlog)
    as [_ Hfiles].
  - apply elem_of_cons. right. apply elem_of_cons. left. reflexivity.
  - apply (proj1 (Hfiles (demoRoot ++ newfileTs))).
    apply elem_of_cons. right. apply elem_of_cons. left. reflexivity.
Defined.

(** ** Uninstall: the tests of the remaining skills *)

Lemma setResult_keys (n : string) (b : bool) (l : list (string * bool)) (k : string) :
  k ∈ (fst <$> setResult n b l) ↔ k = n ∨ k ∈ (fst <$> l).
Proof.
  induction l as [| [n' b'] l IH]; simpl.
  - rewrite list_elem_of_singleton, elem_of_nil. tauto.
  - destruct (String.eqb n' n) eqn:Heq.
    + apply String.eqb_eq in Heq as ->. simpl. rewrite elem_of_cons. tauto.
    + simpl. rewrite !elem_of_cons, IH. tauto.
Qed.

Section TestProofs.
Context (E : Extern) (root : path) (skillName : string).

Lemma runSkillTests_keys applied results0 w :
  ∃ results,
    fst (runSkillTests E skillName applied results0 w) = Ok results ∧
    ∀ k, k ∈ (fst <$> results) ↔ k ∈ (fst <$> results0) ∨ tested skillName applied k.
Proof.
  revert results0 w. induction applied as [| s applied IH]; intros results0 w; simpl.
  { exists results0. split; [done |]. intros k. split; [by left |].
    intros [? | (_ & s & Hs & _)]; [done |]. by apply elem_of_nil in Hs. }
  assert (Hskip : ∀ k, (String.eqb (name s) skillName = true
                        ∨ truthy (structured_outcomes_test s) = false) →
            (k ∈ (fst <$> results0) ∨ tested skillName applied k) ↔
            (k ∈ (fst <$> results0) ∨ tested skillName (s :: applied) k)).
  { intros k Hs. split; (intros [? | (Hne & s' & Hin & Hname & Htest)]; [by left | right]).
    - split; [done |]. exists s'. split; [apply elem_of_cons; by right | done].
    - split; [done |]. exists s'. split; [| done].
      apply elem_of_cons in Hin as [-> | ?]; [| done].
      destruct Hs as [Hs | Hs]; [| congruence].
      apply String.eqb_eq in Hs. congruence. }
  destruct (String.eqb (name s) skillName) eqn:Hname.
  { destruct (IH results0 w) as (results & Hrun & Hkeys).
    exists results. split; [done |]. intros k. rewrite Hkeys. apply Hskip. by left. }
  destruct (truthy (structured_outcomes_test s)) eqn:Htest; simpl.
  2:{ destruct (IH results0 w) as (results & Hrun & Hkeys).
      exists results. split; [done |]. intros k. rewrite Hkeys. apply Hskip. by right. }
  rewrite run_bind. unfold tryCatch. rewrite run_bind. unfold onFSRes.
  destruct (execTest E _ (fs w)) as [[[] | msg] f']; simpl;
    match goal with |- context [runSkillTests E skillName applied ?l ?w'] =>
      destruct (IH l w') as (results & Hrun & Hkeys)
    end;
    (exists results; split; [done |]; intros k;
     rewrite Hkeys, setResult_keys; apply String.eqb_neq in Hname;
     split;
     [ intros [[-> | ?] | (Hne & s' & Hin & ? & ?)];
       [ right; split; [done |]; exists s; split; [apply elem_of_cons; by left | done]
       | by left
       | right; split; [done |]; exists s'; split; [apply elem_of_cons; by right | done] ]
     | intros [? | (Hne & s' & Hin & ? & ?)]; [left; by right |];
       apply elem_of_cons in Hin as [-> | ?];
       [ left; left; done | right; split; [done |]; by exists s' ] ]).
Qed.

(** The results that the body of the [try] reports are those of the run
    of the tests, and it succeeds exactly when none of them is a failure. *)
Lemma uninstallBody_results state skillEntry w r results :
  fst (uninstallBody E root skillName state skillEntry w) = Ok r →
  replayResults r = Some results →
  results ≠ [] ∧
  (un_success r = true ↔ ∀ k passed, (k, passed) ∈ results → passed = true) ∧
  ∃ w4, fst (runSkillTests E skillName (applied_skills state) [] w4) = Ok results.
Proof.
  unfold uninstallBody. rewrite run_bind, run_doCreateBackup.
  generalize (setFS (snd (createBackup E ((λ f, root ++ f) <$> allTouchedFiles state) (fs w)))
                (emit (EvCreateBackup ((λ f, root ++ f) <$> allTouchedFiles state)) w)).
  intros w1.
  destruct (fst (createBackup E _ (fs w))) as [[] | msg]; cbn beta iota; [| done].
  rewrite run_bind. simpl.
  assert (Hrestore : ∀ x wk,
            fst ((doRestoreBackup E;; doClearBackup E;; mret x) wk) = Ok r →
            replayResults x = None →
            replayResults r = Some results → False).
  { intros x wk Heq Hx Hr. destruct (run_restore_cases E x wk) as (_ & _ & _ & Hsame).
    rewrite (Hsame r Heq) in Hr. congruence. }
  destruct (locateSkillDirs E root _ ∅ (fs w1)) as [missing | dirsOf].
  { intros Heq Hr. exfalso. exact (Hrestore _ _ Heq eq_refl Hr). }
  rewrite run_bind. simpl. rewrite run_bind.
  destruct (replaySkills E _ _) as [[replayResult | msg] w3]; [| done].
  destruct (success replayResult); simpl; cycle 1.
  { intros Heq Hr. exfalso. exact (Hrestore _ _ Heq eq_refl Hr). }
  rewrite run_bind.
  destruct (reapplyCustom E root state w3) as [[[] | msg] w4]; [| done].
  rewrite run_bind.
  destruct (runSkillTests E skillName (applied_skills state) [] w4)
    as [[results' | msg] w5] eqn:Htests; [| done].
  destruct (filter _ results') as [| failedTest failedTests] eqn:Hfailures.
  - unfold writeState, doClearBackup, mbind, M_bind, bind, getFS, logEvent, onFSRes, emit,
      setFS.
    simpl. destruct (clearBackup E (fs w5)) as [[[] | ?] ?]; simpl; [| done].
    intros Heq Hr. simplify_eq. simpl in Hr.
    destruct results' as [| x xs]; [done |]. simplify_eq.
    split; [done |]. split; [| exists w4; by rewrite Htests].
    split; [| done]. intros _ k passed Hin.
    destruct passed; [done |]. exfalso.
    assert (Hf : (k, false) ∈ filter (λ r : string * bool, snd r = false) (x :: xs)).
    { by apply list_elem_of_filter. }
    rewrite Hfailures in Hf. by apply elem_of_nil in Hf.
  - intros Heq Hr.
    match type of Heq with fst (_ ?wk) = _ =>
      destruct (run_restore_cases E
                  (mkUninstallResult false skillName None (Some results')
                     (Some ("Tests failed after uninstall: " +:+
                            String.concat ", " (fst <$> failedTest :: failedTests)))) wk)
        as (_ & _ & _ & Hsame)
    end.
    apply Hsame in Heq. subst r. simpl in Hr. simplify_eq.
    assert (Hf : failedTest ∈ filter (λ r : string * bool, snd r = false) results).
    { rewrite Hfailures. apply elem_of_cons. by left. }
    apply list_elem_of_filter in Hf as [Hfalse Hin].
    split; [by destruct results; [apply elem_of_nil in Hin |] |].
    split; [| exists w4; by rewrite Htests].
    simpl. split; [done |]. intros Hall. destruct failedTest as [k passed].
    simpl in Hfalse. subst passed. by specialize (Hall k false Hin).
Qed.

End TestProofs.

(** X15. The test results that [uninstallSkill] reports are not empty and
    have an entry exactly for the applied skills other than the removed one
    that have a test command; the call succeeded if and only if every one of
    them passed. *)
Theorem uninstallSkill_test_results
    (E : Extern) (root : path) (skillName : string) (w : World)
    (r : UninstallResult) (results : list (string * bool)) :
  fst (uninstallSkill E root skillName w) = Ok r →
  replayResults r = Some results →
  results ≠ [] ∧
  (∀ k, k ∈ (fst <$> results) ↔
        k ≠ skillName ∧
        ∃ s, s ∈ applied_skills (doc w) ∧ name s = k ∧
             truthy (structured_outcomes_test s) = true) ∧
  (un_success r = true ↔ ∀ k passed, (k, passed) ∈ results → passed = true).
Proof.
  unfold uninstallSkill. rewrite run_bind. unfold readState.
  destruct (truthy (rebased_at (doc w))).
  { rewrite run_ret. simpl. intros Heq Hr. by simplify_eq. }
  destruct (List.find _ (applied_skills (doc w))) as [skillEntry |]; cycle 1.
  { rewrite run_ret. simpl. intros Heq Hr. by simplify_eq. }
  destruct (truthy (custom_patch skillEntry)).
  { rewrite run_ret. simpl. intros Heq Hr. by simplify_eq. }
  rewrite run_bind. unfold acquireLock.
  destruct (lockHeld w); [done |].
  cbn beta iota. rewrite run_finally_release. unfold tryCatch.
  set (w1 := emit EvAcquireLock (mkWorld (fs w) (doc w) true (log w))).
  pose proof (uninstallBody_results E root skillName (doc w) skillEntry w1) as Hbody.
  destruct (uninstallBody E root skillName (doc w) skillEntry w1) as [[r' | msg] w2];
    cbn beta iota; simpl.
  - intros Heq Hr. simplify_eq.
    destruct (Hbody r results eq_refl Hr) as (Hne & Hsuccess & w4 & Hrun).
    split; [done |]. split; [| done].
    destruct (runSkillTests_keys E skillName (applied_skills (doc w)) [] w4)
      as (results' & Hrun' & Hkeys).
    rewrite Hrun in Hrun'. injection Hrun' as <-.
    intros k. rewrite Hkeys. simpl. rewrite elem_of_nil. unfold tested. tauto.
  - intros Heq Hr.
    destruct (run_restore_cases E (failure skillName msg) w2) as (_ & _ & _ & Hsame).
    rewrite (Hsame r Heq) in Hr. done.
Qed.

Lemma uninstallSkill_test_results_witness :
  ∃ r,
    fst (uninstallSkill demoExtern demoRoot "skill-c" (testedWorld "exit 0")) = Ok r ∧
    un_success r = true ∧
    replayResults r = Some [("skill-a", true)] ∧
    "skill-a" ≠ "skill-c".
Proof.
  assert (Hrun : fst (uninstallSkill demoExtern demoRoot "skill-c" (testedWorld "exit 0"))
                 = Ok (mkUninstallResult true "skill-c" None (Some [("skill-a", true)]) None)).
  { vm_compute. reflexivity. }
  destruct (uninstallSkill_test_results demoExtern demoRoot "skill-c" (testedWorld "exit 0")
              _ [("skill-a", true)] Hrun eq_refl) as (_ & Hkeys & _).
  eexists. split; [exact Hrun |]. split; [reflexivity |]. split; [reflexivity |].
  apply (proj1 (Hkeys "skill-a")). apply list_elem_of_singleton. reflexivity.
Defined.

(** ** Uninstall: a remaining skill without a package *)

Section MissingPackage.
Context (E : Extern) (root : path).

Lemma locateSkillDirs_missing before missing after acc f :
  (∀ n, n ∈ before → is_Some (findSkillDir E n root f)) →
  findSkillDir E missing root f = None →
  locateSkillDirs E root (before ++ missing :: after) acc f = inl missing.
Proof.
  intros Hbefore Hmissing. revert acc.
  induction before as [| n before IH]; intros acc; simpl.
  { by rewrite Hmissing. }
  destruct (Hbefore n) as [dir ->]; [apply elem_of_cons; by left |].
  apply IH. intros n' Hn'. apply Hbefore, elem_of_cons. by right.
Qed.

End MissingPackage.

(** X16. When, after no rebase and with the lock free, the skill to remove
    is applied without a custom patch and one of the remaining skills has no
    package under [.gemini/skills], [uninstallSkill] fails with an error
    naming the first such skill; no replay is started: the backup is created,
    restored and cleared (the three calls returning: the files [saved],
    [restored] and [cleared] are those they leave), the lock released, and
    the state document kept. *)
Theorem uninstallSkill_missing_package
    (E : Extern) (root : path) (skillName : string) (w : World) (skillEntry : AppliedSkill)
    (before : list string) (missing : string) (after : list string)
    (saved restored cleared : FS) :
  truthy (rebased_at (doc w)) = false →
  List.find (λ s, String.eqb (name s) skillName) (applied_skills (doc w)) = Some skillEntry →
  truthy (custom_patch skillEntry) = false →
  lockHeld w = false →
  let backedUp := (λ f, root ++ f) <$> allTouchedFiles (doc w) in
  createBackup E backedUp (fs w) = (Ok tt, saved) →
  name <$> filter (λ s, name s ≠ skillName) (applied_skills (doc w))
    = before ++ missing :: after →
  (∀ n, n ∈ before → is_Some (findSkillDir E n root saved)) →
  findSkillDir E missing root saved = None →
  restoreBackup E saved = (Ok tt, restored) →
  clearBackup E restored = (Ok tt, cleared) →
  uninstallSkill E root skillName w =
    (Ok (failure skillName
           ("Cannot find skill package for " +:+ dq +:+ missing +:+ dq +:+
            " in .gemini/skills/. All remaining skills must be available for replay.")),
     mkWorld cleared (doc w) false
       (log w ++ [EvAcquireLock; EvCreateBackup backedUp;
                  EvRestoreBackup; EvClearBackup; EvReleaseLock])).
Proof.
  intros Hrebased Hfind Hpatch Hlock backedUp Hsaved Hremaining Hbefore Hmissing
         Hrestored Hcleared.
  unfold uninstallSkill. rewrite run_bind. unfold readState.
  rewrite Hrebased, Hfind, Hpatch.
  rewrite run_bind. unfold acquireLock. rewrite Hlock.
  cbn beta iota. rewrite run_finally_release. unfold tryCatch.
  unfold uninstallBody. rewrite run_bind, run_doCreateBackup.
  cbn [fs emit]. fold backedUp. rewrite Hsaved. cbn [fst snd].
  rewrite run_bind. simpl. rewrite Hremaining.
  rewrite (locateSkillDirs_missing E root before missing after ∅ _ Hbefore Hmissing).
  match goal with |- context [(doRestoreBackup E ≫= _) ?wk] =>
    rewrite (run_restore E _ wk restored cleared Hrestored Hcleared)
  end.
  simpl.
  by rewrite <- !app_assoc.
Qed.

Lemma uninstallSkill_missing_package_witness :
  fst (uninstallSkill demoExtern demoRoot "skill-a" orphanWorld)
  = Ok (failure "skill-a"
          ("Cannot find skill package for " +:+ dq +:+ "skill-z" +:+ dq +:+
           " in .gemini/skills/. All remaining skills must be available for replay."))
  ∧ log (snd (uninstallSkill demoExtern demoRoot "skill-a" orphanWorld))
    = [EvAcquireLock; EvCreateBackup [demoRoot ++ configTs; demoRoot ++ newfileTs];
       EvRestoreBackup; EvClearBackup; EvReleaseLock].
Proof.
  assert (Hnone : findSkillDir demoExtern "skill-z" demoRoot
                    (demoCreateBackup
                       ((λ f, demoRoot ++ f) <$> allTouchedFiles (doc orphanWorld))
                       (fs orphanWorld)) = None).
  { vm_compute. reflexivity. }
  assert (Hbefore : ∀ n : string, n ∈ @nil string →
            is_Some (findSkillDir demoExtern n demoRoot
                       (demoCreateBackup
                          ((λ f, demoRoot ++ f) <$> allTouchedFiles (doc orphanWorld))
                          (fs orphanWorld)))).
  { intros n Hn. apply elem_of_nil in Hn. destruct Hn. }
  pose proof (uninstallSkill_missing_package demoExtern demoRoot "skill-a" orphanWorld
                (mkAppliedSkill "skill-a" "1.0.0" [(configTs, "abc")] None None None)
                [] "skill-z" [] _ _ _ eq_refl eq_refl eq_refl eq_refl eq_refl eq_refl
                Hbefore Hnone eq_refl eq_refl)
    as Hrun.
  split.
  - exact (f_equal fst Hrun).
  - exact (f_equal (λ x, log (snd x)) Hrun).
Defined.

(** ** [findRerereHash] *)

Lemma childNames_elem (dir : path) (f : FS) (n : string) :
  n ∈ childNames dir f ↔
  ∃ p, (is_Some (files f !! p) ∨ p ∈ dirs f) ∧ isBelow dir p = true ∧
       p !! length dir = Some n.
Proof.
  unfold childNames.
  rewrite merge_sort_Permutation, elem_of_remove_dups, list_elem_of_omap. split.
  - intros (p & Hp & Hn). exists p.
    destruct (isBelow dir p) eqn:Hbelow; [| done]. split; [| done].
    apply elem_of_app in Hp as [Hp | Hp].
    + left. apply list_elem_of_fmap in Hp as ([q c] & -> & Hq).
      apply elem_of_map_to_list in Hq. by exists c.
    + right. by apply elem_of_elements in Hp.
  - intros (p & Hp & Hbelow & Hn). exists p. rewrite Hbelow. split; [| done].
    apply elem_of_app. destruct Hp as [[c Hc] | Hp].
    + left. apply list_elem_of_fmap. exists (p, c). split; [done |].
      by apply elem_of_map_to_list.
    + right. by apply elem_of_elements.
Qed.

(** What the loop of [findRerereHash] makes of a listing. *)
Lemma scanEntries_cases
    (rrCacheDir : path) (preimageContent : string) (entries : list string) (f : FS) :
  match scanEntries rrCacheDir preimageContent entries f with
  | Ok (Some entryName) =>
    entryName ∈ entries ∧
    files f !! (rrCacheDir ++ [entryName; "preimage"]) = Some preimageContent
  | Ok None =>
    ∀ entryName, entryName ∈ entries → dirExists (rrCacheDir ++ [entryName]) f = true →
                 files f !! (rrCacheDir ++ [entryName; "preimage"]) ≠ Some preimageContent
  | Thrown _ =>
    ∃ entryName,
      entryName ∈ entries ∧
      files f !! (rrCacheDir ++ [entryName; "preimage"]) = None ∧
      dirExists (rrCacheDir ++ [entryName; "preimage"]) f = true
  end.
Proof.
  induction entries as [| entryName rest IH]; cbn [scanEntries].
  { intros entryName Hin. by apply elem_of_nil in Hin. }
  assert (Hrest :
    match scanEntries rrCacheDir preimageContent rest f with
    | Ok (Some found) =>
      found ∈ entryName :: rest ∧
      files f !! (rrCacheDir ++ [found; "preimage"]) = Some preimageContent
    | Ok None =>
      (dirExists (rrCacheDir ++ [entryName]) f = true →
       files f !! (rrCacheDir ++ [entryName; "preimage"]) ≠ Some preimageContent) →
      ∀ other, other ∈ entryName :: rest → dirExists (rrCacheDir ++ [other]) f = true →
               files f !! (rrCacheDir ++ [other; "preimage"]) ≠ Some preimageContent
    | Thrown _ =>
      ∃ other,
        other ∈ entryName :: rest ∧
        files f !! (rrCacheDir ++ [other; "preimage"]) = None ∧
        dirExists (rrCacheDir ++ [other; "preimage"]) f = true
    end).
  { destruct (scanEntries rrCacheDir preimageContent rest f) as [[found |] | msg].
    - destruct IH as [Hin Hfile]. split; [apply elem_of_cons; by right | done].
    - intros Hhead other Hin. apply elem_of_cons in Hin as [-> | Hin]; [done | by apply IH].
    - destruct IH as (other & Hin & Hfile & Hdir). exists other.
      split; [apply elem_of_cons; by right | done]. }
  destruct (dirExists (rrCacheDir ++ [entryName]) f) eqn:Hentry; cbn [negb].
  - destruct (files f !! (rrCacheDir ++ [entryName; "preimage"])) as [content |] eqn:Hfile.
    + destruct (String.eqb_spec content preimageContent) as [-> | Hne].
      * split; [apply elem_of_cons; by left | done].
      * destruct (scanEntries rrCacheDir preimageContent rest f) as [[found |] | msg];
          [done | | done].
        apply Hrest. intros _ Heq. by simplify_eq.
    + destruct (dirExists (rrCacheDir ++ [entryName; "preimage"]) f) eqn:Hsub.
      * exists entryName. split; [apply elem_of_cons; by left | done].
      * destruct (scanEntries rrCacheDir preimageContent rest f) as [[found |] | msg];
          [done | | done].
        apply Hrest. by intros _.
  - destruct (scanEntries rrCacheDir preimageContent rest f) as [[found |] | msg];
      [done | | done].
    apply Hrest. intros Hdir. congruence.
Qed.

Lemma findRerereHash_cases
    (rrCacheDir : path) (preimageContent : string) (f : FS) :
  match findRerereHash rrCacheDir preimageContent f with
  | Ok (Some entryName) =>
    files f !! (rrCacheDir ++ [entryName; "preimage"]) = Some preimageContent
  | Ok None =>
    ∀ entryName, files f !! (rrCacheDir ++ [entryName; "preimage"]) ≠ Some preimageContent
  | Thrown _ =>
    (fileExists rrCacheDir f = true ∧ dirExists rrCacheDir f = false) ∨
    ∃ entryName,
      files f !! (rrCacheDir ++ [entryName; "preimage"]) = None ∧
      dirExists (rrCacheDir ++ [entryName; "preimage"]) f = true
  end.
Proof.
  unfold findRerereHash, readdirSync.
  assert (Hbelow : ∀ entryName,
            isBelow rrCacheDir (rrCacheDir ++ [entryName; "preimage"]) = true).
  { intros entryName. by apply isBelow_app. }
  assert (Hentry : ∀ entryName,
            is_Some (files f !! (rrCacheDir ++ [entryName; "preimage"])) →
            dirExists rrCacheDir f = true ∧
            dirExists (rrCacheDir ++ [entryName]) f = true ∧
            entryName ∈ childNames rrCacheDir f).
  { intros entryName Hfile. split; [| split].
    - apply dirExists_spec. right. eexists. split; [exact Hfile | apply Hbelow].
    - apply dirExists_spec. right. eexists. split; [exact Hfile |].
      change (rrCacheDir ++ [entryName; "preimage"])
        with (rrCacheDir ++ [entryName] ++ ["preimage"]).
      rewrite app_assoc. by apply isBelow_app.
    - apply childNames_elem. eexists. split; [left; exact Hfile |].
      split; [apply Hbelow |]. by rewrite lookup_app_r, Nat.sub_diag. }
  destruct (existsSync rrCacheDir f) eqn:Hexists; simpl.
  - destruct (dirExists rrCacheDir f) eqn:Hdir.
    + pose proof (scanEntries_cases rrCacheDir preimageContent (childNames rrCacheDir f) f)
        as Hscan.
      destruct (scanEntries rrCacheDir preimageContent (childNames rrCacheDir f) f)
        as [[entryName |] | msg].
      * by destruct Hscan.
      * intros entryName Hfile.
        destruct (Hentry entryName) as (_ & Hsub & Hin); [by eexists |].
        by apply (Hscan entryName).
      * right. destruct Hscan as (entryName & _ & Hfile & Hsub). by exists entryName.
    + unfold existsSync in Hexists. rewrite Hdir, orb_false_r in Hexists.
      rewrite Hexists. by left.
  - intros entryName Hfile.
    destruct (Hentry entryName) as (Hdir & _); [by eexists |].
    unfold existsSync in Hexists. rewrite Hdir, orb_true_r in Hexists. done.
Qed.

(** X17. When [findRerereHash] returns a hash, the rr-cache has an entry of
    that name whose preimage is the content given; when it returns nothing,
    no entry of the rr-cache has that preimage; it throws only when the
    rr-cache path is a file and not a directory, or when [preimage] is a
    directory in one of the entries. *)
Theorem findRerereHash_finds_matching_entry
    (rrCacheDir : path) (preimageContent : string) (f : FS) :
  match findRerereHash rrCacheDir preimageContent f with
  | Ok (Some entryName) =>
    files f !! (rrCacheDir ++ [entryName; "preimage"]) = Some preimageContent
  | Ok None =>
    ∀ entryName, files f !! (rrCacheDir ++ [entryName; "preimage"]) ≠ Some preimageContent
  | Thrown _ =>
    (fileExists rrCacheDir f = true ∧ dirExists rrCacheDir f = false) ∨
    ∃ entryName,
      files f !! (rrCacheDir ++ [entryName; "preimage"]) = None ∧
      dirExists (rrCacheDir ++ [entryName; "preimage"]) f = true
  end.
Proof. apply findRerereHash_cases. Qed.

(** Seeding creates no directory two levels below the rr-cache. *)
Lemma dirExists_seedCache (rrCacheDir : path) (hash pre post : string) (f : FS) (p : path) :
  plainName hash = true →
  length p = S (S (length rrCacheDir)) →
  dirExists p (seedCache rrCacheDir hash pre post f) = true → dirExists p f = true.
Proof.
  intros Hplain Hlen. rewrite !dirExists_spec.
  unfold seedCache. rewrite (pathJoin_plain _ _ Hplain).
  intros [Hdir | (q & Hq & Hbelow)].
  - unfold writeFileSync, mkdirSync in Hdir. cbn [dirs] in Hdir.
    apply elem_of_union in Hdir as [Hdir | Hdir]; [by left |].
    apply elem_of_list_to_set in Hdir.
    unfold ancestors in Hdir. apply list_elem_of_fmap in Hdir as (n & -> & _).
    rewrite length_take, length_app in Hlen. simpl in Hlen. lia.
  - rewrite !files_writeFileSync, files_mkdirSync in Hq.
    rewrite !lookup_insert_is_Some' in Hq.
    apply isBelow_spec in Hbelow as Hrest. destruct Hrest as (rest & Hne & Heq).
    assert (Hlonger : length p < length q).
    { rewrite Heq, length_app. destruct rest; [done | simpl; lia]. }
    destruct Hq as [<- | [<- | Hq]].
    + rewrite !length_app in Hlonger. simpl in Hlonger. lia.
    + rewrite !length_app in Hlonger. simpl in Hlonger. lia.
    + right. by exists q.
Qed.

(** X18. Looking up what was seeded: once the rr-cache has been seeded with
    a preimage under the name of an entry, and no entry of the rr-cache has
    a directory named [preimage], [findRerereHash] finds for that preimage an
    entry of the rr-cache that holds it. *)
Theorem findRerereHash_after_seedCache
    (rrCacheDir : path) (hash pre post : string) (f : FS) :
  plainName hash = true →
  (∀ entryName, dirExists (rrCacheDir ++ [entryName; "preimage"]) f = false) →
  ∃ entryName,
    findRerereHash rrCacheDir pre (rrEntry rrCacheDir hash pre post f)
      = Ok (Some entryName) ∧
    files (rrEntry rrCacheDir hash pre post f) !! (rrCacheDir ++ [entryName; "preimage"])
      = Some pre.
Proof.
  intros Hplain Hnone. rewrite <- (seedCache_plain rrCacheDir hash pre post f Hplain).
  set (f' := seedCache rrCacheDir hash pre post f).
  assert (Hseeded : files f' !! (rrCacheDir ++ [hash; "preimage"]) = Some pre).
  { subst f'. unfold seedCache. rewrite (pathJoin_plain _ _ Hplain).
    rewrite lookup_writeFileSync_ne.
    - rewrite files_writeFileSync, <- app_assoc. apply lookup_insert_eq.
    - rewrite <- !app_assoc. intros Heq. apply app_inv_head in Heq. discriminate. }
  pose proof (findRerereHash_cases rrCacheDir pre f') as Hspec.
  destruct (findRerereHash rrCacheDir pre f') as [[entryName |] | msg].
  - by exists entryName.
  - by destruct (Hspec hash).
  - exfalso. destruct Hspec as [[_ Hdir] | (entryName & _ & Hsub)].
    + assert (Htrue : dirExists rrCacheDir f' = true); [| congruence].
      apply dirExists_spec. right. eexists. split; [by eexists |]. by apply isBelow_app.
    + apply dirExists_seedCache in Hsub; [| done |].
      * by rewrite Hnone in Hsub.
      * rewrite length_app. simpl. lia.
Qed.

Lemma findRerereHash_after_seedCache_witness :
  ∃ entryName,
    findRerereHash (demoRoot ++ [".git"; "rr-cache"]) "conflict markers"
      (rrEntry (demoRoot ++ [".git"; "rr-cache"]) "abc123" "conflict markers"
         "line1-from-both" emptyFS)
      = Ok (Some entryName) ∧
    files (rrEntry (demoRoot ++ [".git"; "rr-cache"]) "abc123" "conflict markers"
             "line1-from-both" emptyFS)
      !! ((demoRoot ++ [".git"; "rr-cache"]) ++ [entryName; "preimage"])
      = Some "conflict markers".
Proof.
  apply (findRerereHash_after_seedCache (demoRoot ++ [".git"; "rr-cache"]) "abc123"
           "conflict markers" "line1-from-both" emptyFS).
  - reflexivity.
  - intros entryName. apply not_true_iff_false. rewrite dirExists_spec.
    intros [Hdir | (q & Hq & _)].
    + change (dirs emptyFS) with (∅ : gset path) in Hdir. by apply elem_of_empty in Hdir.
    + change (files emptyFS) with (∅ : gmap path string) in Hq.
      rewrite lookup_empty in Hq. by destruct Hq.
Defined.

(** ** Writes below a directory *)

Lemma isBelow_prefix (d p : path) : isBelow d p = true ↔ d `prefix_of` p ∧ p ≠ d.
Proof.
  rewrite isBelow_spec. split.
  - intros (rest & Hne & ->). split; [by exists rest |].
    intros Heq. rewrite <- (app_nil_r d) in Heq at 2. by apply app_inv_head in Heq.
  - intros [[rest ->] Hne]. exists rest. split; [| done].
    intros ->. by rewrite app_nil_r in Hne.
Qed.

#[global] Instance grownBelow_preorder d : PreOrder (grownBelow d).
Proof.
  split.
  - intros f. repeat split; auto.
  - intros f1 f2 f3 (Ha1 & Hb1 & Hc1 & Hd1) (Ha2 & Hb2 & Hc2 & Hd2).
    split; [| split; [| split]].
    + intros p Hp. by rewrite Ha2, Ha1.
    + auto.
    + auto.
    + intros q Hq. destruct (Hd2 q Hq) as [Hq2 | ?]; [| by right]. by apply Hd1.
Qed.

Lemma grownBelow_write d p c f :
  d `prefix_of` p → grownBelow d f (writeFileSync p c f).
Proof.
  intros Hp. split; [| split; [| split]]; simpl.
  - intros q Hq. apply lookup_insert_ne. by intros <-.
  - intros q Hq. rewrite lookup_insert_is_Some'. by right.
  - done.
  - intros q Hq. by left.
Qed.

Lemma elem_of_ancestors (x q : path) : q ∈ ancestors x ↔ q `prefix_of` x.
Proof.
  unfold ancestors. rewrite list_elem_of_fmap. split.
  - intros (n & -> & _). apply prefix_take.
  - intros [k ->]. exists (length q). split; [by rewrite take_app_length |].
    apply elem_of_seq. rewrite length_app. lia.
Qed.

Lemma grownBelow_mkdir d x f : d `prefix_of` x → grownBelow d f (mkdirSync x f).
Proof.
  intros Hx. split; [| split; [| split]].
  - done.
  - done.
  - intros q Hq. apply elem_of_union. by left.
  - intros q Hq. change (dirs (mkdirSync x f)) with (dirs f ∪ list_to_set (ancestors x)) in Hq.
    apply elem_of_union in Hq as [? | Hq]; [by left | right].
    apply elem_of_list_to_set, elem_of_ancestors in Hq.
    by apply (prefix_weak_total _ _ x).
Qed.

(** Whether a path exists is not changed by writes below a directory that
    is neither above it nor below it. *)
Lemma existsSync_grownBelow d f f' q :
  grownBelow d f f' → ¬ d `prefix_of` q → ¬ q `prefix_of` d →
  existsSync q f' = existsSync q f.
Proof.
  intros (Hout & Hmono & Hdirs & Hnew) Hdq Hqd.
  unfold existsSync, fileExists. rewrite (Hout q Hdq). f_equal.
  apply eq_true_iff_eq. rewrite !dirExists_spec. split.
  - intros [Hq | (p & Hp & Hbelow)].
    + left. by destruct (Hnew q Hq) as [? | [? | ?]].
    + right. exists p. split; [| done].
      rewrite <- (Hout p); [done |]. intros Hdp.
      apply isBelow_prefix in Hbelow as [Hqp _].
      by destruct (prefix_weak_total _ _ _ Hdp Hqp).
  - intros [Hq | (p & Hp & Hbelow)]; [left; by apply Hdirs | right].
    exists p. split; [by apply Hmono | done].
Qed.

Lemma addExt_snoc ext (l : path) (n : string) : addExt ext (l ++ [n]) = l ++ [n +:+ ext].
Proof. unfold addExt. rewrite mapLast_app. by destruct l. Qed.

Lemma addExt_not_nil ext rel : addExt ext rel ≠ [].
Proof.
  destruct rel as [| x rel] using rev_ind; [done |].
  rewrite addExt_snoc. by destruct rel.
Qed.

Lemma prefix_app_same (d rest : path) : d `prefix_of` d ++ rest.
Proof. by exists rest. Qed.

Section SaveProofs.
Context (E : Extern) (stringify : FullMeta → string) (now : string).
Context (resDir : path) (rrCacheDir : option path).

Lemma grownBelow_captureHash rel content f :
  grownBelow resDir f
    (snd (captureHash rrCacheDir (resDir ++ addExt ".preimage" rel) content f)).
Proof.
  unfold captureHash. destruct rrCacheDir as [rr |]; [| reflexivity].
  destruct (existsSync rr f); [| reflexivity].
  destruct (findRerereHash rr content f) as [[h |] | msg]; try reflexivity.
  destruct (String.eqb h ""); [reflexivity |]. simpl.
  apply grownBelow_write.
  destruct (path_snoc _ (addExt_not_nil ".preimage" rel)) as (l & n & ->).
  rewrite app_assoc, mapLast_app, <- app_assoc. apply prefix_app_same.
Qed.

Lemma grownBelow_saveFile file f :
  grownBelow resDir f (snd (saveFile resDir rrCacheDir file f)).
Proof.
  unfold saveFile.
  etrans; [| apply grownBelow_captureHash].
  etrans; [| apply grownBelow_write, prefix_app_same].
  etrans; [| apply grownBelow_write, prefix_app_same].
  apply grownBelow_mkdir.
  destruct (path_snoc _ (addExt_not_nil ".preimage" (saved_relPath file))) as (l & n & ->).
  unfold dirname. rewrite app_assoc, removelast_last. apply prefix_app_same.
Qed.

Lemma grownBelow_saveFiles savedFiles f :
  grownBelow resDir f (snd (saveFiles resDir rrCacheDir savedFiles f)).
Proof.
  revert f. induction savedFiles as [| file rest IH]; intros f; simpl; [reflexivity |].
  pose proof (grownBelow_saveFile file f) as Hfile.
  destruct (saveFile resDir rrCacheDir file f) as [[[] | msg] f1]; simpl in *; [| done].
  etrans; [exact Hfile | apply IH].
Qed.



End SaveProofs.

(** ** Saving a resolution set *)

Lemma shipped_apart (root : path) (a b : path) :
  ¬ root ++ RESOLUTIONS_DIR ++ a `prefix_of` root ++ SHIPPED_RESOLUTIONS_DIR ++ b ∧
  ¬ root ++ SHIPPED_RESOLUTIONS_DIR ++ b `prefix_of` root ++ RESOLUTIONS_DIR ++ a.
Proof.
  split; intros Hprefix; apply prefix_app_inv in Hprefix;
    by apply prefix_cons_inv_1 in Hprefix.
Qed.

Lemma findResolutionDir_eq (skillNames : list string) (root : path) (f : FS) :
  findResolutionDir skillNames root f =
    if existsSync (root ++ SHIPPED_RESOLUTIONS_DIR ++ segment (resolutionKey skillNames)) f
    then Some (root ++ SHIPPED_RESOLUTIONS_DIR ++ segment (resolutionKey skillNames))
    else if existsSync (root ++ RESOLUTIONS_DIR ++ segment (resolutionKey skillNames)) f
    then Some (root ++ RESOLUTIONS_DIR ++ segment (resolutionKey skillNames))
    else None.
Proof. reflexivity. Qed.

Section SaveResolutionProofs.
Context (E : Extern) (stringify : FullMeta → string) (now : string).
Context (skillNames : list string) (savedFiles : list SavedFile) (meta : PartialMeta).
Context (root : path).

Local Abbreviation savedDir := (root ++ RESOLUTIONS_DIR ++ segment (resolutionKey skillNames)).
Local Abbreviation shippedDir' :=
  (root ++ SHIPPED_RESOLUTIONS_DIR ++ segment (resolutionKey skillNames)).

Lemma saveResolution_grown f :
  grownBelow savedDir f
    (snd (saveResolution E stringify now skillNames savedFiles meta root f)).
Proof.
  unfold saveResolution. cbv zeta.
  match goal with |- context [saveFiles ?d ?rr ?l f] =>
    pose proof (grownBelow_saveFiles d rr l f) as Hfiles;
    destruct (saveFiles d rr l f) as [[[] | msg] f1]
  end; simpl in Hfiles; [| done].
  destruct (dirExists _ f1); [| done]. simpl.
  etrans; [exact Hfiles |]. apply grownBelow_write, prefix_app_same.
Qed.

(** What a successful call has done: the files are saved and the meta
    document is written in the directory of the skill set. *)
Lemma saveResolution_ok f f' :
  saveResolution E stringify now skillNames savedFiles meta root f = (Ok tt, f') →
  ∃ f1,
    saveFiles savedDir ((λ g, g ++ ["rr-cache"]) <$> gitDir E root f) savedFiles f
      = (Ok tt, f1) ∧
    f' = writeFileSync (savedDir ++ ["meta.yaml"])
           (stringify (fullMetaOf now skillNames savedFiles meta)) f1.
Proof.
  unfold saveResolution. cbv zeta.
  destruct (saveFiles _ _ savedFiles f) as [[[] | msg] f1]; [| done].
  destruct (dirExists _ f1); [| done].
  intros Heq. injection Heq as <-. by exists f1.
Qed.

Lemma saveResolution_existsSync f f' :
  saveResolution E stringify now skillNames savedFiles meta root f = (Ok tt, f') →
  existsSync savedDir f' = true ∧ existsSync shippedDir' f' = existsSync shippedDir' f.
Proof.
  intros Hrun. split.
  - apply saveResolution_ok in Hrun as (f1 & _ & ->).
    unfold existsSync. apply orb_true_iff. right. apply dirExists_spec. right.
    exists (savedDir ++ ["meta.yaml"]). split.
    + rewrite files_writeFileSync, lookup_insert_eq. by eexists.
    + rewrite !app_assoc. by apply isBelow_app.
  - pose proof (saveResolution_grown f) as Hgrown. rewrite Hrun in Hgrown.
    apply (existsSync_grownBelow _ _ _ _ Hgrown); apply shipped_apart.
Qed.

End SaveResolutionProofs.

(** X19. After [saveResolution] has returned (it did not throw),
    [findResolutionDir] finds a directory for the skill set, however its
    names are listed: the shipped one when there is one, and otherwise the
    directory under [.nanoclaw/resolutions] that was just saved, which then
    holds the meta document. *)
Theorem saveResolution_then_findResolutionDir
    (E : Extern) (stringify : FullMeta → string) (now : string)
    (skillNames listed : list string) (savedFiles : list SavedFile) (meta : PartialMeta)
    (root : path) (f f' : FS) :
  saveResolution E stringify now skillNames savedFiles meta root f = (Ok tt, f') →
  listed ≡ₚ skillNames →
  let key := resolutionKey skillNames in
  let shipped := root ++ SHIPPED_RESOLUTIONS_DIR ++ segment key in
  let saved := root ++ RESOLUTIONS_DIR ++ segment key in
  findResolutionDir listed root f' = Some (if existsSync shipped f then shipped else saved) ∧
  files f' !! (saved ++ ["meta.yaml"])
    = Some (stringify (fullMetaOf now skillNames savedFiles meta)).
Proof.
  intros Hrun Hperm. cbv zeta. split.
  - destruct (saveResolution_existsSync E stringify now skillNames savedFiles meta root
                f f' Hrun) as [Hsaved Hshipped].
    rewrite findResolutionDir_eq, (resolutionKey_permutation _ _ Hperm).
    rewrite Hshipped. destruct (existsSync _ f); [done |]. by rewrite Hsaved.
  - apply saveResolution_ok in Hrun as (f1 & _ & ->).
    by rewrite files_writeFileSync, lookup_insert_eq.
Qed.

(** ** Saving, then listing the pairs *)






(** ** Saving outside a git repository *)




Lemma run_ok (x : Res unit * FS) : fst x = Ok tt → x = (Ok tt, snd x).
Proof. destruct x as [r f]. simpl. by intros ->. Qed.

Lemma savedFS_run :
  saveResolution demoExtern demoStringify "2026-01-01T00:00:00.000Z"
    ["skill-b"; "skill-a"] [demoSavedFile] noMeta demoRoot demoFS = (Ok tt, savedFS).
Proof. apply run_ok. vm_compute. reflexivity. Qed.


Lemma saveResolution_then_findResolutionDir_witness :
  findResolutionDir ["skill-a"; "skill-b"] demoRoot savedFS = Some localDir
  ∧ files savedFS !! (localDir ++ ["meta.yaml"]) = Some "meta with input_hashes".
Proof.
  apply (saveResolution_then_findResolutionDir demoExtern demoStringify
           "2026-01-01T00:00:00.000Z" ["skill-b"; "skill-a"] ["skill-a"; "skill-b"]
           [demoSavedFile] noMeta demoRoot demoFS savedFS).
  - exact savedFS_run.
  - apply perm_swap.
Defined.


(** ** The meta document that is saved *)





(** ** Clearing the resolutions *)

Lemma take_prefix (d p : path) : take (length d) p = d ↔ d `prefix_of` p.
Proof.
  split.
  - intros Htake. exists (drop (length d) p). by rewrite <- Htake at 1; rewrite take_drop.
  - intros [k ->]. by rewrite take_app_length.
Qed.

Lemma lookup_rmSync (d p : path) (f : FS) :
  files (rmSync d f) !! p = if decide (d `prefix_of` p) then None else files f !! p.
Proof.
  unfold rmSync. simpl. destruct (decide (d `prefix_of` p)) as [Hp | Hp].
  - apply map_lookup_filter_None. right. intros c _ Hne. simpl in Hne.
    by apply Hne, take_prefix.
  - destruct (files f !! p) as [c |] eqn:Hc.
    + apply map_lookup_filter_Some. split; [done |]. simpl. by rewrite take_prefix.
    + apply map_lookup_filter_None. by left.
Qed.


Section ClearProofs.
Context (root : path).

Local Abbreviation resolutions := (root ++ RESOLUTIONS_DIR).

Lemma lookup_clearAllResolutions (f : FS) (p : path) :
  files (clearAllResolutions root f) !! p
  = if decide (resolutions `prefix_of` p) then None else files f !! p.
Proof.
  unfold clearAllResolutions. cbv zeta.
  destruct (existsSync resolutions f) eqn:Hexists.
  { rewrite files_mkdirSync. apply lookup_rmSync. }
  destruct (decide (resolutions `prefix_of` p)) as [Hp | Hp]; [| done].
  apply orb_false_iff in Hexists as [Hfile Hdir].
  apply eq_None_not_Some. intros Hsome.
  destruct (decide (p = resolutions)) as [-> | Hne].
  - apply fileExists_is_Some in Hsome. congruence.
  - assert (Htrue : dirExists resolutions f = true); [| congruence].
    apply dirExists_spec. right. exists p. split; [done |]. by apply isBelow_prefix.
Qed.



End ClearProofs.

(** X23. [clearAllResolutions] leaves no file at or below
    [.nanoclaw/resolutions] and leaves every other file as it was. *)
Theorem clearAllResolutions_removes_saved_resolutions (root : path) (f : FS) (p : path) :
  files (clearAllResolutions root f) !! p
  = if decide (root ++ RESOLUTIONS_DIR `prefix_of` p) then None else files f !! p.
Proof. apply lookup_clearAllResolutions. Qed.



(** ** The overlap matrix *)

Lemma filter_nil_iff {A} (P : A → Prop) `{∀ x, Decision (P x)} (l : list A) :
  filter P l = [] ↔ ∀ x, x ∈ l → ¬ P x.
Proof.
  split.
  - intros Hnil x Hx HP.
    assert (Hin : x ∈ filter P l) by by apply list_elem_of_filter.
    rewrite Hnil in Hin. by apply elem_of_nil in Hin.
  - intros Hall. destruct (filter P l) as [| x l'] eqn:Hf; [done |].
    assert (Hin : x ∈ filter P l) by (rewrite Hf; apply elem_of_cons; by left).
    apply list_elem_of_filter in Hin as [HP Hx]. by destruct (Hall x Hx).
Qed.

Lemma overlapReasons_nil (a b : SkillOverlapInfo) : overlapReasons a b = [] ↔ ¬ overlap a b.
Proof.
  unfold overlapReasons, overlap. cbv zeta.
  pose proof (filter_nil_iff (λ m, m ∈ overlap_modifies b) (overlap_modifies a)) as Hm.
  pose proof (filter_nil_iff (λ pkg, pkg ∈ npmDependencies b) (npmDependencies a)) as Hn.
  destruct (filter _ (overlap_modifies a)) as [| m ms];
    destruct (filter _ (npmDependencies a)) as [| n ns]; simpl.
  - split; [| done]. intros _ [(m & Ha & Hb) | (pkg & Ha & Hb)].
    + by apply (proj1 Hm eq_refl m).
    + by apply (proj1 Hn eq_refl pkg).
  - split; [done |]. intros Hno. exfalso.
    assert (Hnil : n :: ns = []); [| done].
    apply Hn. intros pkg Ha Hb. apply Hno. right. by exists pkg.
  - split; [done |]. intros Hno. exfalso.
    assert (Hnil : m :: ms = []); [| done].
    apply Hm. intros x Ha Hb. apply Hno. left. by exists x.
  - split; [done |]. intros Hno. exfalso.
    assert (Hnil : m :: ms = []); [| done].
    apply Hm. intros x Ha Hb. apply Hno. left. by exists x.
Qed.

Lemma overlapReasons_cons (a b : SkillOverlapInfo) (r : string) (rs : list string) :
  overlapReasons a b = r :: rs → overlap a b.
Proof.
  unfold overlapReasons, overlap. cbv zeta.
  destruct (filter _ (overlap_modifies a)) as [| m ms] eqn:Hm.
  - destruct (filter _ (npmDependencies a)) as [| n ns] eqn:Hn; [done |].
    intros _. right. exists n.
    assert (Hin : n ∈ filter (λ pkg, pkg ∈ npmDependencies b) (npmDependencies a)).
    { rewrite Hn. apply elem_of_cons. by left. }
    apply list_elem_of_filter in Hin. tauto.
  - intros _. left. exists m.
    assert (Hin : m ∈ filter (λ x, x ∈ overlap_modifies b) (overlap_modifies a)).
    { rewrite Hm. apply elem_of_cons. by left. }
    apply list_elem_of_filter in Hin. tauto.
Qed.

Lemma overlap_sym (a b : SkillOverlapInfo) : overlap a b → overlap b a.
Proof. intros [(m & ? & ?) | (pkg & ? & ?)]; [left | right]; eauto. Qed.

Lemma overlapEntry_Some (a b : SkillOverlapInfo) (e : MatrixEntry) :
  overlapEntry a b = Some e →
  overlap a b ∧ matrix_skills e = [overlap_name a; overlap_name b] ∧ reason e ≠ "".
Proof.
  unfold overlapEntry. pose proof (overlapReasons_nil a b) as Hnil.
  destruct (overlapReasons a b) as [| r rs] eqn:Hreasons; [done |].
  intros Heq. injection Heq as <-. simpl. split; [| split; [done |]].
  - by eapply overlapReasons_cons.
  - assert (Hr : ∃ c r', r = String c r').
    { unfold overlapReasons in Hreasons. cbv zeta in Hreasons.
      destruct (filter _ (overlap_modifies a)); destruct (filter _ (npmDependencies a));
        simpl in Hreasons; simplify_eq; by eexists _, _. }
    destruct Hr as (c & r' & ->). by destruct rs.
Qed.

Lemma overlapEntry_is_Some (a b : SkillOverlapInfo) :
  overlap a b → is_Some (overlapEntry a b).
Proof.
  intros Hab. unfold overlapEntry.
  destruct (overlapReasons a b) eqn:Hreasons; [| by eexists].
  by apply overlapReasons_nil in Hreasons.
Qed.

Lemma computeOverlapMatrix_elem (skillInfos : list SkillOverlapInfo) (e : MatrixEntry) :
  e ∈ computeOverlapMatrix skillInfos ↔
  ∃ i j a b, i < j ∧ skillInfos !! i = Some a ∧ skillInfos !! j = Some b ∧
             overlapEntry a b = Some e.
Proof.
  induction skillInfos as [| x l IH]; simpl.
  { rewrite elem_of_nil. split; [done |]. by intros (i & j & a & b & _ & Hi & _). }
  rewrite elem_of_app, list_elem_of_omap, IH. split.
  - intros [(b & Hb & He) | (i & j & a & b & Hlt & Hi & Hj & He)].
    + apply list_elem_of_lookup in Hb as [j Hj]. exists 0, (S j), x, b.
      split; [lia | done].
    + exists (S i), (S j), a, b. split; [lia | done].
  - intros (i & j & a & b & Hlt & Hi & Hj & He).
    destruct j as [| j]; [lia |]. simpl in Hj.
    destruct i as [| i]; simpl in Hi.
    + injection Hi as ->. left. exists b. split; [| done].
      by apply list_elem_of_lookup_2 in Hj.
    + right. exists i, j, a, b. split; [lia | done].
Qed.

(** X25. Every entry of the overlap matrix has a non-empty reason and names
    two skills, one listed before the other, that modify a common file or
    depend on a common npm package; and every such pair of positions has an
    entry. *)
Theorem computeOverlapMatrix_pairs (skillInfos : list SkillOverlapInfo) :
  (∀ e, e ∈ computeOverlapMatrix skillInfos →
        reason e ≠ "" ∧
        ∃ i j a b, i < j ∧ skillInfos !! i = Some a ∧ skillInfos !! j = Some b ∧
                   overlap a b ∧ matrix_skills e = [overlap_name a; overlap_name b]) ∧
  (∀ i j a b, i < j → skillInfos !! i = Some a → skillInfos !! j = Some b → overlap a b →
              ∃ e, e ∈ computeOverlapMatrix skillInfos ∧
                   matrix_skills e = [overlap_name a; overlap_name b]).
Proof.
  split.
  - intros e He. apply computeOverlapMatrix_elem in He as (i & j & a & b & Hlt & Hi & Hj & He).
    apply overlapEntry_Some in He as (Hab & Hskills & Hreason).
    split; [done |]. by exists i, j, a, b.
  - intros i j a b Hlt Hi Hj Hab.
    destruct (overlapEntry_is_Some a b Hab) as [e He]. exists e. split.
    + apply computeOverlapMatrix_elem. by exists i, j, a, b.
    + by apply overlapEntry_Some in He as (_ & ? & _).
Qed.

(** ** The order of the skills *)

Lemma overlapEntry_count_sym (a b : SkillOverlapInfo) :
  length (omap (overlapEntry a) [b]) = length (omap (overlapEntry b) [a]).
Proof.
  simpl.
  destruct (overlapEntry a b) as [e |] eqn:Hab; destruct (overlapEntry b a) as [e' |] eqn:Hba;
    try done; exfalso.
  - apply overlapEntry_Some in Hab as (Hab & _).
    apply overlap_sym, overlapEntry_is_Some in Hab as [? ?]. congruence.
  - apply overlapEntry_Some in Hba as (Hba & _).
    apply overlap_sym, overlapEntry_is_Some in Hba as [? ?]. congruence.
Qed.

Lemma omap_length_Permutation {A B} (g : A → option B) (l l' : list A) :
  l ≡ₚ l' → length (omap g l) = length (omap g l').
Proof.
  induction 1 as [| x l l' _ IH | x y l | l1 l2 l3 _ IH1 _ IH2]; simpl.
  - done.
  - destruct (g x); simpl; [f_equal |]; exact IH.
  - by destruct (g x), (g y).
  - by etrans.
Qed.

(** X26. The number of entries of the overlap matrix does not depend on the
    order in which the skills are listed. *)
Theorem computeOverlapMatrix_length_Permutation (skillInfos skillInfos' : list SkillOverlapInfo) :
  skillInfos ≡ₚ skillInfos' →
  length (computeOverlapMatrix skillInfos) = length (computeOverlapMatrix skillInfos').
Proof.
  induction 1 as [| x l l' Hperm IH | x y l | l1 l2 l3 _ IH1 _ IH2].
  - done.
  - simpl. rewrite !length_app, IH. f_equal. by apply omap_length_Permutation.
  - change (length (omap (overlapEntry y) ([x] ++ l) ++
                    (omap (overlapEntry x) l ++ computeOverlapMatrix l))
            = length (omap (overlapEntry x) ([y] ++ l) ++
                      (omap (overlapEntry y) l ++ computeOverlapMatrix l))).
    rewrite !omap_app, !length_app, (overlapEntry_count_sym x y). lia.
  - by etrans.
Qed.

Lemma computeOverlapMatrix_length_Permutation_witness :
  length (computeOverlapMatrix
            [ mkSkillOverlapInfo "add-telegram" [configTs] ["grammy"];
              mkSkillOverlapInfo "add-voice" [newfileTs] [];
              mkSkillOverlapInfo "add-discord" [configTs] ["discord.js"] ]) = 1
  ∧ length (computeOverlapMatrix
              [ mkSkillOverlapInfo "add-discord" [configTs] ["discord.js"];
                mkSkillOverlapInfo "add-telegram" [configTs] ["grammy"];
                mkSkillOverlapInfo "add-voice" [newfileTs] [] ]) = 1.
Proof.
  split; [reflexivity |].
  rewrite <- (computeOverlapMatrix_length_Permutation
                [ mkSkillOverlapInfo "add-telegram" [configTs] ["grammy"];
                  mkSkillOverlapInfo "add-voice" [newfileTs] [];
                  mkSkillOverlapInfo "add-discord" [configTs] ["discord.js"] ]).
  - reflexivity.
  - etrans; [apply perm_skip, perm_swap | apply perm_swap].
Defined.

(** ** Generating the matrix from the skill packages *)

Section GenerateProofs.
Context (parseManifest : string → Res Manifest) (skillsDir : path) (f : FS).

Lemma readManifests_elem entries results manifest dirName :
  readManifests parseManifest skillsDir entries f = Ok results →
  (manifest, dirName) ∈ results →
  ∃ content, files f !! (skillsDir ++ [dirName; "manifest.yaml"]) = Some content ∧
             parseManifest content = Ok manifest.
Proof.
  revert results. induction entries as [| n entries IH]; intros results; simpl.
  { intros Heq Hin. simplify_eq. by apply elem_of_nil in Hin. }
  destruct (dirExists (skillsDir ++ [n]) f); simpl; [| apply IH].
  destruct (files f !! (skillsDir ++ [n; "manifest.yaml"])) as [content |] eqn:Hfile;
    [| apply IH].
  destruct (parseManifest content) as [m | msg] eqn:Hparse; [| done].
  destruct (readManifests parseManifest skillsDir entries f) as [rest | msg]; [| done].
  intros Heq Hin. simplify_eq.
  apply elem_of_cons in Hin as [Heq | Hin]; [| by apply (IH rest)].
  simplify_eq. by exists content.
Qed.

Lemma readManifests_throws entries n content msg :
  n ∈ entries →
  files f !! (skillsDir ++ [n; "manifest.yaml"]) = Some content →
  parseManifest content = Thrown msg →
  ∃ msg', readManifests parseManifest skillsDir entries f = Thrown msg'.
Proof.
  intros Hin Hfile Hparse.
  assert (Hdir : dirExists (skillsDir ++ [n]) f = true).
  { apply dirExists_spec. right. exists (skillsDir ++ [n; "manifest.yaml"]).
    split; [by eexists |].
    change (skillsDir ++ [n; "manifest.yaml"]) with (skillsDir ++ [n] ++ ["manifest.yaml"]).
    rewrite app_assoc. by apply isBelow_app. }
  induction entries as [| x entries IH]; [by apply elem_of_nil in Hin |]. simpl.
  apply elem_of_cons in Hin as [<- | Hin].
  { rewrite Hdir, Hfile, Hparse. by eexists. }
  destruct (IH Hin) as [msg' Hrest]. rewrite Hrest.
  destruct (dirExists (skillsDir ++ [x]) f); simpl; [| by eexists].
  destruct (files f !! (skillsDir ++ [x; "manifest.yaml"])) as [c |]; [| by eexists].
  destruct (parseManifest c); by eexists.
Qed.

End GenerateProofs.

(** X27. Every entry of a generated matrix names two directories of the
    skills directory, by their directory names, each holding a
    [manifest.yaml] that parses, and the two manifests overlap. *)
Theorem generateMatrix_names_packages
    (parseManifest : string → Res Manifest) (skillsDir : path) (f : FS)
    (matrix : list MatrixEntry) (e : MatrixEntry) :
  generateMatrix parseManifest skillsDir f = Ok matrix →
  e ∈ matrix →
  ∃ dirA dirB contentA contentB manifestA manifestB,
    matrix_skills e = [dirA; dirB] ∧
    files f !! (skillsDir ++ [dirA; "manifest.yaml"]) = Some contentA ∧
    files f !! (skillsDir ++ [dirB; "manifest.yaml"]) = Some contentB ∧
    parseManifest contentA = Ok manifestA ∧
    parseManifest contentB = Ok manifestB ∧
    overlap (extractOverlapInfo manifestA dirA) (extractOverlapInfo manifestB dirB).
Proof.
  unfold generateMatrix.
  destruct (readAllManifests parseManifest skillsDir f) as [results | msg] eqn:Hread; [| done].
  intros Heq He. injection Heq as <-.
  apply computeOverlapMatrix_elem in He as (i & j & a & b & _ & Hi & Hj & He).
  apply overlapEntry_Some in He as (Hab & Hskills & _).
  apply list_elem_of_lookup_2, list_elem_of_fmap in Hi as ([mA dA] & -> & HA).
  apply list_elem_of_lookup_2, list_elem_of_fmap in Hj as ([mB dB] & -> & HB).
  assert (Hresults : ∀ m d, (m, d) ∈ results →
            ∃ content, files f !! (skillsDir ++ [d; "manifest.yaml"]) = Some content ∧
                       parseManifest content = Ok m).
  { unfold readAllManifests in Hread.
    destruct (existsSync skillsDir f); simpl in Hread.
    - destruct (readdirSync skillsDir f) as [entries | ?]; [| done].
      intros m d. by apply (readManifests_elem _ _ _ entries).
    - injection Hread as <-. intros m d Hin. by apply elem_of_nil in Hin. }
  destruct (Hresults _ _ HA) as (cA & HfA & HpA).
  destruct (Hresults _ _ HB) as (cB & HfB & HpB).
  by exists dA, dB, cA, cB, mA, mB.
Qed.

Lemma generateMatrix_names_packages_witness :
  generateMatrix demoParseManifest (demoRoot ++ [".gemini"; "skills"]) matrixFS
  = Ok [mkMatrixEntry ["a"; "b"] "shared modifies: src/config.ts"]
  ∧ ∃ dirA dirB contentA contentB manifestA manifestB,
      ["a"; "b"] = [dirA; dirB] ∧
      files matrixFS !! ((demoRoot ++ [".gemini"; "skills"]) ++ [dirA; "manifest.yaml"])
        = Some contentA ∧
      files matrixFS !! ((demoRoot ++ [".gemini"; "skills"]) ++ [dirB; "manifest.yaml"])
        = Some contentB ∧
      demoParseManifest contentA = Ok manifestA ∧
      demoParseManifest contentB = Ok manifestB ∧
      overlap (extractOverlapInfo manifestA dirA) (extractOverlapInfo manifestB dirB).
Proof.
  assert (Hrun : generateMatrix demoParseManifest (demoRoot ++ [".gemini"; "skills"]) matrixFS
                 = Ok [mkMatrixEntry ["a"; "b"] "shared modifies: src/config.ts"]).
  { vm_compute. reflexivity. }
  split; [exact Hrun |].
  apply (generateMatrix_names_packages demoParseManifest (demoRoot ++ [".gemini"; "skills"])
           matrixFS _ (mkMatrixEntry ["a"; "b"] "shared modifies: src/config.ts") Hrun).
  apply elem_of_cons. left. reflexivity.
Defined.

(** X28. One manifest that does not parse makes [generateMatrix] throw:
    unlike [findSkillDir], [readAllManifests] does not pass over it. *)
Theorem generateMatrix_invalid_manifest_throws
    (parseManifest : string → Res Manifest) (skillsDir : path) (f : FS)
    (dirName content msg : string) :
  files f !! (skillsDir ++ [dirName; "manifest.yaml"]) = Some content →
  parseManifest content = Thrown msg →
  ∃ msg', generateMatrix parseManifest skillsDir f = Thrown msg'.
Proof.
  intros Hfile Hparse. unfold generateMatrix, readAllManifests, readdirSync.
  assert (Hbelow : isBelow skillsDir (skillsDir ++ [dirName; "manifest.yaml"]) = true)
    by by apply isBelow_app.
  assert (Hdir : dirExists skillsDir f = true).
  { apply dirExists_spec. right. eexists. split; [by eexists | exact Hbelow]. }
  unfold existsSync. rewrite Hdir, orb_true_r. simpl.
  destruct (readManifests_throws parseManifest skillsDir f (childNames skillsDir f)
              dirName content msg) as [msg' ->]; [| done | done | by eexists].
  apply childNames_elem. eexists. split; [left; by eexists |]. split; [exact Hbelow |].
  by rewrite lookup_app_r, Nat.sub_diag.
Qed.

Lemma generateMatrix_invalid_manifest_throws_witness :
  files demoFS !! (demoRoot ++ [".gemini"; "skills"] ++ ["broken"; "manifest.yaml"])
    = Some "not a manifest"
  ∧ ∃ msg, generateMatrix demoParseManifest (demoRoot ++ [".gemini"; "skills"]) demoFS
           = Thrown msg.
Proof.
  split; [vm_compute; reflexivity |].
  apply (generateMatrix_invalid_manifest_throws demoParseManifest
           (demoRoot ++ [".gemini"; "skills"]) demoFS "broken" "not a manifest"
           "Invalid manifest").
  - vm_compute. reflexivity.
  - reflexivity.
Defined.

(** ** Saving inside a git repository, then loading *)












Section SaveThenLoad.
Context (E : Extern) (stringify : FullMeta → string) (now : string).
Context (skillNames : list string) (meta : PartialMeta) (root dir gitDirectory : path).
Context (l : path) (n pre post : string) (hashes : FileInputHashes).

Local Abbreviation rr := (gitDirectory ++ ["rr-cache"]).
Local Abbreviation saved := (root ++ RESOLUTIONS_DIR ++ segment (resolutionKey skillNames)).
Local Abbreviation file := (mkSavedFile (l ++ [n]) pre post hashes).
Local Abbreviation preimageP := (saved ++ l ++ [n +:+ ".preimage"]).
Local Abbreviation resolutionP := (saved ++ l ++ [n +:+ ".resolution"]).
Local Abbreviation sidecarP := (saved ++ l ++ [(n +:+ ".preimage") +:+ ".hash"]).
Local Abbreviation metaP := (saved ++ ["meta.yaml"]).

(** The files after the two [writeFileSync] of the loop body. *)
Local Abbreviation written f :=
  (writeFileSync resolutionP post
     (writeFileSync preimageP pre (mkdirSync (dirname preimageP) f))).





Section After.
Context (f : FS) (entryName : string).

Local Abbreviation after :=
  (writeFileSync metaP (stringify (fullMetaOf now skillNames [file] meta))
     (writeFileSync sidecarP entryName (written f))).





End After.
End SaveThenLoad.



